(** * The puzzle board engine: a shallow embedding of [PuzzleBoard]

    The React component [PuzzleBoard] (the second module of src/App.tsx)
    keeps its state in hooks - [pieces], [activePieceIndex], [dragOffset],
    [boardSize], [pieceSize], [effects], [imgObj] - and changes it from
    event handlers that run to completion.  Here the hooks are the fields
    of one record [Board], and every handler is a function from [Board] to
    [Board], or to [option Board] where the JavaScript can throw.

    Conventions of the embedding:
    - a handler reads the state of the last render and its state updates
      are applied before the next event: the [pieces] of its closure and
      the [prev] of its updater functions are the same list;
    - an updater function runs once per call of the setter;
    - JavaScript numbers are kept abstract behind the class [Number]; its
      instance is IEEE 754 binary64 ([float]), what the engine executes,
      and what is proved of its rounding is proved from the specification
      of the primitive floats ([SpecFloat]); indices, ids and [zIndex] are
      integers, times are milliseconds in [Z];
    - [Math.pow(v, 2)] is the product [v * v];
    - what the environment supplies - [Math.random], [Date.now], the
      canvas and its bounding rectangle, the size of the container - is an
      argument of the handler;
    - painting on the canvas and the audio nodes are not part of the
      state. *)

From Stdlib Require Import ZArith Lia Bool String.
From Stdlib Require Import Floats Uint63 Permutation Sorted.
From Stdlib Require Import Ascii DecimalString DecimalNat DecimalFacts.
From stdpp Require Import base list.

Set Default Proof Using "Type".
Local Open Scope nat_scope.

(** ** Numbers *)

(** The arithmetic the component uses on [number] values.  [num_lt a b] is
    [a < b], [num_le a b] is [a <= b]; [a > b] and [a >= b] are written
    with the arguments swapped, as IEEE comparison allows. *)
Class Number (num : Type) := {
  num_add : num -> num -> num;
  num_sub : num -> num -> num;
  num_mul : num -> num -> num;
  num_div : num -> num -> num;
  num_lt : num -> num -> bool;
  num_le : num -> num -> bool;
  num_min : num -> num -> num;   (* Math.min *)
  num_max : num -> num -> num;   (* Math.max *)
  num_of_Z : Z -> num            (* an integer-valued number *)
}.

(** [Math.sqrt]. *)
Class Sqrt (num : Type) := num_sqrt : num -> num.

Declare Scope num_scope.
Delimit Scope num_scope with num.
Notation "a + b" := (num_add a b) : num_scope.
Notation "a - b" := (num_sub a b) : num_scope.
Notation "a * b" := (num_mul a b) : num_scope.
Notation "a / b" := (num_div a b) : num_scope.
Notation "a <? b" := (num_lt a b) : num_scope.
Notation "a <=? b" := (num_le a b) : num_scope.

(** A decimal literal [n/d] of the source ([0.85] is [lit 85 100]): the
    quotient of two integers, which in binary64 is the correctly rounded
    value of the literal. *)
Definition lit {num : Type} `{!Number num} (n d : Z) : num :=
  (num_of_Z n / num_of_Z d)%num.

Definition num_of_nat {num : Type} `{!Number num} (n : nat) : num :=
  num_of_Z (Z.of_nat n).

(** *** IEEE 754 binary64 *)

Definition float_of_Z (z : Z) : float :=
  match z with
  | Z0 => 0%float
  | Zpos _ => PrimFloat.of_uint63 (Uint63.of_Z z)
  | Zneg p => (- PrimFloat.of_uint63 (Uint63.of_Z (Zpos p)))%float
  end.

(** [Math.min] and [Math.max]: NaN if either argument is NaN, and -0 is
    below +0. *)
Definition js_min (a b : float) : float :=
  if PrimFloat.is_nan a || PrimFloat.is_nan b then PrimFloat.nan
  else if (a <? b)%float then a
  else if (b <? a)%float then b
  else if PrimFloat.get_sign a then a else b.

Definition js_max (a b : float) : float :=
  if PrimFloat.is_nan a || PrimFloat.is_nan b then PrimFloat.nan
  else if (a <? b)%float then b
  else if (b <? a)%float then a
  else if PrimFloat.get_sign a then b else a.

#[export] Instance float_Number : Number float := {|
  num_add := PrimFloat.add;
  num_sub := PrimFloat.sub;
  num_mul := PrimFloat.mul;
  num_div := PrimFloat.div;
  num_lt := PrimFloat.ltb;
  num_le := PrimFloat.leb;
  num_min := js_min;
  num_max := js_max;
  num_of_Z := float_of_Z
|}.

#[export] Instance float_Sqrt : Sqrt float := PrimFloat.sqrt.

(** ** Data model (types.ts and the interfaces of PuzzleBoard.tsx) *)

Inductive Difficulty := EASY | MEDIUM | HARD | EXPERT.

(** The numeric value of the enum. *)
Definition grid (d : Difficulty) : nat :=
  match d with EASY => 3 | MEDIUM => 4 | HARD => 6 | EXPERT => 8 end.

Section Model.
Context {num : Type} `{!Number num}.

(** [Piece] (types.ts). *)
Record Piece := mkPiece {
  id : nat;
  row : nat;
  col : nat;
  currentX : num;
  currentY : num;
  targetX : num;
  targetY : num;
  isLocked : bool;
  zIndex : Z
}.

(** [Particle]; its fields [x], [y], [vx], [vy] are [p_x], [p_y], [p_vx],
    [p_vy] here. *)
Record Particle := mkParticle {
  p_x : num;
  p_y : num;
  p_vx : num;
  p_vy : num;
  life : num;
  size : num;
  color : string
}.

(** [VisualEffect]; its fields [x], [y] are [e_x], [e_y] here. *)
Record VisualEffect := mkEffect {
  e_x : num;
  e_y : num;
  startTime : Z;                 (* Date.now(), milliseconds *)
  particles : list Particle
}.

(** The values of [boardSize] and [pieceSize], and of [dragOffset]. *)
Record Size := mkSize { w : num; h : num }.
Record Offset := mkOffset { x : num; y : num }.

(** [HTMLImageElement]: only its natural size is read. *)
Record Image := mkImage { width : num; height : num }.

(** The container [div]: only its client size is read. *)
Record Container := mkContainer { clientWidth : num; clientHeight : num }.

(** The canvas: its buffer size and its bounding client rectangle. *)
Record Canvas := mkCanvas {
  canvas_width : num;
  canvas_height : num;
  rect_left : num;
  rect_top : num;
  rect_width : num;
  rect_height : num
}.

(** The hooks of the component, the timers it has started with
    [setTimeout(onSolved, 800)] (their due times) and the number of calls
    it has made to the callbacks [onSolved] and [onMove]. *)
Record Board := mkBoard {
  pieces : list Piece;
  imgObj : option Image;
  activePieceIndex : option nat;
  dragOffset : Offset;
  boardSize : Size;
  pieceSize : Size;
  effects : list VisualEffect;
  solvedTimers : list Z;
  solvedCalls : nat;
  moveCalls : nat
}.

(** The state of a freshly mounted component ([useState] defaults). *)
Definition mount : Board :=
  {| pieces := []; imgObj := None; activePieceIndex := None;
     dragOffset := mkOffset (num_of_Z 0) (num_of_Z 0);
     boardSize := mkSize (num_of_Z 0) (num_of_Z 0);
     pieceSize := mkSize (num_of_Z 0) (num_of_Z 0);
     effects := []; solvedTimers := []; solvedCalls := 0; moveCalls := 0 |}.

(** [img.onload = () => setImgObj(img)]. *)
Definition setImgObj (img : Image) (s : Board) : Board :=
  {| pieces := pieces s; imgObj := Some img;
     activePieceIndex := activePieceIndex s; dragOffset := dragOffset s;
     boardSize := boardSize s; pieceSize := pieceSize s;
     effects := effects s; solvedTimers := solvedTimers s;
     solvedCalls := solvedCalls s; moveCalls := moveCalls s |}.

(** ** Geometry and initialisation: [initGame] *)

(** The board size [(bw, bh)] chosen by [initGame]. *)
Definition boardDims (img : Image) (c : Container) : Size :=
  let cw := clientWidth c in
  let ch := clientHeight c in
  let imgAspect := (width img / height img)%num in
  let containerAspect := (cw / ch)%num in
  let fillFactor := lit 85 100 in
  if (imgAspect <? containerAspect)%num then
    let bh := (ch * fillFactor)%num in
    mkSize (bh * imgAspect)%num bh
  else
    let bw := (cw * fillFactor)%num in
    mkSize bw (bw / imgAspect)%num.

Definition boardX (c : Container) (b : Size) : num :=
  ((clientWidth c - w b) / num_of_Z 2)%num.
Definition boardY (c : Container) (b : Size) : num :=
  ((clientHeight c - h b) / num_of_Z 2)%num.

(** The piece pushed for row [r], column [c].  [rnd k] is the result of the
    [k]-th call to [Math.random()] made by this run of [initGame]: two per
    piece, first for [currentX], then for [currentY]. *)
Definition newPiece (n : nat) (cont : Container) (b ps : Size)
    (rnd : nat -> num) (r c : nat) : Piece :=
  let k := r * n + c in
  {| id := k;
     row := r;
     col := c;
     currentX := (rnd (2 * k)%nat * (clientWidth cont - w ps))%num;
     currentY := (rnd (2 * k + 1)%nat * (clientHeight cont - h ps))%num;
     targetX := (boardX cont b + num_of_nat c * w ps)%num;
     targetY := (boardY cont b + num_of_nat r * h ps)%num;
     isLocked := false;
     zIndex := Z.of_nat k |}.

(** The two nested [for] loops. *)
Definition newPieces (n : nat) (cont : Container) (b ps : Size)
    (rnd : nat -> num) : list Piece :=
  flat_map (fun r => List.map (newPiece n cont b ps rnd r) (seq 0 n)) (seq 0 n).

(** [initGame]: returns at once when the image has not loaded or the
    container is not mounted; otherwise lays the board out, scatters a new
    set of pieces and empties the effect list.  Nothing else is reset. *)
Definition initGame (d : Difficulty) (cont : option Container)
    (rnd : nat -> num) (s : Board) : Board :=
  match imgObj s, cont with
  | Some img, Some c =>
      let b := boardDims img c in
      let ps := mkSize (w b / num_of_nat (grid d))%num
                       (h b / num_of_nat (grid d))%num in
      {| pieces := newPieces (grid d) c b ps rnd;
         imgObj := imgObj s;
         activePieceIndex := activePieceIndex s;
         dragOffset := dragOffset s;
         boardSize := b;
         pieceSize := ps;
         effects := [];
         solvedTimers := solvedTimers s;
         solvedCalls := solvedCalls s;
         moveCalls := moveCalls s |}
  | _, _ => s
  end.

(** ** Picking a piece: [handleStart] *)

(** Pointer coordinates in canvas space. *)
Definition toCanvasX (cv : Canvas) (clientX : num) : num :=
  ((clientX - rect_left cv) * (canvas_width cv / rect_width cv))%num.
Definition toCanvasY (cv : Canvas) (clientY : num) : num :=
  ((clientY - rect_top cv) * (canvas_height cv / rect_height cv))%num.

(** [[...pieces].sort((a, b) => b.zIndex - a.zIndex)]: a stable sort,
    highest [zIndex] first.  [insertDesc p l] puts [p] in front of the first
    element whose [zIndex] is not above its own. *)
Fixpoint insertDesc (p : Piece) (l : list Piece) : list Piece :=
  match l with
  | [] => [p]
  | q :: l' =>
      if (zIndex p <? zIndex q)%Z then q :: insertDesc p l' else p :: q :: l'
  end.

Definition sortDesc (l : list Piece) : list Piece :=
  fold_right insertDesc [] l.

(** The order of the sorted copy: [p] may stand before [q]. *)
Definition above (p q : Piece) : Prop := (zIndex q <= zIndex p)%Z.

(** The predicate given to [sorted.findIndex]. *)
Definition hit (ps : Size) (px py : num) (p : Piece) : bool :=
  negb (isLocked p)
  && (currentX p <=? px)%num && (px <=? currentX p + w ps)%num
  && (currentY p <=? py)%num && (py <=? currentY p + h ps)%num.

(** [Array.prototype.findIndex]; [None] is the result -1. *)
Fixpoint findIndex {A : Type} (f : A -> bool) (l : list A) : option nat :=
  match l with
  | [] => None
  | a :: l' => if f a then Some 0 else S <$> findIndex f l'
  end.

(** [Math.max(...pieces.map(p => p.zIndex))]; [None] is the -Infinity of an
    empty argument list. *)
Definition maxZIndex (l : list Piece) : option Z :=
  match l with
  | [] => None
  | p :: l' => Some (fold_left (fun m q => Z.max m (zIndex q)) l' (zIndex p))
  end.

Definition withZIndex (p : Piece) (z : Z) : Piece :=
  {| id := id p; row := row p; col := col p;
     currentX := currentX p; currentY := currentY p;
     targetX := targetX p; targetY := targetY p;
     isLocked := isLocked p; zIndex := z |}.

(** [handleStart].  [sorted[pIdx]] is read through [List.find], which
    returns the element [findIndex] points at.  The result is [None] where
    the JavaScript would read a field of [undefined]. *)
Definition handleStart (canvas : option Canvas) (clientX clientY : num)
    (s : Board) : option Board :=
  match canvas with
  | None => Some s
  | Some cv =>
      let px := toCanvasX cv clientX in
      let py := toCanvasY cv clientY in
      let sorted := sortDesc (pieces s) in
      match List.find (hit (pieceSize s) px py) sorted with
      | None => Some s
      | Some q =>
          realIdx ← findIndex (fun p => id p =? id q) (pieces s);
          pr ← pieces s !! realIdx;
          maxZ ← maxZIndex (pieces s);
          Some {| pieces := <[realIdx := withZIndex pr (maxZ + 1)]> (pieces s);
                  imgObj := imgObj s;
                  activePieceIndex := Some realIdx;
                  dragOffset := mkOffset (px - currentX pr)%num
                                         (py - currentY pr)%num;
                  boardSize := boardSize s;
                  pieceSize := pieceSize s;
                  effects := effects s;
                  solvedTimers := solvedTimers s;
                  solvedCalls := solvedCalls s;
                  moveCalls := moveCalls s |}
      end
  end.

(** ** Dragging: [handleMove] *)

Definition withPieces (s : Board) (l : list Piece) : Board :=
  {| pieces := l; imgObj := imgObj s;
     activePieceIndex := activePieceIndex s; dragOffset := dragOffset s;
     boardSize := boardSize s; pieceSize := pieceSize s;
     effects := effects s; solvedTimers := solvedTimers s;
     solvedCalls := solvedCalls s; moveCalls := moveCalls s |}.

Definition withCurrent (p : Piece) (cx cy : num) : Piece :=
  {| id := id p; row := row p; col := col p;
     currentX := cx; currentY := cy;
     targetX := targetX p; targetY := targetY p;
     isLocked := isLocked p; zIndex := zIndex p |}.

(** [Math.max(0, Math.min(hi, v))]. *)
Definition clamp (hi v : num) : num := num_max (num_of_Z 0) (num_min hi v).

(** [handleMove].  An index past the end of [pieces] would make the array
    hold an object that is not a [Piece]; the model stops there ([None]). *)
Definition handleMove (canvas : option Canvas) (clientX clientY : num)
    (s : Board) : option Board :=
  match activePieceIndex s, canvas with
  | Some i, Some cv =>
      let px := toCanvasX cv clientX in
      let py := toCanvasY cv clientY in
      p ← pieces s !! i;
      Some (withPieces s
              (<[i := withCurrent p
                        (clamp (canvas_width cv - w (pieceSize s))
                               (px - x (dragOffset s)))%num
                        (clamp (canvas_height cv - h (pieceSize s))
                               (py - y (dragOffset s)))%num]> (pieces s)))
  | _, _ => Some s
  end.

(** ** Releasing: [handleEnd] *)

Context `{!Sqrt num}.

(** [Math.sqrt(Math.pow(dx, 2) + Math.pow(dy, 2))], the square taken as a
    product. *)
Definition dist (p : Piece) : num :=
  let dx := (currentX p - targetX p)%num in
  let dy := (currentY p - targetY p)%num in
  num_sqrt (dx * dx + dy * dy)%num.

(** The test of [handleEnd]: [dist < pieceSize.w * 0.25]. *)
Definition withinTolerance (ps : Size) (p : Piece) : bool :=
  (dist p <? w ps * lit 25 100)%num.

(** One particle of the burst; [rnd] numbers the calls to [Math.random()]
    of this release, three per particle in the order [vx], [vy], [size]. *)
Definition newParticle (ps : Size) (p : Piece) (rnd : nat -> num)
    (j : nat) : Particle :=
  {| p_x := (targetX p + w ps / num_of_Z 2)%num;
     p_y := (targetY p + h ps / num_of_Z 2)%num;
     p_vx := ((rnd (3 * j)%nat - lit 5 10) * num_of_Z 8)%num;
     p_vy := ((rnd (3 * j + 1)%nat - lit 5 10) * num_of_Z 8)%num;
     life := num_of_Z 1;
     size := (lit 15 10 + rnd (3 * j + 2)%nat * num_of_Z 3)%num;
     color := "rgba(224, 231, 255, ALPHA)" |}.

Definition newEffect (ps : Size) (p : Piece) (now : Z) (rnd : nat -> num)
    : VisualEffect :=
  {| e_x := targetX p; e_y := targetY p; startTime := now;
     particles := List.map (newParticle ps p rnd) (seq 0 25) |}.

(** The piece written by the lock. *)
Definition lockedAt (q p : Piece) : Piece :=
  {| id := id q; row := row q; col := col q;
     currentX := targetX p; currentY := targetY p;
     targetX := targetX q; targetY := targetY q;
     isLocked := true; zIndex := 0 |}.

(** The lock branch: the effect is appended, the piece is snapped and,
    when every piece is then locked, [setTimeout(onSolved, 800)]. *)
Definition lockPiece (i : nat) (p : Piece) (now : Z) (rnd : nat -> num)
    (s : Board) : Board :=
  let next := <[i := lockedAt p p]> (pieces s) in
  {| pieces := next;
     imgObj := imgObj s;
     activePieceIndex := activePieceIndex s;
     dragOffset := dragOffset s;
     boardSize := boardSize s;
     pieceSize := pieceSize s;
     effects := effects s ++ [newEffect (pieceSize s) p now rnd];
     solvedTimers :=
       if forallb isLocked next then solvedTimers s ++ [(now + 800)%Z]
       else solvedTimers s;
     solvedCalls := solvedCalls s;
     moveCalls := moveCalls s |}.

(** What every release ends with: [onMove(); setActivePieceIndex(null)]. *)
Definition released (s : Board) : Board :=
  {| pieces := pieces s; imgObj := imgObj s;
     activePieceIndex := None; dragOffset := dragOffset s;
     boardSize := boardSize s; pieceSize := pieceSize s;
     effects := effects s; solvedTimers := solvedTimers s;
     solvedCalls := solvedCalls s; moveCalls := S (moveCalls s) |}.

(** [handleEnd] at time [now]; [None] is the TypeError of reading
    [currentX] of [undefined]. *)
Definition handleEnd (now : Z) (rnd : nat -> num) (s : Board)
    : option Board :=
  match activePieceIndex s with
  | None => Some s
  | Some i =>
      p ← pieces s !! i;
      Some (released (if withinTolerance (pieceSize s) p
                      then lockPiece i p now rnd s else s))
  end.

(** ** Effects in the render loop: [draw] *)

Definition ageParticle (p : Particle) : Particle :=
  {| p_x := (p_x p + p_vx p)%num;
     p_y := (p_y p + p_vy p)%num;
     p_vx := p_vx p; p_vy := p_vy p;
     life := (life p - lit 15 1000)%num;
     size := size p; color := color p |}.

Definition ageEffect (e : VisualEffect) : VisualEffect :=
  {| e_x := e_x e; e_y := e_y e; startTime := startTime e;
     particles := List.map ageParticle (particles e) |}.

(** [now - eff.startTime < 1200]. *)
Definition alive (now : Z) (e : VisualEffect) : bool :=
  (now - startTime e <? 1200)%Z.

(** A particle is painted in a frame when its new [life] is positive. *)
Definition painted (p : Particle) : bool := (num_of_Z 0 <? life p)%num.

(** What [draw] does to the state at time [now]: the effects that are too
    old are dropped and the particles of the others move and age.  The
    painting itself changes no state.  Nothing happens without a canvas or
    before the image has loaded. *)
Definition draw (canvas : option Canvas) (now : Z) (s : Board) : Board :=
  match canvas, imgObj s with
  | Some _, Some _ =>
      {| pieces := pieces s; imgObj := imgObj s;
         activePieceIndex := activePieceIndex s; dragOffset := dragOffset s;
         boardSize := boardSize s; pieceSize := pieceSize s;
         effects := List.map ageEffect (List.filter (alive now) (effects s));
         solvedTimers := solvedTimers s;
         solvedCalls := solvedCalls s; moveCalls := moveCalls s |}
  | _, _ => s
  end.

(** ** The timers of [setTimeout(onSolved, 800)] *)

(** The host fires, at time [now], every timer that is due; nothing in the
    component ever clears one. *)
Definition runTimers (now : Z) (s : Board) : Board :=
  {| pieces := pieces s; imgObj := imgObj s;
     activePieceIndex := activePieceIndex s; dragOffset := dragOffset s;
     boardSize := boardSize s; pieceSize := pieceSize s;
     effects := effects s;
     solvedTimers := List.filter (fun t => (now <? t)%Z) (solvedTimers s);
     solvedCalls :=
       solvedCalls s
       + length (List.filter (fun t => (t <=? now)%Z) (solvedTimers s));
     moveCalls := moveCalls s |}.

(** ** Events *)

(** What can happen to a mounted board: the image finishes loading, the
    three pointer inputs, a repaint, a (re)initialisation and the passing
    of time.  A pointer-down, a pointer-move and a repaint come with the
    canvas as it is at that moment. *)
Inductive Event :=
  | Loaded (img : Image)
  | PointerDown (cv : Canvas) (clientX clientY : num)
  | PointerMove (cv : Canvas) (clientX clientY : num)
  | PointerUp (now : Z) (rnd : nat -> num)
  | Frame (cv : Canvas) (now : Z)
  | Init (cont : Container) (rnd : nat -> num)
  | Elapse (now : Z).

Definition isInput (e : Event) : bool :=
  match e with
  | PointerDown _ _ _ | PointerMove _ _ _ | PointerUp _ _ => true
  | _ => false
  end.

(** A pointer-move. *)
Definition isMove (e : Event) : bool :=
  match e with
  | PointerMove _ _ _ => true
  | _ => false
  end.

(** The events of one puzzle instance: everything but a new image and a
    rebuild of the board. *)
Definition inInstance (e : Event) : bool :=
  match e with
  | Loaded _ | Init _ _ => false
  | _ => true
  end.

Definition step (d : Difficulty) (e : Event) (s : Board)
    : option Board :=
  match e with
  | Loaded img => Some (setImgObj img s)
  | PointerDown cv cx cy => handleStart (Some cv) cx cy s
  | PointerMove cv cx cy => handleMove (Some cv) cx cy s
  | PointerUp now rnd => handleEnd now rnd s
  | Frame cv now => Some (draw (Some cv) now s)
  | Init cont rnd => Some (initGame d (Some cont) rnd s)
  | Elapse now => Some (runTimers now s)
  end.

Fixpoint run (d : Difficulty) (es : list Event) (s : Board)
    : option Board :=
  match es with
  | [] => Some s
  | e :: es' => s' ← step d e s; run d es' s'
  end.

(** A release dated [t0] or later; the other events spawn no effect. *)
Definition notBefore (t0 : Z) (e : Event) : bool :=
  match e with
  | PointerUp now _ => (t0 <=? now)%Z
  | _ => true
  end.

(** ** Well-formed boards *)

(** What holds of every board the handlers can reach: the piece stored at
    index [i] has id [i], and the piece being dragged exists and is not
    locked. *)
Definition wf (s : Board) : Prop :=
  List.map id (pieces s) = seq 0 (length (pieces s))
  /\ match activePieceIndex s with
     | Some i => isLocked <$> pieces s !! i = Some false
     | None => True
     end.

(** The boards of a component mounted with difficulty [d]: well formed,
    with no piece and no effect before the image has loaded, and with
    either no piece yet or the full grid. *)
Definition inv (d : Difficulty) (s : Board) : Prop :=
  wf s
  /\ (imgObj s = None -> pieces s = [] /\ effects s = [])
  /\ (pieces s = [] \/ length (pieces s) = grid d * grid d).

(** [pieces.every(i => i.isLocked)]. *)
Definition allLocked (s : Board) : bool := forallb isLocked (pieces s).

(** The number of [onSolved] timers started so far: pending or fired. *)
Definition scheduled (s : Board) : nat :=
  length (solvedTimers s) + solvedCalls s.

(** The pieces that are locked in [s] are the same pieces in [s']. *)
Definition frozen (s s' : Board) : Prop :=
  forall i p, pieces s !! i = Some p -> isLocked p = true ->
              pieces s' !! i = Some p.

(** What one puzzle instance keeps, [k] timers having been started before
    it: one more has been started exactly when every piece is locked, and
    then nothing is being dragged. *)
Definition counted (k : nat) (s : Board) : Prop :=
  if allLocked s then scheduled s = S k /\ activePieceIndex s = None
  else scheduled s = k.

(** The rectangle test as the specification words it: the half-open
    rectangle [currentX, currentX + w) x [currentY, currentY + h). *)
Definition hitHalfOpen (ps : Size) (px py : num) (p : Piece) : bool :=
  negb (isLocked p)
  && (currentX p <=? px)%num && (px <? currentX p + w ps)%num
  && (currentY p <=? py)%num && (py <? currentY p + h ps)%num.

End Model.

Arguments Piece : clear implicits.
Arguments Particle : clear implicits.
Arguments VisualEffect : clear implicits.
Arguments Size : clear implicits.
Arguments Offset : clear implicits.
Arguments Image : clear implicits.
Arguments Container : clear implicits.
Arguments Canvas : clear implicits.
Arguments Board : clear implicits.

(** The comparison law of ordered numbers used for a release outside the
    tolerance: [a >= b] excludes [a < b]. *)
Class NumberOrder (num : Type) `{!Number num} : Prop :=
  num_le_not_lt : forall a b : num, num_le b a = true -> num_lt a b = false.

(** ** A session on a 1000 x 600 canvas (binary64) *)

Module Demo.
Local Open Scope float_scope.

Definition img : Image float := mkImage 1200 800.
Definition cont : Container float := mkContainer 1000 600.
Definition cv : Canvas float := mkCanvas 1000 600 0 0 1000 600.

(** [Math.random()] returning 0 at every call: all nine pieces of the
    3 x 3 board start at the canvas origin. *)
Definition rnd0 : nat -> float := fun _ => 0.
Definition rndHalf : nat -> float := fun _ => 0.5.

Definition start : Board float :=
  initGame EASY (Some cont) rnd0 (setImgObj img mount).

(** Pick the topmost piece at (1, 1), carry it onto its target, release. *)
Definition place (t : Z) (p : Piece float) : list (Event (num := float)) :=
  [PointerDown cv 1 1; PointerMove cv (targetX p + 1) (targetY p + 1);
   PointerUp t rndHalf].

(** The topmost piece, number 8, is picked and carried onto its target. *)
Definition carry8 : list (Event (num := float)) :=
  [PointerDown cv 1 1; PointerMove cv 628.5 386].

(** All nine pieces are placed, topmost first, the last one at t = 1000. *)
Definition solveAll : list (Event (num := float)) :=
  flat_map (place 1000) (rev (pieces start)).

Definition orElse (s : Board float) (o : option (Board float)) : Board float :=
  match o with Some s' => s' | None => s end.

Definition dragging8 : Board float := orElse start (run EASY carry8 start).
Definition dropped8 : Board float :=
  orElse start (run EASY [PointerDown cv 1 1; PointerMove cv 500 300] start).

(** Piece 8 is locked at t = 1000, then 67 frames follow, 16 ms apart: the
    last one is painted at t = 2072. *)
Definition lock8 : list (Event (num := float)) :=
  carry8 ++ [PointerUp 1000 rndHalf].
Definition frames67 : list (Event (num := float)) :=
  List.map (fun k => Frame cv (1000 + 16 * Z.of_nat k)) (seq 1 67).
Definition placed8 : Board float := orElse start (run EASY lock8 start).

(** With piece 8 locked: a pointer-down on it, then piece 7 is picked,
    dragged over piece 8 and released there. *)
Definition pokeLocked : list (Event (num := float)) :=
  [PointerDown cv 628.5 386; PointerMove cv 700 400; PointerUp 2900 rndHalf;
   PointerDown cv 1 1; PointerMove cv 628.5 386; PointerUp 3000 rndHalf].

(** After a repaint at t = 2200, piece 7 is locked at t = 2300. *)
Definition lock7 : list (Event (num := float)) :=
  [PointerDown cv 1 1; PointerMove cv 373.5 386; PointerUp 2300 rndHalf].
Definition placed7 : Board float :=
  orElse placed8 (run EASY (Frame cv 2200 :: lock7) placed8).

(** The board is solved at t = 1000 and rebuilt (a resize) at t = 1100;
    time then passes to t = 1800. *)
Definition solveThenResize : list (Event (num := float)) :=
  solveAll ++ [Elapse 1100; Init cont rndHalf; Elapse 1800].
Definition solved : Board float := orElse start (run EASY solveAll start).

(** Degenerate display areas. *)
Definition flat : Container float := mkContainer 1000 0.
Definition empty : Container float := mkContainer 0 0.

End Demo.

(** ** The rest of the render loop: the paint order *)

Section Render.
Context {num : Type} `{!Number num}.

(** [[...pieces].sort((a, b) => a.zIndex - b.zIndex)] in [draw]: a stable
    sort, lowest [zIndex] first; the pieces are painted in this order, so
    the last one is on top. *)
Fixpoint insertAsc (p : Piece num) (l : list (Piece num)) : list (Piece num) :=
  match l with
  | [] => [p]
  | q :: l' =>
      if (zIndex q <? zIndex p)%Z then q :: insertAsc p l' else p :: q :: l'
  end.

Definition sortAsc (l : list (Piece num)) : list (Piece num) :=
  fold_right insertAsc [] l.

Definition sortedPieces (s : Board num) : list (Piece num) :=
  sortAsc (pieces s).

(** [isDragging] for the piece [p] being painted:
    [activePieceIndex !== null && pieces[activePieceIndex].id === p.id];
    [None] is the TypeError of reading [id] of [undefined]. *)
Definition isDragging (s : Board num) (p : Piece num) : option bool :=
  match activePieceIndex s with
  | None => Some false
  | Some i => a ← pieces s !! i; Some (id a =? id p)
  end.

(** The border of a piece: none when locked, the accent when dragged. *)
Inductive Border := NoBorder | Subtle | Accent.

Definition border (s : Board num) (p : Piece num) : option Border :=
  (fun dragging : bool =>
     if isLocked p then NoBorder else if dragging then Accent else Subtle)
    <$> isDragging s p.

End Render.

(** ** Invariants of the stacking order *)

Section Stacking.
Context {num : Type} `{!Number num}.

(** The three rewrites of a piece made by the pointer handlers: raised by
    a pick, moved by a drag, locked by a release. *)
Inductive rewritten (l : list (Piece num)) (p : Piece num)
    : Piece num -> Prop :=
  | raised m :
      (forall r, In r l -> (zIndex r <= m)%Z) ->
      rewritten l p (withZIndex p (m + 1))
  | moved cx cy : rewritten l p (withCurrent p cx cy)
  | locked : rewritten l p (lockedAt p p).

(** What holds of each piece of a reachable board: no [zIndex] is
    negative; a locked piece sits on its target with [zIndex] 0; an
    unlocked piece with [zIndex] 0 can only be piece 0. *)
Definition settled (p : Piece num) : Prop :=
  (0 <= zIndex p)%Z
  /\ (isLocked p = true ->
      currentX p = targetX p /\ currentY p = targetY p /\ zIndex p = 0%Z)
  /\ (isLocked p = false -> zIndex p = 0%Z -> id p = 0).

(** No two unlocked pieces share a [zIndex]. *)
Definition stacked (l : list (Piece num)) : Prop :=
  forall i j p q, i <> j -> l !! i = Some p -> l !! j = Some q ->
    isLocked p = false -> isLocked q = false -> zIndex p <> zIndex q.

Definition tidy (l : list (Piece num)) : Prop :=
  (forall i p, l !! i = Some p -> settled p) /\ stacked l.

(** The fields of a piece that no handler writes. *)
Definition sameIdentity (p q : Piece num) : Prop :=
  id q = id p /\ row q = row p /\ col q = col p
  /\ targetX q = targetX p /\ targetY q = targetY p.

End Stacking.

(** ** Effects and moves on reachable boards *)

Section Accounting.
Context {num : Type} `{!Number num}.

(** The number of locked pieces. *)
Definition lockedCount (s : Board num) : nat :=
  length (List.filter isLocked (pieces s)).

(** An effect of the list marks a locked piece of the board: it has its 25
    particles and sits at the target of that piece. *)
Definition marks (s : Board num) (f : VisualEffect num) : Prop :=
  length (particles f) = 25
  /\ exists i p, pieces s !! i = Some p /\ isLocked p = true
                 /\ e_x f = targetX p /\ e_y f = targetY p.

End Accounting.

(** ** The ambient melody: [triggerMelodyNote] *)

(** [Math.floor] of a binary64 number, as an integer: the floor of
    [m * 2 ^ e]; [None] for NaN and the infinities. *)
Definition SFfloor (x : spec_float) : option Z :=
  match x with
  | S754_zero _ => Some 0%Z
  | S754_finite s m e =>
      Some (if (0 <=? e)%Z then cond_Zopp s (Zpos m * 2 ^ e)%Z
            else (cond_Zopp s (Zpos m) / 2 ^ (- e))%Z)
  | _ => None
  end.

Definition js_floor (x : float) : option Z := SFfloor (Prim2SF x).

(** [Math.floor], to an integer. *)
Class Floor (num : Type) := num_floor : num -> option Z.

#[export] Instance float_Floor : Floor float := js_floor.

Section Melody.
Context {num : Type} `{!Number num} `{!Floor num}.

(** C4, E4, G4, A4, C5. *)
Definition MELODY_FREQS : list num :=
  [lit 26163 100; lit 32963 100; lit 39200 100; lit 44000 100;
   lit 52325 100].

(** [MELODY_FREQS[Math.floor(Math.random() * MELODY_FREQS.length)]] for the
    random number [r]; [None] is [undefined]. *)
Definition melodyFreq (r : num) : option num :=
  k ← num_floor (r * num_of_nat (length MELODY_FREQS))%num;
  if (k <? 0)%Z then None else MELODY_FREQS !! Z.to_nat k.

End Melody.

(** ** The value of a binary64 number *)

(** Binary64 numbers are compared through their values.  The value of a
    finite number [m * 2 ^ e] is kept as the integer [m * 2 ^ (e + scale)]:
    the exponent of a binary64 number is at least -1074 and that of a
    product of two at least -2148, so that [scale] makes every value an
    integer.  The infinities stand at [2 ^ 1024], beyond every finite
    number. *)
Definition scale : Z := 2200.

Definition sval (x : spec_float) : Z :=
  match x with
  | S754_zero _ => 0
  | S754_nan => 0
  | S754_infinity s => cond_Zopp s (2 ^ (1024 + scale))
  | S754_finite s m e => cond_Zopp s (Zpos m * 2 ^ (e + scale))
  end%Z.

Definition is_num (x : spec_float) : bool :=
  match x with S754_nan => false | _ => true end.

Definition SFfinite (x : spec_float) : bool :=
  match x with S754_zero _ | S754_finite _ _ _ => true | _ => false end.

Definition B2Z (x : float) : Z := sval (Prim2SF x).
Definition is_finite (x : float) : bool := SFfinite (Prim2SF x).

(** The state of [shr] after [k] shifts of the mantissa [m0]: the quotient
    by [2 ^ k], the round bit and the sticky bit. *)
Definition shifted (m0 k : Z) (mrs : shr_record) : Prop :=
  (shr_m mrs = m0 / 2 ^ k
   /\ (shr_r mrs = true <-> 2 ^ k <= 2 * (m0 mod 2 ^ k))
   /\ (shr_s mrs = true
       <-> m0 mod 2 ^ k <> 0 /\ 2 * (m0 mod 2 ^ k) <> 2 ^ k))%Z.

(** What [binary_round_aux] returns for the rounded mantissa [m2] at the
    exponent [e2]: a carry into the next binade, an overflow. *)
Definition rounded (s : bool) (m2 e2 : Z) : spec_float :=
  (if m2 =? 0 then S754_zero s
   else if m2 =? 2 ^ 53 then
     if e2 + 1 <=? 971 then S754_finite s (Z.to_pos (2 ^ 52)) (e2 + 1)
     else S754_infinity s
   else
     if e2 <=? 971 then S754_finite s (Z.to_pos m2) e2
     else S754_infinity s)%Z.

(** The life of a particle born with life 1, after [k] ticks of [draw]. *)
Definition lifeAfter (k : nat) : float :=
  Nat.iter k (fun l => (l - lit 15 1000)%float) 1%float.

(** ** The clock of the header: [formatTime] (App) *)

(** [Number.prototype.toString] on a natural number. *)
Definition toString (n : nat) : string :=
  NilEmpty.string_of_uint (Nat.to_uint n).

Fixpoint replicate_char (n : nat) (c : Ascii.ascii) : string :=
  match n with
  | O => EmptyString
  | S n' => String c (replicate_char n' c)
  end.

(** [String.prototype.padStart] with a one-character filler. *)
Definition padStart (target : nat) (c : Ascii.ascii) (t : string) : string :=
  (replicate_char (target - String.length t) c ++ t)%string.

(** The character of a decimal digit. *)
Definition digit (k : nat) : Ascii.ascii := Ascii.ascii_of_nat (48 + k).

(** A string without a colon. *)
Fixpoint colonFree (t : string) : Prop :=
  match t with
  | EmptyString => True
  | String c t' => c <> ":"%char /\ colonFree t'
  end.

(** [formatTime], on a whole number of seconds. *)
Definition formatTime (seconds : nat) : string :=
  let mins := seconds / 60 in
  let secs := seconds mod 60 in
  (toString mins ++ ":" ++ padStart 2 "0"%char (toString secs))%string.

(** * Properties *)

(** ** Lists: sorting, searching, maximum *)

Section Lists.
Context {num : Type} `{!Number num}.
Implicit Types (p q : Piece num) (l : list (Piece num)).

Lemma insertDesc_perm p l : Permutation (insertDesc p l) (p :: l).
Proof.
  induction l as [|q l IH]; simpl; [reflexivity|].
  destruct (zIndex p <? zIndex q)%Z; [|reflexivity].
  rewrite IH. apply perm_swap.
Qed.

Lemma sortDesc_perm l : Permutation (sortDesc l) l.
Proof.
  induction l as [|p l IH]; simpl; [reflexivity|].
  rewrite insertDesc_perm. now constructor.
Qed.

Lemma insertDesc_sorted p l :
  StronglySorted above l -> StronglySorted above (insertDesc p l).
Proof.
  induction 1 as [|q l Hs IH Hq]; simpl.
  - repeat constructor.
  - destruct (zIndex p <? zIndex q)%Z eqn:E.
    + constructor; [exact IH|].
      apply Z.ltb_lt in E.
      eapply Permutation_Forall; [symmetry; apply insertDesc_perm|].
      constructor; [unfold above; lia | exact Hq].
    + apply Z.ltb_ge in E.
      constructor; [now constructor|].
      constructor; [exact E|].
      eapply List.Forall_impl; [|exact Hq].
      unfold above; intros; simpl in *; lia.
Qed.

Lemma sortDesc_sorted l : StronglySorted above (sortDesc l).
Proof.
  induction l as [|p l IH]; simpl; [constructor|].
  now apply insertDesc_sorted.
Qed.

(** The first element a scan finds is preceded by misses only. *)
Lemma find_split {A : Type} (f : A -> bool) (xs : list A) (a : A) :
  List.find f xs = Some a ->
  exists pre post, xs = pre ++ a :: post /\ f a = true
                   /\ Forall (fun b => f b = false) pre.
Proof.
  induction xs as [|b xs IH]; simpl; [discriminate|].
  destruct (f b) eqn:E.
  - intros [= ->]. exists [], xs. repeat split; auto.
  - intros Hf. destruct (IH Hf) as (pre & post & -> & Ha & Hpre).
    exists (b :: pre), post. repeat split; auto.
Qed.

Lemma find_none_iff {A : Type} (f : A -> bool) (l : list A) :
  List.find f l = None <-> forall a, In a l -> f a = false.
Proof.
  split; [apply find_none|].
  induction l as [|b l IH]; simpl; [reflexivity|]. intros Hall.
  rewrite (Hall b (or_introl eq_refl)). apply IH. intros; apply Hall; now right.
Qed.

(** Scanning the sorted copy returns a hit of greatest [zIndex]. *)
Lemma find_sortDesc_top (f : Piece num -> bool) l q :
  List.find f (sortDesc l) = Some q ->
  In q l /\ f q = true
  /\ forall q', In q' l -> f q' = true -> (zIndex q' <= zIndex q)%Z.
Proof.
  intros Hf. destruct (find_split _ _ _ Hf) as (l1 & l2 & Hs & Hq & Hmiss).
  pose proof (sortDesc_perm l) as Hperm.
  pose proof (sortDesc_sorted l) as Hsorted.
  rewrite Hs in Hperm, Hsorted.
  split; [|split; [exact Hq|]].
  - eapply Permutation_in; [exact Hperm|]. apply in_or_app; right; now left.
  - intros q' Hin Hq'.
    apply (Permutation_in _ (Permutation_sym Hperm)) in Hin.
    apply in_app_or in Hin as [Hin|[<-|Hin]].
    + rewrite List.Forall_forall in Hmiss. rewrite (Hmiss _ Hin) in Hq'. discriminate.
    + lia.
    + clear Hf Hs Hperm Hmiss. induction l1 as [|a l1 IH]; simpl in Hsorted.
      * inversion Hsorted as [|? ? _ Hall]; subst.
        rewrite List.Forall_forall in Hall. exact (Hall _ Hin).
      * inversion Hsorted; subst. now apply IH.
Qed.

Lemma findIndex_Some {A : Type} (f : A -> bool) (l : list A) (i : nat) :
  findIndex f l = Some i -> exists a, l !! i = Some a /\ f a = true.
Proof.
  revert i. induction l as [|b l IH]; simpl; intros i; [discriminate|].
  destruct (f b) eqn:E.
  - intros [= <-]. now exists b.
  - destruct (findIndex f l) as [j|]; simpl; [|discriminate].
    intros [= <-]. exact (IH j eq_refl).
Qed.

Lemma findIndex_exists {A : Type} (f : A -> bool) (l : list A) (a : A) :
  In a l -> f a = true -> exists i, findIndex f l = Some i.
Proof.
  induction l as [|b l IH]; simpl; [tauto|].
  intros Hin Ha. destruct (f b) eqn:E; [now exists 0|].
  destruct Hin as [->|Hin]; [congruence|].
  destruct (IH Hin Ha) as [i ->]. now exists (S i).
Qed.

Lemma fold_max_ge l (m : Z) :
  (m <= fold_left (fun m q => Z.max m (zIndex q)) l m)%Z
  /\ forall q, In q l ->
       (zIndex q <= fold_left (fun m q => Z.max m (zIndex q)) l m)%Z.
Proof.
  revert m. induction l as [|p l IH]; simpl; intros m.
  - split; [lia | tauto].
  - destruct (IH (Z.max m (zIndex p))) as [H1 H2].
    split; [lia|]. intros q [<-|Hin]; [lia | now apply H2].
Qed.

Lemma fold_max_attained l (m : Z) :
  fold_left (fun m q => Z.max m (zIndex q)) l m = m
  \/ exists q, In q l
               /\ zIndex q = fold_left (fun m q => Z.max m (zIndex q)) l m.
Proof.
  revert m. induction l as [|p l IH]; simpl; intros m; [now left|].
  destruct (IH (Z.max m (zIndex p))) as [E|(q & Hin & E)].
  - rewrite E. destruct (Z.max_spec m (zIndex p)) as [[_ ->]|[_ ->]].
    + right. exists p. split; [now left | reflexivity].
    + now left.
  - right. exists q. split; [now right | exact E].
Qed.

(** [maxZIndex] is the greatest [zIndex] of a non-empty list. *)
Lemma maxZIndex_spec l :
  l <> [] ->
  exists m, maxZIndex l = Some m
            /\ (forall q, In q l -> (zIndex q <= m)%Z)
            /\ (exists q, In q l /\ zIndex q = m).
Proof.
  destruct l as [|p l]; [congruence|]. intros _. simpl.
  eexists; split; [reflexivity|].
  destruct (fold_max_ge l (zIndex p)) as [H1 H2]. split.
  - intros q [<-|Hin]; [exact H1 | now apply H2].
  - destruct (fold_max_attained l (zIndex p)) as [E|(q & Hin & E)].
    + exists p. split; [now left | now rewrite E].
    + exists q. split; [now right | exact E].
Qed.

Lemma forallb_lookup (f : Piece num -> bool) l :
  forallb f l = true <-> forall i p, l !! i = Some p -> f p = true.
Proof.
  rewrite forallb_forall. split.
  - intros Hall i p Hi. apply Hall, list_elem_of_In.
    apply list_elem_of_lookup; eauto.
  - intros Hall p Hin. apply list_elem_of_In, list_elem_of_lookup in Hin as [i Hi].
    eauto.
Qed.

End Lists.

(** ** Ordered numbers *)

Lemma SFcompare_antisym (a b : SpecFloat.spec_float) (c : comparison) :
  SpecFloat.SFcompare a b = Some c ->
  SpecFloat.SFcompare b a = Some (CompOpp c).
Proof.
  destruct a as [sa|sa| |sa ma ea], b as [sb|sb| |sb mb eb]; simpl;
    try discriminate;
    try (destruct sa; intros [= <-]; reflexivity);
    try (destruct sb; intros [= <-]; reflexivity);
    try (destruct sa, sb; intros [= <-]; reflexivity).
  intros [= <-]. f_equal.
  change PosDef.Pos.compare_cont with Pos.compare_cont.
  rewrite (Z.compare_antisym ea eb).
  destruct sa, sb; try reflexivity;
    destruct (ea ?= eb)%Z; simpl; try reflexivity;
    rewrite ?CompOpp_involutive, ?Pos.compare_cont_antisym; reflexivity.
Qed.

#[export] Instance float_NumberOrder : NumberOrder float.
Proof.
  intros a b. simpl. rewrite FloatAxioms.leb_spec, FloatAxioms.ltb_spec.
  unfold SpecFloat.SFleb, SpecFloat.SFltb.
  destruct (SpecFloat.SFcompare (Prim2SF b) (Prim2SF a)) as [c|] eqn:E.
  - rewrite (SFcompare_antisym _ _ _ E). now destruct c.
  - discriminate.
Qed.

(** ** Releasing a piece *)

Section Release.
Context {num : Type} `{!Number num} `{!Sqrt num}.
Implicit Types (s : Board num) (p q : Piece num).

Lemma handleEnd_idle s now rnd :
  activePieceIndex s = None -> handleEnd now rnd s = Some s.
Proof. unfold handleEnd. now intros ->. Qed.

Lemma handleEnd_active s i p now rnd :
  activePieceIndex s = Some i -> pieces s !! i = Some p ->
  handleEnd now rnd s
  = Some (released (if withinTolerance (pieceSize s) p
                    then lockPiece i p now rnd s else s)).
Proof. unfold handleEnd. intros -> Hp. simpl. now rewrite Hp. Qed.

(** C1.  A release with the dragged piece closer to its target than a
    quarter of the piece width snaps the piece onto the target, locks it,
    gives it [zIndex] 0 and appends exactly one effect, placed at the
    target, to the effect list. *)
Theorem handleEnd_snaps s i p (now : Z) (rnd : nat -> num) :
  activePieceIndex s = Some i ->
  pieces s !! i = Some p ->
  (dist p <? w (pieceSize s) * lit 25 100)%num = true ->
  exists s' q e,
    handleEnd now rnd s = Some s'
    /\ pieces s' !! i = Some q
    /\ currentX q = targetX p /\ currentY q = targetY p
    /\ targetX q = targetX p /\ targetY q = targetY p
    /\ isLocked q = true /\ zIndex q = 0%Z
    /\ effects s' = effects s ++ [e]
    /\ e_x e = targetX p /\ e_y e = targetY p.
Proof.
  intros Hact Hp Hnear.
  rewrite (handleEnd_active s i p now rnd Hact Hp).
  unfold withinTolerance. rewrite Hnear.
  exists (released (lockPiece i p now rnd s)), (lockedAt p p),
         (newEffect (pieceSize s) p now rnd).
  split; [reflexivity|]. split.
  - simpl. apply list_lookup_insert_eq. eapply lookup_lt_Some, Hp.
  - repeat split.
Qed.

(** C2.  A release with the dragged piece at a distance of at least a
    quarter of the piece width from its target leaves the list of pieces
    as it was, so the piece stays unlocked where it was released, and
    leaves the effect list as it was. *)
Theorem handleEnd_misses `{!NumberOrder num} s i p (now : Z)
    (rnd : nat -> num) :
  activePieceIndex s = Some i ->
  pieces s !! i = Some p ->
  isLocked p = false ->
  (w (pieceSize s) * lit 25 100 <=? dist p)%num = true ->
  exists s',
    handleEnd now rnd s = Some s'
    /\ pieces s' = pieces s
    /\ (exists q, pieces s' !! i = Some q /\ isLocked q = false
                  /\ currentX q = currentX p /\ currentY q = currentY p)
    /\ effects s' = effects s
    /\ solvedTimers s' = solvedTimers s.
Proof.
  intros Hact Hp Hfree Hfar.
  rewrite (handleEnd_active s i p now rnd Hact Hp).
  unfold withinTolerance. rewrite (num_le_not_lt _ _ Hfar).
  exists (released s). split; [reflexivity|]. simpl.
  repeat split. now exists p.
Qed.

End Release.

(** C1 on the demo board: piece 8 released on its target. *)
Lemma handleEnd_snaps_witness :
  exists s' q e,
    handleEnd 1000 Demo.rndHalf Demo.dragging8 = Some s'
    /\ pieces s' !! 8 = Some q
    /\ currentX q = 627.5%float /\ currentY q = 385%float
    /\ targetX q = 627.5%float /\ targetY q = 385%float
    /\ isLocked q = true /\ zIndex q = 0%Z
    /\ effects s' = effects Demo.dragging8 ++ [e]
    /\ e_x e = 627.5%float /\ e_y e = 385%float.
Proof.
  apply (handleEnd_snaps Demo.dragging8 8
           (mkPiece 8 2 2 627.5%float 385%float 627.5%float 385%float false 9)
           1000 Demo.rndHalf); reflexivity.
Defined.

(** C2 on the demo board: piece 8 released at (499, 299), far from its
    target (627.5, 385). *)
Lemma handleEnd_misses_witness :
  exists s',
    handleEnd 1000 Demo.rndHalf Demo.dropped8 = Some s'
    /\ pieces s' = pieces Demo.dropped8
    /\ (exists q, pieces s' !! 8 = Some q /\ isLocked q = false
                  /\ currentX q = 499%float /\ currentY q = 299%float)
    /\ effects s' = effects Demo.dropped8
    /\ solvedTimers s' = solvedTimers Demo.dropped8.
Proof.
  apply (handleEnd_misses Demo.dropped8 8
           (mkPiece 8 2 2 499%float 299%float 627.5%float 385%float false 9)
           1000 Demo.rndHalf); reflexivity.
Defined.

(** ** Well-formed boards and the pointer handlers *)

Section Handlers.
Context {num : Type} `{!Number num} `{!Sqrt num}.
Implicit Types (s : Board num) (p q : Piece num) (l : list (Piece num)).

Lemma ids_lookup l i p :
  List.map id l = seq 0 (length l) -> l !! i = Some p -> id p = i.
Proof.
  intros Hids Hp.
  assert (Hi : List.map id l !! i = Some (id p))
    by (change (List.map id l) with (id <$> l); now rewrite list_lookup_fmap, Hp).
  rewrite Hids in Hi. apply lookup_seq in Hi. lia.
Qed.

Lemma ids_insert l i p q :
  List.map id l = seq 0 (length l) -> l !! i = Some p -> id q = id p ->
  List.map id (<[i := q]> l) = seq 0 (length (<[i := q]> l)).
Proof.
  intros Hids Hp Hq. rewrite length_insert, <- Hids.
  change (id <$> <[i := q]> l = id <$> l).
  rewrite list_fmap_insert, Hq. apply list_insert_id.
  now rewrite list_lookup_fmap, Hp.
Qed.

Lemma in_lookup l q : In q l -> exists j, l !! j = Some q.
Proof. intros Hin. now apply list_elem_of_In, list_elem_of_lookup in Hin. Qed.

Lemma lookup_in l j q : l !! j = Some q -> In q l.
Proof. intros Hj. apply list_elem_of_In, list_elem_of_lookup. eauto. Qed.

Lemma hit_unlocked ps px py p : hit ps px py p = true -> isLocked p = false.
Proof.
  unfold hit. rewrite !andb_true_iff, negb_true_iff. tauto.
Qed.

(** What [handleStart] computes on a board whose pieces carry their index
    as id: nothing without a hit; otherwise the hit of greatest [zIndex] is
    raised above the maximum and becomes the dragged piece. *)
Lemma handleStart_cases s cv cx cy :
  List.map id (pieces s) = seq 0 (length (pieces s)) ->
  let px := toCanvasX cv cx in
  let py := toCanvasY cv cy in
  ((forall q, In q (pieces s) -> hit (pieceSize s) px py q = false)
   /\ handleStart (Some cv) cx cy s = Some s)
  \/ exists i p m,
       pieces s !! i = Some p
       /\ hit (pieceSize s) px py p = true
       /\ (forall q, In q (pieces s) -> hit (pieceSize s) px py q = true ->
                     (zIndex q <= zIndex p)%Z)
       /\ maxZIndex (pieces s) = Some m
       /\ (forall q, In q (pieces s) -> (zIndex q <= m)%Z)
       /\ (exists q, In q (pieces s) /\ zIndex q = m)
       /\ handleStart (Some cv) cx cy s
          = Some {| pieces := <[i := withZIndex p (m + 1)]> (pieces s);
                    imgObj := imgObj s;
                    activePieceIndex := Some i;
                    dragOffset := mkOffset (px - currentX p)%num
                                           (py - currentY p)%num;
                    boardSize := boardSize s;
                    pieceSize := pieceSize s;
                    effects := effects s;
                    solvedTimers := solvedTimers s;
                    solvedCalls := solvedCalls s;
                    moveCalls := moveCalls s |}.
Proof.
  intros Hids px py. unfold handleStart. fold px py.
  destruct (List.find (hit (pieceSize s) px py) (sortDesc (pieces s)))
    as [q|] eqn:Hfind.
  - right.
    destruct (find_sortDesc_top _ _ _ Hfind) as (Hin & Hq & Htop).
    destruct (findIndex_exists (fun p => id p =? id q) (pieces s) q Hin
                (Nat.eqb_refl _)) as [i Hi].
    destruct (findIndex_Some _ _ _ Hi) as (pr & Hpr & Hid).
    apply Nat.eqb_eq in Hid.
    destruct (in_lookup _ _ Hin) as [j Hj].
    pose proof (ids_lookup _ _ _ Hids Hpr) as E1.
    pose proof (ids_lookup _ _ _ Hids Hj) as E2.
    assert (pr = q) by (assert (i = j) by lia; subst j; congruence). subst pr.
    destruct (maxZIndex_spec (pieces s)) as (m & Hm & Hub & Hatt).
    { intros E. rewrite E in Hin. destruct Hin. }
    exists i, q, m. rewrite Hi. simpl. rewrite Hpr. simpl. rewrite Hm. simpl.
    repeat split; auto.
  - left. split; [|reflexivity].
    intros q Hin. rewrite find_none_iff in Hfind. apply Hfind.
    eapply Permutation_in; [symmetry; apply sortDesc_perm | exact Hin].
Qed.

Lemma wf_active s i :
  wf s -> activePieceIndex s = Some i ->
  exists p, pieces s !! i = Some p /\ isLocked p = false.
Proof.
  intros [_ Hact] E. rewrite E in Hact.
  destruct (pieces s !! i) as [p|]; [|discriminate].
  exists p. split; [reflexivity|]. now injection Hact.
Qed.

Lemma handleMove_active s cv cx cy i p :
  activePieceIndex s = Some i -> pieces s !! i = Some p ->
  handleMove (Some cv) cx cy s
  = Some (withPieces s
            (<[i := withCurrent p
                      (clamp (canvas_width cv - w (pieceSize s))
                         (toCanvasX cv cx - x (dragOffset s)))%num
                      (clamp (canvas_height cv - h (pieceSize s))
                         (toCanvasY cv cy - y (dragOffset s)))%num]>
               (pieces s))).
Proof. unfold handleMove. intros -> Hp. now rewrite Hp. Qed.

Lemma handleMove_idle s cv cx cy :
  activePieceIndex s = None -> handleMove cv cx cy s = Some s.
Proof. unfold handleMove. now intros ->. Qed.

Lemma frozen_refl s : frozen s s.
Proof. now intros i p. Qed.

Lemma frozen_trans s1 s2 s3 : frozen s1 s2 -> frozen s2 s3 -> frozen s1 s3.
Proof. intros H12 H23 i p Hp Hl. apply H23; [now apply H12 | exact Hl]. Qed.

(** Overwriting an unlocked piece keeps the locked ones. *)
Lemma frozen_insert s s' i p q :
  pieces s' = <[i := q]> (pieces s) ->
  pieces s !! i = Some p -> isLocked p = false -> frozen s s'.
Proof.
  intros E Hp Hfree j r Hr Hl. rewrite E.
  destruct (decide (i = j)) as [->|Hne]; [congruence|].
  now rewrite list_lookup_insert_ne.
Qed.

Lemma wf_insert s s' i p q :
  pieces s' = <[i := q]> (pieces s) ->
  wf s -> pieces s !! i = Some p -> id q = id p ->
  match activePieceIndex s' with
  | Some j => j = i /\ isLocked q = false
  | None => True
  end ->
  wf s'.
Proof.
  intros E [Hids _] Hp Hid Hact. split.
  - rewrite E. eapply ids_insert; eauto.
  - destruct (activePieceIndex s') as [j|]; [|exact I].
    destruct Hact as [-> Hq]. rewrite E, list_lookup_insert_eq; [now rewrite <- Hq|].
    eapply lookup_lt_Some, Hp.
Qed.

Lemma handleStart_ok s cv cx cy :
  wf s ->
  exists s', handleStart (Some cv) cx cy s = Some s' /\ wf s' /\ frozen s s'.
Proof.
  intros Hwf.
  destruct (handleStart_cases s cv cx cy (proj1 Hwf))
    as [[_ ->]|(i & p & m & Hp & Hhit & _ & _ & _ & _ & ->)].
  - exists s. auto using frozen_refl.
  - apply hit_unlocked in Hhit. eexists; split; [reflexivity|]. split.
    + eapply wf_insert; [reflexivity | exact Hwf | exact Hp | reflexivity |].
      simpl. auto.
    + eapply frozen_insert; [reflexivity | exact Hp | exact Hhit].
Qed.

Lemma handleMove_ok s cv cx cy :
  wf s ->
  exists s', handleMove (Some cv) cx cy s = Some s' /\ wf s' /\ frozen s s'.
Proof.
  intros Hwf. destruct (activePieceIndex s) as [i|] eqn:Hact.
  - destruct (wf_active s i Hwf Hact) as (p & Hp & Hfree).
    rewrite (handleMove_active s cv cx cy i p Hact Hp).
    eexists; split; [reflexivity|]. split.
    + eapply wf_insert; [reflexivity | exact Hwf | exact Hp | reflexivity |].
      simpl. rewrite Hact. auto.
    + eapply frozen_insert; [reflexivity | exact Hp | exact Hfree].
  - rewrite handleMove_idle by exact Hact. exists s. auto using frozen_refl.
Qed.

Lemma handleEnd_ok s now rnd :
  wf s ->
  exists s', handleEnd now rnd s = Some s' /\ wf s' /\ frozen s s'.
Proof.
  intros Hwf. destruct (activePieceIndex s) as [i|] eqn:Hact.
  - destruct (wf_active s i Hwf Hact) as (p & Hp & Hfree).
    rewrite (handleEnd_active s i p now rnd Hact Hp).
    eexists; split; [reflexivity|].
    destruct (withinTolerance (pieceSize s) p).
    + split.
      * eapply wf_insert;
          [reflexivity | exact Hwf | exact Hp | reflexivity | exact I].
      * eapply frozen_insert; [reflexivity | exact Hp | exact Hfree].
    + split; [|now intros j r]. split; [apply Hwf | exact I].
  - rewrite handleEnd_idle by exact Hact. exists s. auto using frozen_refl.
Qed.

Lemma step_input_ok d e s :
  isInput e = true -> wf s ->
  exists s', step d e s = Some s' /\ wf s' /\ frozen s s'.
Proof.
  destruct e as [|cv ? ?|cv ? ?| | | |]; simpl; try discriminate; intros _ Hwf.
  - now apply handleStart_ok.
  - now apply handleMove_ok.
  - now apply handleEnd_ok.
Qed.

(** C4.  On a well-formed board every sequence of pointer inputs (down,
    move, release) runs to completion, and a piece that is locked before
    is found unchanged afterwards - same [isLocked], position and
    [zIndex]. *)
Theorem locked_pieces_frozen d (es : list Event) s :
  wf s ->
  forallb isInput es = true ->
  exists s',
    run d es s = Some s'
    /\ wf s'
    /\ forall i p, pieces s !! i = Some p -> isLocked p = true ->
         exists p', pieces s' !! i = Some p'
                    /\ isLocked p' = true
                    /\ currentX p' = currentX p /\ currentY p' = currentY p
                    /\ zIndex p' = zIndex p.
Proof.
  intros Hwf Hes.
  assert (Hrun : exists s', run d es s = Some s' /\ wf s' /\ frozen s s').
  { revert s Hwf. induction es as [|e es IH]; intros s Hwf; simpl.
    - exists s. auto using frozen_refl.
    - simpl in Hes. apply andb_true_iff in Hes as [He Hes].
      destruct (step_input_ok d e s He Hwf) as (s1 & -> & Hwf1 & Hf1). simpl.
      destruct (IH Hes s1 Hwf1) as (s' & Hr & Hwf' & Hf').
      exists s'. eauto using frozen_trans. }
  destruct Hrun as (s' & Hr & Hwf' & Hfr). exists s'.
  split; [exact Hr|]. split; [exact Hwf'|].
  intros i p Hp Hl. exists p. rewrite (Hfr i p Hp Hl). auto.
Qed.

End Handlers.

(** On the demo board with piece 8 locked, pointer inputs aimed at it
    leave it as it is. *)
Lemma locked_pieces_frozen_witness :
  exists s',
    run EASY Demo.pokeLocked Demo.placed8 = Some s'
    /\ wf s'
    /\ forall i p, pieces Demo.placed8 !! i = Some p -> isLocked p = true ->
         exists p', pieces s' !! i = Some p'
                    /\ isLocked p' = true
                    /\ currentX p' = currentX p /\ currentY p' = currentY p
                    /\ zIndex p' = zIndex p.
Proof.
  apply (locked_pieces_frozen EASY Demo.pokeLocked Demo.placed8);
    [split; [reflexivity | exact I] | reflexivity].
Defined.

(** ** Initialisation: the grid of pieces *)

Section Grid.
Context {num : Type} `{!Number num}.
Implicit Types (p q : Piece num).

(** The nested loops as one pass over the ids [0 .. n*n - 1]. *)
Lemma grid_loop {A : Type} (g : nat -> nat -> A) (n m a : nat) :
  flat_map (fun r => List.map (g r) (seq 0 n)) (seq a m)
  = List.map (fun k => g (a + k / n) (k mod n)) (seq 0 (m * n)).
Proof.
  destruct (Nat.eq_dec n 0) as [->|Hn].
  { rewrite Nat.mul_0_r. simpl. induction (seq a m); simpl; auto. }
  revert a. induction m as [|m IH]; intros a; [reflexivity|].
  change (seq a (S m)) with (a :: seq (S a) m).
  change (S m * n) with (n + m * n).
  rewrite seq_app, List.map_app. cbn [flat_map]. rewrite IH. f_equal.
  - apply map_ext_in. intros k Hk. apply in_seq in Hk.
    rewrite Nat.div_small, Nat.mod_small by lia. f_equal. lia.
  - replace (seq (0 + n) (m * n)) with (List.map (Nat.add n) (seq 0 (m * n)))
      by (change (List.map ?f ?l) with (f <$> l); rewrite fmap_add_seq;
          f_equal; lia).
    rewrite List.map_map. apply map_ext. intros k.
    replace (n + k) with (k + 1 * n) by lia.
    rewrite Nat.div_add, Nat.Div0.mod_add by lia. f_equal. lia.
Qed.

Lemma newPieces_flat n cont b ps rnd :
  newPieces n cont b ps rnd
  = List.map (fun k => newPiece n cont b ps rnd (k / n) (k mod n))
      (seq 0 (n * n)).
Proof. unfold newPieces. now rewrite grid_loop. Qed.

Lemma newPieces_length n cont b ps rnd :
  length (newPieces n cont b ps rnd) = n * n.
Proof. now rewrite newPieces_flat, length_map, length_seq. Qed.

Lemma newPieces_lookup n cont b ps rnd k :
  k < n * n ->
  newPieces n cont b ps rnd !! k
  = Some (newPiece n cont b ps rnd (k / n) (k mod n)).
Proof.
  intros Hk. rewrite newPieces_flat.
  change (List.map ?f ?l) with (f <$> l).
  rewrite list_lookup_fmap, lookup_seq_lt by exact Hk. reflexivity.
Qed.


Lemma newPieces_in n cont b ps rnd p :
  In p (newPieces n cont b ps rnd) ->
  exists r c, r < n /\ c < n /\ p = newPiece n cont b ps rnd r c.
Proof.
  rewrite newPieces_flat, in_map_iff. intros (k & <- & Hk).
  apply in_seq in Hk. assert (n <> 0) by nia.
  exists (k / n), (k mod n). split; [|split; [|reflexivity]].
  - apply Nat.Div0.div_lt_upper_bound. lia.
  - now apply Nat.mod_upper_bound.
Qed.

Lemma newPieces_ids n cont b ps rnd :
  List.map id (newPieces n cont b ps rnd)
  = seq 0 (length (newPieces n cont b ps rnd)).
Proof.
  rewrite newPieces_length, newPieces_flat, List.map_map.
  rewrite <- (List.map_id (seq 0 (n * n))) at 2.
  apply map_ext_in. intros k Hk. apply in_seq in Hk. simpl.
  assert (n <> 0) by nia. rewrite (Nat.div_mod_eq k n) at 3. lia.
Qed.

Lemma newPieces_unlocked n cont b ps rnd p :
  In p (newPieces n cont b ps rnd) -> isLocked p = false.
Proof. intros Hin. now apply newPieces_in in Hin as (r & c & _ & _ & ->). Qed.


Lemma grid_pos d : 3 <= grid d.
Proof. destruct d; simpl; lia. Qed.

End Grid.

(** The literals of the source in binary64. *)
Example lit_binary64 :
  (lit 85 100 : float) = 0x1.b333333333333p-1%float
  /\ (lit 25 100 : float) = 0.25%float
  /\ (lit 15 1000 : float) = 0x1.eb851eb851eb8p-7%float
  /\ (lit 5 10 : float) = 0.5%float
  /\ (lit 15 10 : float) = 1.5%float.
Proof. repeat split; reflexivity. Qed.

(** The same layout in binary64.  On the demo board the numbers are exact:
    the board is 765 x 510 at (117.5, 45), with ratio 1.5.  In general the
    quotients are rounded, and bw / bh can differ from the rounded image
    ratio in the last place, as for a 1200 x 801 image. *)
Example layout_binary64 :
  boardSize Demo.start = mkSize 765%float 510%float
  /\ pieceSize Demo.start = mkSize 255%float 170%float
  /\ boardX Demo.cont (boardSize Demo.start) = 117.5%float
  /\ boardY Demo.cont (boardSize Demo.start) = 45%float
  /\ (765 / 510 =? 1200 / 800)%float = true
  /\ (let b := boardDims (mkImage 1200%float 801%float) Demo.cont in
      (w b / h b =? 1200 / 801)%float = false
      /\ (PrimFloat.abs (w b / h b - 1200 / 801) <? 0x1p-50)%float = true).
Proof. repeat split; reflexivity. Qed.


(** ** Picking a piece *)

Section Pick.
Context {num : Type} `{!Number num}.
Implicit Types (s : Board num) (p q : Piece num).

(** The rectangle of [hit] is closed on all four sides. *)
Lemma hit_iff (ps : Size num) (px py : num) p :
  hit ps px py p = true
  <-> isLocked p = false
      /\ (currentX p <=? px)%num = true
      /\ (px <=? currentX p + w ps)%num = true
      /\ (currentY p <=? py)%num = true
      /\ (py <=? currentY p + h ps)%num = true.
Proof. unfold hit. rewrite !andb_true_iff, negb_true_iff. tauto. Qed.

(** C5, as the code has it.  On pointer-down the pieces are scanned in
    descending [zIndex] order and the first unlocked piece whose closed
    rectangle [currentX, currentX + w] x [currentY, currentY + h] holds
    the point is picked: it has the greatest [zIndex] among such pieces,
    its [zIndex] becomes the maximum over all pieces plus one, it becomes
    the dragged piece and the offset of the pointer from its origin is
    stored.  When no unlocked piece holds the point the board is
    unchanged. *)
Theorem handleStart_picks_topmost s (cv : Canvas num) (cx cy : num) :
  List.map id (pieces s) = seq 0 (length (pieces s)) ->
  let px := toCanvasX cv cx in
  let py := toCanvasY cv cy in
  exists s',
    handleStart (Some cv) cx cy s = Some s'
    /\ (((forall q, In q (pieces s) -> hit (pieceSize s) px py q = false)
         /\ s' = s)
        \/ exists i p m,
             pieces s !! i = Some p
             /\ hit (pieceSize s) px py p = true
             /\ (forall q, In q (pieces s) ->
                   hit (pieceSize s) px py q = true ->
                   (zIndex q <= zIndex p)%Z)
             /\ (forall q, In q (pieces s) -> (zIndex q <= m)%Z)
             /\ (exists q, In q (pieces s) /\ zIndex q = m)
             /\ pieces s' = <[i := withZIndex p (m + 1)]> (pieces s)
             /\ activePieceIndex s' = Some i
             /\ dragOffset s' = mkOffset (px - currentX p)%num
                                         (py - currentY p)%num
             /\ effects s' = effects s).
Proof.
  intros Hids px py.
  destruct (handleStart_cases s cv cx cy Hids)
    as [[Hmiss ->]|(i & p & m & Hp & Hhit & Htop & _ & Hub & Hatt & ->)].
  - exists s. split; [reflexivity|]. left. now split.
  - eexists. split; [reflexivity|]. right. exists i, p, m. simpl.
    repeat split; auto.
Qed.

End Pick.

(** On the demo board, a pointer-down at (255, 10), on the right edge of
    the stack of pieces at the origin, picks piece 8 and raises it to
    [zIndex] 9. *)
Lemma handleStart_picks_topmost_witness :
  exists s',
    handleStart (Some Demo.cv) 255%float 10%float Demo.start = Some s'
    /\ (((forall q, In q (pieces Demo.start) ->
            hit (pieceSize Demo.start) (toCanvasX Demo.cv 255%float)
              (toCanvasY Demo.cv 10%float) q = false)
         /\ s' = Demo.start)
        \/ exists i p m,
             pieces Demo.start !! i = Some p
             /\ hit (pieceSize Demo.start) (toCanvasX Demo.cv 255%float)
                  (toCanvasY Demo.cv 10%float) p = true
             /\ (forall q, In q (pieces Demo.start) ->
                   hit (pieceSize Demo.start) (toCanvasX Demo.cv 255%float)
                     (toCanvasY Demo.cv 10%float) q = true ->
                   (zIndex q <= zIndex p)%Z)
             /\ (forall q, In q (pieces Demo.start) -> (zIndex q <= m)%Z)
             /\ (exists q, In q (pieces Demo.start) /\ zIndex q = m)
             /\ pieces s' = <[i := withZIndex p (m + 1)]> (pieces Demo.start)
             /\ activePieceIndex s' = Some i
             /\ dragOffset s'
                = mkOffset (toCanvasX Demo.cv 255%float - currentX p)%num
                           (toCanvasY Demo.cv 10%float - currentY p)%num
             /\ effects s' = effects Demo.start).
Proof.
  apply (handleStart_picks_topmost Demo.start Demo.cv 255%float 10%float).
  reflexivity.
Defined.

(** C5 as stated fails on the right edge.  At (255, 10) no piece of the
    demo board holds the point in its half-open rectangle (all nine lie at
    the origin and are 255 wide), and yet the pointer-down picks piece 8
    and raises its [zIndex] from 8 to 9. *)
Lemma handleStart_right_edge_is_hit :
  forallb (fun p => negb (hitHalfOpen (pieceSize Demo.start)
                            (toCanvasX Demo.cv 255%float)
                            (toCanvasY Demo.cv 10%float) p))
    (pieces Demo.start) = true
  /\ (zIndex <$> pieces Demo.start !! 8) = Some 8%Z
  /\ (activePieceIndex
        <$> handleStart (Some Demo.cv) 255%float 10%float Demo.start)
     = Some (Some 8)
  /\ ((fun s' => zIndex <$> pieces s' !! 8)
        <$> handleStart (Some Demo.cv) 255%float 10%float Demo.start)
     = Some (Some 9%Z).
Proof. repeat split; reflexivity. Qed.

(** ** Effects: ageing, expiry *)

Section Effects.
Context {num : Type} `{!Number num} `{!Sqrt num}.
Implicit Types (s : Board num) (e f : VisualEffect num).

Lemma handleStart_effects s cv cx cy s' :
  handleStart cv cx cy s = Some s' -> effects s' = effects s.
Proof.
  unfold handleStart. destruct cv as [cv|]; [|now intros [= <-]].
  destruct (List.find _ _) as [q|]; [|now intros [= <-]].
  destruct (findIndex _ _) as [i|]; simpl; [|discriminate].
  destruct (pieces s !! i) as [pr|]; simpl; [|discriminate].
  destruct (maxZIndex _) as [m|]; simpl; [|discriminate].
  now intros [= <-].
Qed.

Lemma handleMove_effects s cv cx cy s' :
  handleMove cv cx cy s = Some s' -> effects s' = effects s.
Proof.
  unfold handleMove. destruct (activePieceIndex s) as [i|]; [|now intros [= <-]].
  destruct cv as [cv|]; [|now intros [= <-]].
  destruct (pieces s !! i) as [p|]; simpl; [|discriminate].
  now intros [= <-].
Qed.

Lemma handleEnd_effects s now rnd s' :
  handleEnd now rnd s = Some s' ->
  effects s' = effects s
  \/ exists f, effects s' = effects s ++ [f] /\ startTime f = now.
Proof.
  unfold handleEnd. destruct (activePieceIndex s) as [i|];
    [|intros [= <-]; now left].
  destruct (pieces s !! i) as [p|]; simpl; [|discriminate].
  destruct (withinTolerance _ _); intros [= <-]; [right|now left].
  eexists. split; reflexivity.
Qed.

Lemma draw_effects (cv : Canvas num) (img : Image num) now s :
  imgObj s = Some img ->
  effects (draw (Some cv) now s)
  = List.map ageEffect (List.filter (alive now) (effects s)).
Proof. unfold draw. now intros ->. Qed.

(** After a repaint every effect left is younger than 1200 ms. *)
Lemma draw_young (cv : Canvas num) (img : Image num) now s f :
  imgObj s = Some img -> In f (effects (draw (Some cv) now s)) ->
  (now - startTime f < 1200)%Z.
Proof.
  intros Himg. rewrite (draw_effects cv img now s Himg), in_map_iff.
  intros (f0 & <- & Hin). apply filter_In in Hin as [_ Hal].
  unfold alive in Hal. simpl. lia.
Qed.

(** No event brings an old effect in: what is in the list afterwards was
    in the list before, with the same start time, or is the effect of this
    release, started now. *)
Lemma step_effects d (ev : Event) s s' f :
  step d ev s = Some s' -> In f (effects s') ->
  (exists f0, In f0 (effects s) /\ startTime f0 = startTime f)
  \/ exists now rnd, ev = PointerUp now rnd /\ startTime f = now.
Proof.
  destruct ev as [img|cv cx cy|cv cx cy|now rnd|cv now|cont rnd|now]; cbn [step].
  - intros [= <-] Hin. left. eauto.
  - intros Hs Hin. rewrite (handleStart_effects _ _ _ _ _ Hs) in Hin. eauto.
  - intros Hs Hin. rewrite (handleMove_effects _ _ _ _ _ Hs) in Hin. eauto.
  - intros Hs Hin.
    destruct (handleEnd_effects _ _ _ _ Hs) as [E|(f1 & E & Ht)];
      rewrite E in Hin; [eauto|].
    apply in_app_or in Hin as [Hin|[<-|[]]]; eauto.
  - intros [= <-]. unfold draw. destruct (imgObj s); [|eauto].
    simpl. rewrite in_map_iff. intros (f0 & <- & Hin).
    apply filter_In in Hin as [Hin _]. left. eauto.
  - intros [= <-]. unfold initGame. destruct (imgObj s); [|eauto].
    simpl. tauto.
  - intros [= <-] Hin. left. eauto.
Qed.

Lemma run_young d (t0 : Z) (es : list Event) s s' :
  forallb (notBefore t0) es = true ->
  (forall f, In f (effects s) -> (t0 - startTime f < 1200)%Z) ->
  run d es s = Some s' ->
  forall f, In f (effects s') -> (t0 - startTime f < 1200)%Z.
Proof.
  revert s. induction es as [|ev es IH]; simpl; intros s Hes Hs.
  - now intros [= <-].
  - apply andb_true_iff in Hes as [Hev Hes].
    destruct (step d ev s) as [s1|] eqn:Hstep; simpl; [|discriminate].
    apply IH; [exact Hes|]. intros f Hin.
    destruct (step_effects d ev s s1 f Hstep Hin)
      as [(f0 & Hin0 & <-)|(now & rnd & -> & Ht)]; [now apply Hs|].
    simpl in Hev. lia.
Qed.

End Effects.

(** ** The boards a mounted component can reach *)

Section Reach.
Context {num : Type} `{!Number num} `{!Sqrt num}.
Implicit Types (s : Board num) (p q : Piece num).

(** The pointer handlers neither load an image nor change the number of
    pieces. *)
Lemma handleStart_keeps s cv cx cy s' :
  handleStart cv cx cy s = Some s' ->
  imgObj s' = imgObj s /\ length (pieces s') = length (pieces s).
Proof.
  unfold handleStart. destruct cv as [cv|]; [|now intros [= <-]].
  destruct (List.find _ _) as [q|]; [|now intros [= <-]].
  destruct (findIndex _ _) as [i|]; simpl; [|discriminate].
  destruct (pieces s !! i) as [pr|]; simpl; [|discriminate].
  destruct (maxZIndex _) as [m|]; simpl; [|discriminate].
  intros [= <-]. simpl. now rewrite length_insert.
Qed.

Lemma handleMove_keeps s cv cx cy s' :
  handleMove cv cx cy s = Some s' ->
  imgObj s' = imgObj s /\ length (pieces s') = length (pieces s).
Proof.
  unfold handleMove. destruct (activePieceIndex s) as [i|]; [|now intros [= <-]].
  destruct cv as [cv|]; [|now intros [= <-]].
  destruct (pieces s !! i) as [p|]; simpl; [|discriminate].
  intros [= <-]. simpl. now rewrite length_insert.
Qed.

Lemma handleEnd_keeps s now rnd s' :
  handleEnd now rnd s = Some s' ->
  imgObj s' = imgObj s /\ length (pieces s') = length (pieces s)
  /\ (pieces s = [] -> effects s' = effects s).
Proof.
  unfold handleEnd. destruct (activePieceIndex s) as [i|];
    [|now intros [= <-]].
  destruct (pieces s !! i) as [p|] eqn:Hp; simpl; [|discriminate].
  destruct (withinTolerance _ _); intros [= <-]; simpl.
  - rewrite length_insert. repeat split. intros E. now rewrite E in Hp.
  - repeat split.
Qed.

Lemma empty_pieces (l l' : list (Piece num)) :
  length l' = length l -> l = [] -> l' = [].
Proof. intros E ->. now destruct l'. Qed.

Lemma inv_keeps d s s' :
  inv d s -> wf s' ->
  imgObj s' = imgObj s -> length (pieces s') = length (pieces s) ->
  (pieces s = [] -> effects s' = effects s) ->
  inv d s'.
Proof.
  intros (_ & Hnone & Hlen) Hwf Himg Hl Heff. split; [exact Hwf|]. split.
  - rewrite Himg. intros E. destruct (Hnone E) as [Hp He].
    split; [eapply empty_pieces; eauto | now rewrite Heff].
  - destruct Hlen as [E|E]; [left; eapply empty_pieces; eauto|right; congruence].
Qed.

(** A rebuild of the board is well formed: a drag in progress now holds
    the new, unlocked piece of the same index. *)
Lemma initGame_wf d cont rnd s :
  inv d s -> wf (initGame d (Some cont) rnd s).
Proof.
  intros (Hwf & _ & Hlen). unfold initGame.
  destruct (imgObj s) as [img|]; [|exact Hwf]. split; simpl.
  - apply newPieces_ids.
  - destruct (activePieceIndex s) as [i|] eqn:Hact; [|exact I].
    destruct (wf_active s i Hwf Hact) as (p & Hp & _).
    apply lookup_lt_Some in Hp.
    destruct Hlen as [E|E]; [rewrite E in Hp; simpl in Hp; lia|].
    rewrite newPieces_lookup by lia. reflexivity.
Qed.

Lemma step_inv d (ev : Event) s :
  inv d s -> exists s', step d ev s = Some s' /\ inv d s'.
Proof.
  intros Hinv. pose proof Hinv as (Hwf & Hnone & Hlen).
  destruct ev as [img|cv cx cy|cv cx cy|now rnd|cv now|cont rnd|now]; cbn [step].
  - eexists; split; [reflexivity|]. split; [exact Hwf|]. split; [discriminate|exact Hlen].
  - destruct (handleStart_ok s cv cx cy Hwf) as (s' & Hs & Hwf' & _).
    exists s'. split; [exact Hs|].
    destruct (handleStart_keeps _ _ _ _ _ Hs) as [Hi Hl].
    apply (inv_keeps d s s'); auto. intros _.
    now apply (handleStart_effects s (Some cv) cx cy).
  - destruct (handleMove_ok s cv cx cy Hwf) as (s' & Hs & Hwf' & _).
    exists s'. split; [exact Hs|].
    destruct (handleMove_keeps _ _ _ _ _ Hs) as [Hi Hl].
    apply (inv_keeps d s s'); auto. intros _.
    now apply (handleMove_effects s (Some cv) cx cy).
  - destruct (handleEnd_ok s now rnd Hwf) as (s' & Hs & Hwf' & _).
    exists s'. split; [exact Hs|].
    destruct (handleEnd_keeps _ _ _ _ Hs) as (Hi & Hl & He).
    apply (inv_keeps d s s'); auto.
  - eexists; split; [reflexivity|]. unfold draw.
    destruct (imgObj s) as [img|] eqn:Himg; [|exact Hinv].
    split; [exact Hwf|]. simpl. split; [discriminate|exact Hlen].
  - eexists; split; [reflexivity|].
    split; [now apply initGame_wf|]. unfold initGame.
    destruct (imgObj s) as [img|] eqn:Himg; simpl.
    + split; [discriminate|]. right. apply newPieces_length.
    + rewrite Himg. split; [exact Hnone | exact Hlen].
  - eexists; split; [reflexivity|]. split; [exact Hwf|]. now split.
Qed.

Lemma mount_inv d : inv d mount.
Proof. repeat split; auto. Qed.

(** Every sequence of events on a mounted component runs to completion
    (no handler throws) and ends in a board of [inv]. *)
Lemma run_inv d (es : list Event) s :
  inv d s -> exists s', run d es s = Some s' /\ inv d s'.
Proof.
  revert s. induction es as [|ev es IH]; intros s Hinv; simpl.
  - now exists s.
  - destruct (step_inv d ev s Hinv) as (s1 & -> & Hinv1). simpl.
    now apply IH.
Qed.

(** C10.  In every board a mounted component can reach, a
    (re)initialisation leaves the effect list empty. *)
Theorem initGame_clears_effects d (es : list Event)
    (cont : Container num) (rnd : nat -> num) s :
  run d es mount = Some s ->
  effects (initGame d (Some cont) rnd s) = [].
Proof.
  intros Hrun.
  destruct (run_inv d es mount (mount_inv d)) as (s' & Hrun' & Hinv).
  assert (s' = s) by congruence. subst s'.
  destruct Hinv as (_ & Hnone & _). unfold initGame.
  destruct (imgObj s) as [img|]; [reflexivity|].
  now destruct (Hnone eq_refl).
Qed.

(** C9, as the code has it.  [initGame] does not look at the size of the
    display area: once the image has loaded it places all n * n pieces,
    unlocked, whatever the container, a container of zero width or
    height included. *)
Theorem initGame_ignores_area d (img : Image num) (cont : Container num)
    (rnd : nat -> num) s :
  let s' := initGame d (Some cont) rnd (setImgObj img s) in
  length (pieces s') = grid d * grid d
  /\ pieces s' <> []
  /\ (forall p, In p (pieces s') -> isLocked p = false)
  /\ effects s' = [].
Proof.
  simpl. split; [apply newPieces_length|]. split; [|split; [|reflexivity]].
  - intros E. apply (f_equal length) in E. rewrite newPieces_length in E.
    pose proof (grid_pos d). simpl in E. nia.
  - apply newPieces_unlocked.
Qed.

End Reach.

(** On the demo board, with the effect of piece 8 in the list, a rebuild
    empties the list. *)
Lemma initGame_clears_effects_witness :
  length (effects Demo.placed8) = 1
  /\ effects (initGame EASY (Some Demo.cont) Demo.rnd0 Demo.placed8) = [].
Proof.
  split; [reflexivity|].
  apply (initGame_clears_effects EASY
           (Loaded Demo.img :: Init Demo.cont Demo.rnd0 :: Demo.lock8)).
  vm_compute. reflexivity.
Defined.

(** C9 as stated fails.  With a display area 1000 wide and 0 high the
    quotient cw / ch is taken (it is +Infinity), and the nine pieces of
    the 3 x 3 board are placed, on a board of size 0 x 0; the same happens
    with an area 0 x 0, where cw / ch is NaN. *)
Lemma initGame_places_on_degenerate_area :
  (clientWidth Demo.flat / clientHeight Demo.flat)%float = infinity
  /\ (let s := initGame EASY (Some Demo.flat) Demo.rndHalf
                 (setImgObj Demo.img mount) in
      length (pieces s) = 9
      /\ boardSize s = mkSize 0%float 0%float
      /\ pieceSize s = mkSize 0%float 0%float)
  /\ PrimFloat.is_nan (clientWidth Demo.empty / clientHeight Demo.empty)%float
     = true
  /\ (let s := initGame EASY (Some Demo.empty) Demo.rndHalf
                 (setImgObj Demo.img mount) in
      length (pieces s) = 9
      /\ boardSize s = mkSize 0%float 0%float).
Proof. repeat split; reflexivity. Qed.

(** ** The solved notification *)

Section Solved.
Context {num : Type} `{!Number num} `{!Sqrt num}.
Implicit Types (s : Board num) (p q : Piece num).

Lemma unlocked_not_all s i p :
  pieces s !! i = Some p -> isLocked p = false -> allLocked s = false.
Proof.
  intros Hp Hfree. apply not_true_iff_false. intros Hall.
  unfold allLocked in Hall. rewrite forallb_lookup in Hall.
  rewrite (Hall i p Hp) in Hfree. discriminate.
Qed.

Lemma counted_unlocked k s s' i p :
  pieces s !! i = Some p -> isLocked p = false ->
  pieces s' !! i = Some p \/ (exists q, pieces s' !! i = Some q
                                        /\ isLocked q = false) ->
  scheduled s' = scheduled s ->
  counted k s -> counted k s'.
Proof.
  intros Hp Hfree Hq Hsch. unfold counted.
  rewrite (unlocked_not_all s i p Hp Hfree).
  assert (allLocked s' = false) as ->; [|congruence].
  destruct Hq as [Hq|(q & Hq & Hqf)]; eauto using unlocked_not_all.
Qed.

Lemma runTimers_scheduled now s : scheduled (runTimers now s) = scheduled s.
Proof.
  unfold scheduled. simpl.
  enough (E : length (solvedTimers s)
              = length (List.filter (fun t => (now <? t)%Z) (solvedTimers s))
                + length (List.filter (fun t => (t <=? now)%Z) (solvedTimers s)))
    by lia.
  induction (solvedTimers s) as [|t l IH]; simpl; [reflexivity|].
  destruct (now <? t)%Z eqn:E1, (t <=? now)%Z eqn:E2; simpl; lia.
Qed.

(** What a release does to the timers. *)
Lemma handleEnd_timers s now rnd s' :
  wf s -> handleEnd now rnd s = Some s' ->
  (solvedTimers s' = solvedTimers s ++ [(now + 800)%Z]
   /\ allLocked s = false /\ allLocked s' = true)
  \/ (solvedTimers s' = solvedTimers s /\ allLocked s' = allLocked s).
Proof.
  intros Hwf. destruct (activePieceIndex s) as [i|] eqn:Hact.
  - destruct (wf_active s i Hwf Hact) as (p & Hp & Hfree).
    rewrite (handleEnd_active s i p now rnd Hact Hp).
    destruct (withinTolerance _ _); intros [= <-]; [|now right].
    unfold allLocked at 2 4. simpl.
    destruct (forallb isLocked (<[i := lockedAt p p]> (pieces s))) eqn:E.
    + left. eauto using unlocked_not_all.
    + right. split; [reflexivity|]. symmetry. eauto using unlocked_not_all.
  - rewrite handleEnd_idle by exact Hact. intros [= <-]. now right.
Qed.

Lemma step_counted d (ev : Event) k s :
  inInstance ev = true -> wf s -> counted k s ->
  exists s', step d ev s = Some s' /\ wf s' /\ counted k s'.
Proof.
  intros Hev Hwf Hk.
  destruct ev as [img|cv cx cy|cv cx cy|now rnd|cv now|cont rnd|now];
    try discriminate; cbn [step].
  - destruct (handleStart_ok s cv cx cy Hwf) as (s' & Hs & Hwf' & _).
    exists s'. split; [exact Hs|]. split; [exact Hwf'|].
    destruct (handleStart_cases s cv cx cy (proj1 Hwf))
      as [[_ E]|(i & p & m & Hp & Hhit & _ & _ & _ & _ & E)];
      rewrite E in Hs; injection Hs as <-; [exact Hk|].
    apply hit_unlocked in Hhit.
    apply (counted_unlocked k s _ i p Hp Hhit); [|reflexivity|exact Hk].
    right. eexists. split;
      [simpl; apply list_lookup_insert_eq; eapply lookup_lt_Some, Hp
      | exact Hhit].
  - destruct (activePieceIndex s) as [i|] eqn:Hact.
    + destruct (wf_active s i Hwf Hact) as (p & Hp & Hfree).
      destruct (handleMove_ok s cv cx cy Hwf) as (s' & Hs & Hwf' & _).
      exists s'. split; [exact Hs|]. split; [exact Hwf'|].
      rewrite (handleMove_active s cv cx cy i p Hact Hp) in Hs.
      injection Hs as <-.
      apply (counted_unlocked k s _ i p Hp Hfree); [|reflexivity|exact Hk].
      right. eexists. split;
        [simpl; apply list_lookup_insert_eq; eapply lookup_lt_Some, Hp
        | exact Hfree].
    + rewrite handleMove_idle by exact Hact. now exists s.
  - destruct (handleEnd_ok s now rnd Hwf) as (s' & Hs & Hwf' & _).
    exists s'. split; [exact Hs|]. split; [exact Hwf'|].
    assert (Hcalls : solvedCalls s' = solvedCalls s
                     /\ (activePieceIndex s = None -> s' = s)
                     /\ (activePieceIndex s <> None ->
                         activePieceIndex s' = None)).
    { revert Hs. unfold handleEnd. destruct (activePieceIndex s) as [i|].
      - destruct (pieces s !! i) as [p|]; simpl; [|discriminate].
        destruct (withinTolerance _ _); intros [= <-]; simpl; now repeat split.
      - intros [= <-]. now repeat split. }
    destruct Hcalls as (Hc & Hidle & Hdrop).
    destruct (handleEnd_timers s now rnd s' Hwf Hs)
      as [(Ht & Hbefore & Hafter)|(Ht & Hsame)]; unfold counted in *.
    + rewrite Hbefore in Hk. rewrite Hafter. unfold scheduled in *.
      rewrite Ht, Hc, length_app. simpl. split; [lia|].
      apply Hdrop. intros Hnone. rewrite (Hidle Hnone) in Hafter. congruence.
    + rewrite Hsame. unfold scheduled in *. rewrite Ht, Hc.
      destruct (allLocked s); [|exact Hk]. destruct Hk as [Hk Hnone].
      now rewrite (Hidle Hnone).
  - eexists; split; [reflexivity|]. unfold draw.
    destruct (imgObj s); now split.
  - eexists; split; [reflexivity|]. split; [exact Hwf|].
    unfold counted. rewrite runTimers_scheduled. exact Hk.
Qed.

Lemma run_counted d (es : list Event) k s :
  forallb inInstance es = true -> wf s -> counted k s ->
  exists s', run d es s = Some s' /\ wf s' /\ counted k s'.
Proof.
  revert s. induction es as [|ev es IH]; intros s Hes Hwf Hk; simpl.
  - now exists s.
  - simpl in Hes. apply andb_true_iff in Hes as [Hev Hes].
    destruct (step_counted d ev k s Hev Hwf Hk) as (s1 & -> & Hwf1 & Hk1).
    simpl. now apply IH.
Qed.

(** C3, as the code has it.  A release starts the 800 ms timer of
    [onSolved] exactly when it locks the last unlocked piece, and at no
    other time; so during one puzzle instance (any sequence of pointer
    inputs, repaints and timer runs on a board that is not yet solved)
    exactly one timer is started if the instance ends solved and none
    otherwise.  A rebuild of the board keeps the pending timers, and a
    pending timer fires - [onSolved] is called - as soon as it is due,
    not before. *)
Theorem solved_timer_lifecycle :
  (forall s now rnd s',
      wf s -> handleEnd now rnd s = Some s' ->
      (solvedTimers s' = solvedTimers s ++ [(now + 800)%Z]
       /\ allLocked s = false /\ allLocked s' = true)
      \/ (solvedTimers s' = solvedTimers s /\ allLocked s' = allLocked s))
  /\ (forall d (es : list Event) s,
        wf s -> allLocked s = false ->
        forallb inInstance es = true ->
        exists s', run d es s = Some s'
                   /\ scheduled s'
                      = scheduled s + (if allLocked s' then 1 else 0))
  /\ (forall d cont rnd s,
        solvedTimers (initGame d cont rnd s) = solvedTimers s
        /\ solvedCalls (initGame d cont rnd s) = solvedCalls s)
  /\ (forall now t s,
        In t (solvedTimers s) ->
        if (t <=? now)%Z
        then solvedCalls s < solvedCalls (runTimers now s)
             /\ ~ In t (solvedTimers (runTimers now s))
        else In t (solvedTimers (runTimers now s))).
Proof.
  split; [exact handleEnd_timers|]. split; [|split].
  - intros d es s Hwf Hopen Hes.
    assert (Hk : counted (scheduled s) s)
      by (unfold counted; now rewrite Hopen).
    destruct (run_counted d es (scheduled s) s Hes Hwf Hk)
      as (s' & Hrun & _ & Hk').
    exists s'. split; [exact Hrun|]. unfold counted in Hk'.
    destruct (allLocked s'); [destruct Hk'|]; lia.
  - intros d cont rnd s. unfold initGame.
    destruct (imgObj s), cont; now split.
  - intros now t s Hin. simpl. destruct (t <=? now)%Z eqn:E.
    + split.
      * assert (Hd : In t (List.filter (fun t => (t <=? now)%Z)
                             (solvedTimers s)))
          by (apply filter_In; now split).
        destruct (List.filter _ _); [destruct Hd | simpl; lia].
      * rewrite filter_In. intros [_ Hlt]. lia.
    + apply filter_In. split; [exact Hin | lia].
Qed.

End Solved.

(** On the demo board the nine pieces are locked one after the other, the
    last at t = 1000: one timer has been started, due at t = 1800. *)
Lemma solved_timer_lifecycle_witness :
  solvedTimers Demo.solved = [1800%Z]
  /\ exists s', run EASY Demo.solveAll Demo.start = Some s'
                /\ scheduled s'
                   = scheduled Demo.start + (if allLocked s' then 1 else 0).
Proof.
  split; [reflexivity|].
  apply (proj1 (proj2 (solved_timer_lifecycle (num := float)))
           EASY Demo.solveAll Demo.start);
    [split; [reflexivity | exact I] | reflexivity | reflexivity].
Defined.

(** C3 as stated fails on the invalidation.  The demo board is solved at
    t = 1000, which starts the timer due at t = 1800; at t = 1100 nothing
    has fired; the board is then rebuilt, and at t = 1800 [onSolved] is
    called all the same, on a board without a single locked piece. *)
Lemma solved_fires_into_reset_board :
  (fun s => (allLocked s, solvedTimers s, solvedCalls s))
    <$> run EASY Demo.solveAll Demo.start
  = Some (true, [1800%Z], 0)
  /\ (fun s => (existsb isLocked (pieces s), length (pieces s),
                solvedTimers s, solvedCalls s))
       <$> run EASY Demo.solveThenResize Demo.start
     = Some (false, 9, [], 1).
Proof. split; vm_compute; reflexivity. Qed.

(** * Comparison and clamping in binary64 *)

(** ** Comparison of binary64 numbers *)

Section FloatOrder.
Local Open Scope float_scope.

Lemma SFcompare_refl (a : SpecFloat.spec_float) :
  a <> SpecFloat.S754_nan -> SpecFloat.SFcompare a a = Some Eq.
Proof.
  destruct a as [sa|sa| |sa ma ea]; simpl; try congruence; intros _.
  - now destruct sa.
  - rewrite Z.compare_refl.
    change PosDef.Pos.compare_cont with Pos.compare_cont.
    rewrite Pos.compare_cont_refl. now destruct sa.
Qed.

Lemma SFcompare_None (a b : SpecFloat.spec_float) :
  SpecFloat.SFcompare a b = None ->
  a = SpecFloat.S754_nan \/ b = SpecFloat.S754_nan.
Proof.
  destruct a as [sa|sa| |sa ma ea], b as [sb|sb| |sb mb eb]; simpl;
    try discriminate; auto.
Qed.

Lemma is_nan_spec (a : float) :
  PrimFloat.is_nan a = true <-> Prim2SF a = SpecFloat.S754_nan.
Proof.
  unfold PrimFloat.is_nan. rewrite FloatAxioms.eqb_spec, negb_true_iff.
  unfold SpecFloat.SFeqb. split.
  - intros Hc. destruct (Prim2SF a) eqn:E; try reflexivity;
      rewrite SFcompare_refl in Hc by discriminate; discriminate.
  - now intros ->.
Qed.

Lemma is_nan_false (a : float) :
  PrimFloat.is_nan a = false <-> Prim2SF a <> SpecFloat.S754_nan.
Proof. rewrite <- is_nan_spec. now destruct (PrimFloat.is_nan a). Qed.

Lemma float_lt_le (a b : float) : (a <? b) = true -> (a <=? b) = true.
Proof.
  rewrite FloatAxioms.ltb_spec, FloatAxioms.leb_spec.
  unfold SpecFloat.SFltb, SpecFloat.SFleb.
  now destruct (SpecFloat.SFcompare _ _) as [[]|].
Qed.

Lemma float_le_refl (a : float) :
  PrimFloat.is_nan a = false -> (a <=? a) = true.
Proof.
  rewrite is_nan_false, FloatAxioms.leb_spec. unfold SpecFloat.SFleb.
  intros Ha. now rewrite SFcompare_refl.
Qed.

(** Numbers that are not NaN are totally ordered. *)
Lemma float_not_lt_ge (a b : float) :
  PrimFloat.is_nan a = false -> PrimFloat.is_nan b = false ->
  (a <? b) = false -> (b <=? a) = true.
Proof.
  rewrite !is_nan_false, FloatAxioms.ltb_spec, FloatAxioms.leb_spec.
  unfold SpecFloat.SFltb, SpecFloat.SFleb. intros Ha Hb.
  destruct (SpecFloat.SFcompare (Prim2SF a) (Prim2SF b)) as [c|] eqn:E.
  - rewrite (SFcompare_antisym _ _ _ E). now destruct c.
  - destruct (SFcompare_None _ _ E); contradiction.
Qed.

Lemma float_le_not_nan (a b : float) :
  (a <=? b) = true ->
  PrimFloat.is_nan a = false /\ PrimFloat.is_nan b = false.
Proof.
  rewrite !is_nan_false, FloatAxioms.leb_spec. unfold SpecFloat.SFleb.
  destruct (Prim2SF a), (Prim2SF b); simpl; try discriminate;
    intros _; split; discriminate.
Qed.

(** [Math.min] of two numbers that are not NaN is one of them and is at
    most the first. *)
Lemma js_min_le (a b : float) :
  PrimFloat.is_nan a = false -> PrimFloat.is_nan b = false ->
  PrimFloat.is_nan (js_min a b) = false /\ (js_min a b <=? a) = true.
Proof.
  intros Ha Hb. unfold js_min. rewrite Ha, Hb. simpl.
  destruct (a <? b) eqn:E1; [auto using float_le_refl|].
  destruct (b <? a) eqn:E2; [auto using float_lt_le|].
  destruct (PrimFloat.get_sign a); [auto using float_le_refl|].
  auto using float_not_lt_ge.
Qed.

(** [Math.max(0, v)] of a number that is not NaN is not negative, and is
    below every bound that both 0 and [v] are below. *)
Lemma js_max_zero (v hi : float) :
  PrimFloat.is_nan v = false ->
  (0 <=? hi) = true -> (v <=? hi) = true ->
  (0 <=? js_max 0 v) = true /\ (js_max 0 v <=? hi) = true.
Proof.
  intros Hv H0 Hhi. unfold js_max. rewrite Hv.
  change (PrimFloat.is_nan 0 || false) with false. cbv iota.
  destruct (0 <? v) eqn:E1; [auto using float_lt_le|].
  destruct (v <? 0) eqn:E2; [now split|].
  change (PrimFloat.get_sign 0) with false. cbv iota. now split.
Qed.

(** [clamp hi v] in binary64: with a non-negative bound and a value that
    is not NaN the result lies in [0, hi]. *)
Lemma clamp_float_range (hi v : float) :
  (0 <=? hi) = true -> PrimFloat.is_nan v = false ->
  (0 <=? clamp hi v) = true /\ (clamp hi v <=? hi) = true.
Proof.
  intros H0 Hv. destruct (float_le_not_nan _ _ H0) as [_ Hhi].
  destruct (js_min_le hi v Hhi Hv) as [Hm Hle].
  unfold clamp. simpl. now apply js_max_zero.
Qed.

End FloatOrder.

(** X1.  A piece cannot be dragged off the canvas (binary64): when the
    canvas is
    at least as large as a piece and the pointer position is a number, a
    pointer-move leaves the dragged piece with [currentX] in
    [0, canvas.width - pieceSize.w] and [currentY] in
    [0, canvas.height - pieceSize.h], wherever the pointer is. *)
Theorem handleMove_stays_on_canvas (s : Board float) (cv : Canvas float)
    (cx cy : float) (i : nat) (p : Piece float) :
  activePieceIndex s = Some i ->
  pieces s !! i = Some p ->
  (0 <=? canvas_width cv - w (pieceSize s))%float = true ->
  (0 <=? canvas_height cv - h (pieceSize s))%float = true ->
  PrimFloat.is_nan (toCanvasX cv cx - x (dragOffset s))%float = false ->
  PrimFloat.is_nan (toCanvasY cv cy - y (dragOffset s))%float = false ->
  exists s' p',
    handleMove (Some cv) cx cy s = Some s'
    /\ pieces s' !! i = Some p'
    /\ (0 <=? currentX p')%float = true
    /\ (currentX p' <=? canvas_width cv - w (pieceSize s))%float = true
    /\ (0 <=? currentY p')%float = true
    /\ (currentY p' <=? canvas_height cv - h (pieceSize s))%float = true.
Proof.
  intros Hact Hp Hw Hh Hx Hy.
  rewrite (handleMove_active s cv cx cy i p Hact Hp).
  eexists; eexists. split; [reflexivity|]. split.
  - simpl. apply list_lookup_insert_eq. eapply lookup_lt_Some, Hp.
  - simpl.
    destruct (clamp_float_range _ _ Hw Hx) as [H1 H2].
    destruct (clamp_float_range _ _ Hh Hy) as [H3 H4].
    auto.
Qed.

(** Piece 8 of the demo board, dragged to (5000, -100), ends at the right
    and top edges of the canvas: (745, 0). *)
Lemma handleMove_stays_on_canvas_witness :
  exists s' p',
    handleMove (Some Demo.cv) 5000%float (-100)%float Demo.dragging8 = Some s'
    /\ pieces s' !! 8 = Some p'
    /\ (0 <=? currentX p')%float = true
    /\ (currentX p' <=? 1000 - 255)%float = true
    /\ (0 <=? currentY p')%float = true
    /\ (currentY p' <=? 600 - 170)%float = true.
Proof.
  apply (handleMove_stays_on_canvas Demo.dragging8 Demo.cv 5000%float
           (-100)%float 8
           (mkPiece 8 2 2 627.5%float 385%float 627.5%float 385%float false 9));
    reflexivity.
Defined.

(** * Rounding in binary64 *)

(** What the engine computes is rounded at every operation.  The lemmas of
    this part are proved from the specification of the primitive floats
    ([SpecFloat], [FloatAxioms]): the result of an operation never lies on
    the other side of a binary64 number than the exact result, and it
    errs by at most half a unit in the last place. *)

Section Rounding.
Local Open Scope Z_scope.

(** The scale covers the exponent of every product of two binary64
    numbers. *)
Lemma scale_ge : 2148 <= scale.
Proof. unfold scale. lia. Qed.

(** ** The mantissa: digits and shifts *)

(** A mantissa of [d] binary digits lies in [[2 ^ (d - 1), 2 ^ d)]. *)
Lemma digits2_pos_bounds (m : positive) :
  2 ^ (Zpos (digits2_pos m) - 1) <= Zpos m < 2 ^ Zpos (digits2_pos m).
Proof.
  induction m as [m IH | m IH |]; cbn [digits2_pos].
  - rewrite Pos2Z.inj_succ.
    replace (Z.succ (Zpos (digits2_pos m)) - 1)
      with (Z.succ (Zpos (digits2_pos m) - 1)) by lia.
    rewrite !Z.pow_succ_r by lia. lia.
  - rewrite Pos2Z.inj_succ.
    replace (Z.succ (Zpos (digits2_pos m)) - 1)
      with (Z.succ (Zpos (digits2_pos m) - 1)) by lia.
    rewrite !Z.pow_succ_r by lia. lia.
  - cbn. lia.
Qed.

(** An invariant indexed by the number of iterations. *)
Lemma iter_pos_inv {A : Type} (f : A -> A) (Inv : Z -> A -> Prop) :
  (forall k a, 0 <= k -> Inv k a -> Inv (k + 1) (f a)) ->
  forall p k a, 0 <= k -> Inv k a -> Inv (k + Zpos p) (SpecFloat.iter_pos f p a).
Proof.
  intros Hstep. induction p as [p IH | p IH |]; intros k a Hk Ha; cbn [SpecFloat.iter_pos].
  - replace (k + Zpos p~1) with (k + 1 + Zpos p + Zpos p) by lia.
    apply IH; [lia|]. apply IH; [lia|]. now apply Hstep.
  - replace (k + Zpos p~0) with (k + Zpos p + Zpos p) by lia.
    apply IH; [lia|]. now apply IH.
  - now apply Hstep.
Qed.

(** One shift: the mantissa is halved, the bit shifted out becomes the
    round bit and the old round bit joins the sticky bit. *)
Lemma shr_1_nonneg mrs :
  0 <= shr_m mrs ->
  shr_1 mrs
  = Build_shr_record (shr_m mrs / 2) (Z.odd (shr_m mrs))
      (shr_r mrs || shr_s mrs).
Proof.
  destruct mrs as [m r s]. cbn [shr_m shr_r shr_s]. intros Hm.
  destruct m as [|p|p]; [reflexivity| |lia].
  destruct p as [p|p|]; cbn [shr_1].
  - f_equal. rewrite Pos2Z.inj_xI.
    apply Z.div_unique with (r := 1); lia.
  - f_equal. rewrite Pos2Z.inj_xO.
    apply Z.div_unique with (r := 0); lia.
  - reflexivity.
Qed.


Lemma shifted_step m0 k mrs :
  0 <= m0 -> 0 <= k -> shifted m0 k mrs -> shifted m0 (k + 1) (shr_1 mrs).
Proof.
  intros Hm0 Hk (Hm & Hr & Hs).
  assert (HP : 0 < 2 ^ k) by (apply Z.pow_pos_nonneg; lia).
  pose proof (Z.div_mod m0 (2 ^ k) ltac:(lia)) as Hdm.
  pose proof (Z.mod_pos_bound m0 (2 ^ k) HP) as Hrem.
  assert (Hq : 0 <= m0 / 2 ^ k) by (apply Z.div_pos; lia).
  rewrite shr_1_nonneg by (rewrite Hm; exact Hq).
  unfold shifted. rewrite Z.pow_add_r, Z.pow_1_r by lia.
  set (P := 2 ^ k) in *. set (q := m0 / P) in *. set (rem := m0 mod P) in *.
  pose proof (Z.div_mod q 2 ltac:(lia)) as Hq2.
  pose proof (Z.mod_pos_bound q 2 ltac:(lia)) as Hb.
  assert (Hdiv : m0 / (P * 2) = q / 2).
  { symmetry. apply Z.div_unique with (r := P * (q mod 2) + rem); nia. }
  assert (Hmod : m0 mod (P * 2) = P * (q mod 2) + rem).
  { symmetry. apply Z.mod_unique with (q := q / 2); nia. }
  assert (Hodd : Z.odd q = true <-> q mod 2 = 1).
  { rewrite Zmod_odd. destruct (Z.odd q); split; intros; lia || congruence. }
  cbn [shr_m shr_r shr_s]. rewrite Hm, Hdiv, Hmod.
  clear Hdiv Hmod Hq2. revert Hodd Hb. generalize (q mod 2) as b.
  intros b Hodd Hb.
  split; [reflexivity|]. split.
  - rewrite Hodd. assert (b = 0 \/ b = 1) as [-> | ->] by lia; lia.
  - rewrite orb_true_iff, Hr, Hs.
    assert (b = 0 \/ b = 1) as [-> | ->] by lia; lia.
Qed.

Lemma shifted_0 m0 : shifted m0 0 (Build_shr_record m0 false false).
Proof.
  unfold shifted. cbn [shr_m shr_r shr_s].
  rewrite Z.pow_0_r, Z.div_1_r, Z.mod_1_r.
  repeat split; intros; try lia; try discriminate. 
Qed.

Lemma shifted_iter m0 p :
  0 <= m0 ->
  shifted m0 (Zpos p) (SpecFloat.iter_pos shr_1 p (Build_shr_record m0 false false)).
Proof.
  intros Hm0.
  change (Zpos p) with (0 + Zpos p).
  apply (iter_pos_inv shr_1 (shifted m0)); [|lia|apply shifted_0].
  intros k a Hk Ha. now apply shifted_step.
Qed.

Lemma shr_exact m0 e n :
  0 <= m0 -> 0 <= n ->
  exists mrs,
    shr (Build_shr_record m0 false false) e n = (mrs, e + n)
    /\ shifted m0 n mrs.
Proof.
  intros Hm0 Hn. destruct n as [|p|p]; [| |lia].
  - exists (Build_shr_record m0 false false). split.
    + cbn [shr]. now rewrite Z.add_0_r.
    + apply shifted_0.
  - eexists. split; [reflexivity|]. now apply shifted_iter.
Qed.

Lemma shr_none mrs e n : n <= 0 -> shr mrs e n = (mrs, e).
Proof. destruct n; [reflexivity|lia|reflexivity]. Qed.

(** Rounding to nearest, ties to even, of [m0 / 2 ^ k]. *)
Lemma round_nearest_even_shifted m0 k mrs :
  0 <= m0 -> 0 <= k -> shifted m0 k mrs ->
  let m2 := round_nearest_even (shr_m mrs) (loc_of_shr_record mrs) in
  (forall A, m0 <= A * 2 ^ k -> m2 <= A)
  /\ (forall A, A * 2 ^ k <= m0 -> A <= m2)
  /\ 2 * Z.abs (m2 * 2 ^ k - m0) <= 2 ^ k
  /\ 0 <= m2.
Proof.
  intros Hm0 Hk (Hm & Hr & Hs).
  assert (HP : 0 < 2 ^ k) by (apply Z.pow_pos_nonneg; lia).
  pose proof (Z.div_mod m0 (2 ^ k) ltac:(lia)) as Hdm.
  pose proof (Z.mod_pos_bound m0 (2 ^ k) HP) as Hrem.
  assert (Hq : 0 <= m0 / 2 ^ k) by (apply Z.div_pos; lia).
  destruct mrs as [m r s]. cbn [shr_m shr_r shr_s] in *. subst m.
  set (P := 2 ^ k) in *. set (q := m0 / P) in *. set (rem := m0 mod P) in *.
  assert (Hcases :
    let m2 := round_nearest_even q
                (loc_of_shr_record (Build_shr_record q r s)) in
    (m2 = q /\ 2 * rem <= P) \/ (m2 = q + 1 /\ P <= 2 * rem)).
  { destruct r, s; cbn [loc_of_shr_record round_nearest_even].
    - right. split; [reflexivity|]. now apply Hr.
    - destruct (Z.even q).
      + left. split; [reflexivity|].
        destruct (Z_le_gt_dec (2 * rem) P) as [|G]; [assumption|].
        exfalso. assert (true = true) as T by reflexivity.
        assert (false = true) as F; [|discriminate F].
        apply Hs. split; lia.
      + right. split; [reflexivity|]. now apply Hr.
    - left. split; [reflexivity|].
      destruct (Z_le_gt_dec P (2 * rem)) as [G|G]; [|lia].
      apply Hr in G. discriminate G.
    - left. split; [reflexivity|].
      destruct (Z_le_gt_dec P (2 * rem)) as [G|G]; [|lia].
      apply Hr in G. discriminate G. }
  cbv zeta in Hcases |- *.
  destruct Hcases as [[-> Hle] | [-> Hle]].
  - repeat split.
    + intros A HA. nia.
    + intros A HA. nia.
    + lia.
    + lia.
  - repeat split.
    + intros A HA. nia.
    + intros A HA. nia.
    + lia.
    + lia.
Qed.

Lemma fexp_eq z : fexp prec emax z = Z.max (z - 53) (-1074).
Proof. reflexivity. Qed.

Lemma Zdigits2_bounds m :
  0 < m -> 2 ^ (Zdigits2 m - 1) <= m < 2 ^ Zdigits2 m.
Proof.
  destruct m as [|p|p]; try lia. intros _. apply digits2_pos_bounds.
Qed.

Lemma pow2_lt_inv a b : 0 <= b -> 2 ^ a < 2 ^ b -> a < b.
Proof. intros Hb H. apply (Z.pow_lt_mono_r_iff 2); lia. Qed.

Lemma pow2_le a b : 0 <= a <= b -> 2 ^ a <= 2 ^ b.
Proof. intros H. apply Z.pow_le_mono_r; lia. Qed.

Lemma pow2_pos a : 0 <= a -> 0 < 2 ^ a.
Proof. intros H. apply Z.pow_pos_nonneg; lia. Qed.


(** [binary_round_aux] on an exact mantissa: the mantissa is shifted to
    the exponent [e2] of its binade and rounded to [m2], the nearest
    integer to [m / 2 ^ (e2 - e)]. *)
Lemma binary_round_aux_exact s (m : positive) e :
  let e2 := fexp prec emax (Zpos (digits2_pos m) + e) in
  e <= e2 ->
  exists m2,
    (forall A, Zpos m <= A * 2 ^ (e2 - e) -> m2 <= A)
    /\ (forall A, A * 2 ^ (e2 - e) <= Zpos m -> A <= m2)
    /\ 2 * Z.abs (m2 * 2 ^ (e2 - e) - Zpos m) <= 2 ^ (e2 - e)
    /\ 0 <= m2 <= 2 ^ 53
    /\ binary_round_aux prec emax s (Zpos m) e loc_Exact = rounded s m2 e2.
Proof.
  intros e2 He.
  pose proof (digits2_pos_bounds m) as Hd.
  set (d := Zpos (digits2_pos m)) in *.
  assert (Hd0 : 0 < d) by (unfold d; lia).
  assert (He2 : e2 = Z.max (d + e - 53) (-1074)) by reflexivity.
  unfold binary_round_aux, shr_fexp.
  cbn [Zdigits2 shr_record_of_loc]. fold d. fold e2.
  destruct (shr_exact (Zpos m) e (e2 - e)) as (mrs & Hshr & Hsh); [lia|lia|].
  rewrite Hshr. replace (e + (e2 - e)) with e2 by lia.
  destruct (round_nearest_even_shifted (Zpos m) (e2 - e) mrs)
    as (G1 & G2 & G3 & G4); [lia|lia|exact Hsh|].
  cbv zeta in G1, G2, G3, G4.
  set (m2 := round_nearest_even (shr_m mrs) (loc_of_shr_record mrs)) in *.
  assert (Hn : 0 < 2 ^ (e2 - e)) by (apply pow2_pos; lia).
  assert (Hm2 : m2 <= 2 ^ 53).
  { apply G1.
    assert (2 ^ d <= 2 ^ (53 + (e2 - e))) by (apply pow2_le; lia).
    rewrite Z.pow_add_r in H by lia. lia. }
  exists m2. repeat split; try assumption.
  unfold rounded.
  destruct (Z.eqb_spec m2 0) as [E0|E0].
  - rewrite E0. cbn [Zdigits2]. rewrite shr_none; [reflexivity|].
    rewrite fexp_eq. lia.
  - destruct (Z.eqb_spec m2 (2 ^ 53)) as [E1|E1].
    + rewrite E1.
      change (Zdigits2 (2 ^ 53)) with 54.
      replace (fexp prec emax (54 + e2) - e2) with 1
        by (rewrite fexp_eq; lia).
      reflexivity.
    + assert (Hpos : 0 < m2) by lia.
      pose proof (Zdigits2_bounds m2 Hpos) as Hd2.
      assert (Zdigits2 m2 <= 53).
      { destruct (Z_le_gt_dec (Zdigits2 m2) 53); [assumption|].
        assert (2 ^ 53 <= 2 ^ (Zdigits2 m2 - 1)) by (apply pow2_le; lia).
        lia. }
      rewrite shr_none; [|rewrite fexp_eq; lia].
      cbn [shr_m]. destruct m2 as [|p|p]; try lia. reflexivity.
Qed.

(** ** Values and their order *)

(** A valid finite number: its exponent, its mantissa, and the leading
    bit of the mantissa above the subnormal range. *)
Lemma valid_finite_bounds s m e :
  valid_binary (S754_finite s m e) = true ->
  -1074 <= e <= 971
  /\ Zpos m < 2 ^ 53
  /\ (-1074 < e -> 2 ^ 52 <= Zpos m)
  /\ e = Z.max (Zpos (digits2_pos m) + e - 53) (-1074).
Proof.
  cbn [SpecFloat.valid_binary]. unfold bounded, canonical_mantissa.
  rewrite andb_true_iff, Z.eqb_eq, Z.leb_le, fexp_eq.
  change (emax - prec) with 971.
  intros [Hc Hb]. pose proof (digits2_pos_bounds m) as Hd.
  set (d := Zpos (digits2_pos m)) in *.
  assert (d <= 53) by lia.
  repeat split; try lia.
  - assert (2 ^ d <= 2 ^ 53) by (apply pow2_le; unfold d; lia). lia.
  - intros He. assert (d = 53) as Ed by lia. rewrite Ed in Hd.
    change (53 - 1) with 52 in Hd. lia.
Qed.

Lemma pow2_add a b : 0 <= a -> 0 <= b -> 2 ^ (a + b) = 2 ^ a * 2 ^ b.
Proof. intros. now rewrite Z.pow_add_r. Qed.

Lemma mag_lt_exp m1 e1 m2 e2 :
  -scale <= e1 -> e1 < e2 -> Zpos m1 < 2 ^ 53 -> 2 ^ 52 <= Zpos m2 ->
  Zpos m1 * 2 ^ (e1 + scale) < Zpos m2 * 2 ^ (e2 + scale).
Proof.
  intros H1 H12 Hm1 Hm2.
  replace (e2 + scale) with ((e2 - e1 - 1) + 1 + (e1 + scale)) by lia.
  rewrite (pow2_add (e2 - e1 - 1 + 1) (e1 + scale)) by lia.
  rewrite (pow2_add (e2 - e1 - 1) 1) by lia.
  pose proof (pow2_pos (e2 - e1 - 1) ltac:(lia)).
  pose proof (pow2_pos (e1 + scale) ltac:(lia)).
  change (2 ^ 1) with 2.
  set (P := 2 ^ (e1 + scale)) in *. set (T := 2 ^ (e2 - e1 - 1)) in *.
  apply Z.lt_le_trans with (2 ^ 53 * P).
  - apply Z.mul_lt_mono_pos_r; lia.
  - assert (2 ^ 52 <= Zpos m2 * T) by nia.
    change (2 ^ 53) with (2 * 2 ^ 52).
    replace (Zpos m2 * (T * 2 * P)) with (2 * (Zpos m2 * T) * P) by ring.
    apply Z.mul_le_mono_nonneg_r; lia.
Qed.

Lemma mag_compare s1 m1 e1 s2 m2 e2 :
  valid_binary (S754_finite s1 m1 e1) = true ->
  valid_binary (S754_finite s2 m2 e2) = true ->
  match e1 ?= e2 with
  | Lt => Lt
  | Gt => Gt
  | Eq => Pos.compare_cont Eq m1 m2
  end = (Zpos m1 * 2 ^ (e1 + scale) ?= Zpos m2 * 2 ^ (e2 + scale)).
Proof.
  intros V1 V2.
  apply valid_finite_bounds in V1 as (B1 & M1 & N1 & _).
  apply valid_finite_bounds in V2 as (B2 & M2 & N2 & _).
  pose proof scale_ge as HK.
  destruct (Z.compare_spec e1 e2) as [E|L|G].
  - subst e2.
    rewrite <- Zmult_compare_compat_r
      by (apply Z.lt_gt, pow2_pos; lia).
    reflexivity.
  - symmetry. apply Z.compare_lt_iff. apply mag_lt_exp; try lia.
  - symmetry. apply Z.compare_gt_iff. apply mag_lt_exp; try lia.
Qed.

Lemma valid_finite_lt_inf s m e :
  valid_binary (S754_finite s m e) = true ->
  0 < Zpos m * 2 ^ (e + scale) < 2 ^ (1024 + scale).
Proof.
  intros V. apply valid_finite_bounds in V as (B & M & _ & _).
  pose proof scale_ge as HK.
  pose proof (pow2_pos (e + scale) ltac:(lia)).
  split; [lia|].
  replace (1024 + scale) with (53 + (971 - e) + (e + scale)) by lia.
  rewrite (pow2_add (53 + (971 - e)) (e + scale)) by lia.
  rewrite (pow2_add 53 (971 - e)) by lia.
  pose proof (pow2_pos (971 - e) ltac:(lia)).
  set (P := 2 ^ (e + scale)) in *. set (T := 2 ^ (971 - e)) in *.
  apply Z.lt_le_trans with (2 ^ 53 * P).
  - apply Z.mul_lt_mono_pos_r; lia.
  - apply Z.mul_le_mono_nonneg_r; [lia|]. nia.
Qed.

Ltac cmp_by_lia :=
  f_equal; symmetry;
  first [ apply Z.compare_eq_iff; lia
        | apply Z.compare_lt_iff; lia
        | apply Z.compare_gt_iff; lia ].

(** The comparison of binary64 numbers is the comparison of their
    values. *)
Lemma SFcompare_sval x y :
  valid_binary x = true -> valid_binary y = true ->
  is_num x = true -> is_num y = true ->
  SFcompare x y = Some (sval x ?= sval y).
Proof.
  intros Vx Vy Nx Ny.
  pose proof (pow2_pos (1024 + scale) ltac:(unfold scale; lia)) as Hinf.
  destruct x as [sx|sx| |sx mx ex]; try discriminate Nx;
  destruct y as [sy|sy| |sy my ey]; try discriminate Ny;
  try pose proof (valid_finite_lt_inf _ _ _ Vx) as Bx;
  try pose proof (valid_finite_lt_inf _ _ _ Vy) as By;
  destruct sx, sy; cbn [SFcompare sval cond_Zopp];
  try cmp_by_lia.
  - f_equal. rewrite Z.compare_opp.
    rewrite (Z.compare_antisym (Zpos mx * 2 ^ (ex + scale))).
    rewrite <- (mag_compare _ _ _ _ _ _ Vx Vy).
    destruct (ex ?= ey); reflexivity.
  - f_equal. apply (mag_compare _ _ _ _ _ _ Vx Vy).
Qed.

(** ** Rounding a product, a sum, a difference *)

Lemma sval_rounded m2 e2 :
  0 <= m2 <= 2 ^ 53 -> -scale <= e2 ->
  (sval (rounded false m2 e2) = m2 * 2 ^ (e2 + scale)
   /\ (m2 = 0 \/ e2 + (if m2 =? 2 ^ 53 then 1 else 0) <= 971))
  \/ (sval (rounded false m2 e2) = 2 ^ (1024 + scale)
      /\ 0 < m2 /\ 971 < e2 + (if m2 =? 2 ^ 53 then 1 else 0)).
Proof.
  intros Hm He. unfold rounded.
  destruct (Z.eqb_spec m2 0) as [E0|E0].
  - left. subst m2. cbn [sval]. split; [lia|now left].
  - destruct (Z.eqb_spec m2 (2 ^ 53)) as [E1|E1].
    + destruct (Z.leb_spec (e2 + 1) 971).
      * left. cbn [sval cond_Zopp]. split; [|right; lia].
        rewrite E1. replace (e2 + 1 + scale) with (1 + (e2 + scale)) by lia.
        rewrite (pow2_add 1 (e2 + scale)) by lia.
        change (Z.pos (Z.to_pos (2 ^ 52))) with (2 ^ 52).
        change (2 ^ 53) with (2 ^ 52 * 2 ^ 1). ring.
      * right. cbn [sval cond_Zopp]. repeat split; lia.
    + destruct (Z.leb_spec e2 971).
      * left. cbn [sval cond_Zopp]. split; [|right; lia].
        rewrite Z2Pos.id by lia. reflexivity.
      * right. cbn [sval cond_Zopp]. repeat split; lia.
Qed.

Lemma rounded_sandwich (m : positive) e m2 y :
  let e2 := Z.max (Zpos (digits2_pos m) + e - 53) (-1074) in
  -scale <= e -> e <= e2 ->
  (forall A, Zpos m <= A * 2 ^ (e2 - e) -> m2 <= A) ->
  (forall A, A * 2 ^ (e2 - e) <= Zpos m -> A <= m2) ->
  0 <= m2 <= 2 ^ 53 ->
  valid_binary y = true -> is_num y = true ->
  let F := rounded false m2 e2 in
  let X := Zpos m * 2 ^ (e + scale) in
  (X <= sval y -> sval F <= sval y) /\ (sval y <= X -> sval y <= sval F).
Proof.
  intros e2 HeK He G1 G2 Hm2 Vy Ny F X. subst F.
  pose proof scale_ge as HK.
  pose proof (digits2_pos_bounds m) as Hd.
  set (d := Zpos (digits2_pos m)) in *.
  assert (Hd0 : 0 < d) by (unfold d; lia).
  pose proof (pow2_pos (e + scale) ltac:(lia)) as HE.
  pose proof (pow2_pos (e2 - e) ltac:(lia)) as Hn.
  pose proof (pow2_pos (1024 + scale) ltac:(lia)) as Hinf.
  assert (HX : 0 < X) by (unfold X; lia).
  assert (He2K : 2 ^ (e2 + scale) = 2 ^ (e2 - e) * 2 ^ (e + scale)).
  { rewrite <- (pow2_add (e2 - e) (e + scale)) by lia. f_equal. lia. }
  assert (HXlt : X < 2 ^ (d + e + scale)).
  { unfold X. replace (d + e + scale) with (d + (e + scale)) by lia.
    rewrite (pow2_add d (e + scale)) by lia. apply Z.mul_lt_mono_pos_r; lia. }
  assert (HXge : 2 ^ (d - 1 + e + scale) <= X).
  { unfold X. replace (d - 1 + e + scale) with (d - 1 + (e + scale)) by lia.
    rewrite (pow2_add (d - 1) (e + scale)) by lia.
    apply Z.mul_le_mono_nonneg_r; lia. }
  assert (HF0 : 0 <= sval (rounded false m2 e2)).
  { destruct (sval_rounded m2 e2 Hm2 ltac:(lia)) as [[-> _]|[-> _]];
      [|lia]. pose proof (pow2_pos (e2 + scale) ltac:(lia)). nia. }
  (* in the normal range the rounded mantissa has its leading bit set *)
  assert (Hnormal : -1074 < e2 -> 2 ^ 52 <= m2).
  { intros Hn2. apply G2.
    replace (e2 - e) with (d - 53) by lia.
    rewrite <- (pow2_add 52 (d - 53)) by lia.
    replace (52 + (d - 53)) with (d - 1) by lia. lia. }
  destruct y as [sy|sy| |sy my ey]; try discriminate Ny.
  - cbn [sval]. split; lia.
  - destruct sy; cbn [sval cond_Zopp]; [split; lia|].
    split.
    + intros _.
      destruct (sval_rounded m2 e2 Hm2 ltac:(lia)) as [[E B]|[E _]];
        rewrite E; [|lia].
      destruct B as [B|B]; [subst m2; lia|].
      destruct (Z.eqb_spec m2 (2 ^ 53)) as [E1|E1].
      * rewrite E1.
        replace (1024 + scale) with (54 + (970 - e2) + (e2 + scale)) by lia.
        rewrite (pow2_add (54 + (970 - e2)) (e2 + scale)) by lia.
        rewrite (pow2_add 54 (970 - e2)) by lia.
        pose proof (pow2_pos (970 - e2) ltac:(lia)).
        pose proof (pow2_pos (e2 + scale) ltac:(lia)).
        apply Z.mul_le_mono_nonneg_r; [lia|]. nia.
      * replace (1024 + scale) with (53 + (971 - e2) + (e2 + scale)) by lia.
        rewrite (pow2_add (53 + (971 - e2)) (e2 + scale)) by lia.
        rewrite (pow2_add 53 (971 - e2)) by lia.
        pose proof (pow2_pos (971 - e2) ltac:(lia)).
        pose proof (pow2_pos (e2 + scale) ltac:(lia)).
        apply Z.mul_le_mono_nonneg_r; [lia|]. nia.
    + intros HY.
      assert (1024 + scale < d + e + scale).
      { apply pow2_lt_inv; lia. }
      assert (972 <= e2) by lia.
      pose proof (Hnormal ltac:(lia)).
      destruct (sval_rounded m2 e2 Hm2 ltac:(lia)) as [[E B]|[E _]];
        rewrite E; [|lia].
      destruct B as [B|B]; [lia|].
      destruct (m2 =? 2 ^ 53); lia.
  - pose proof (valid_finite_lt_inf _ _ _ Vy) as By.
    pose proof (digits2_pos_bounds my) as Hdy.
    apply valid_finite_bounds in Vy as (Bey & Mmy & Nmy & Cy).
    set (dy := Zpos (digits2_pos my)) in *.
    destruct sy; cbn [sval cond_Zopp]; [split; lia|].
    set (Y := Zpos my * 2 ^ (ey + scale)) in *.
    pose proof (pow2_pos (ey + scale) ltac:(lia)) as HEy.
    pose proof (pow2_pos (e2 + scale) ltac:(lia)) as HE2.
    split.
    + intros HXY.
      assert (Hee : e2 <= ey).
      { assert (d - 1 + e + scale < 53 + (ey + scale)).
        { apply pow2_lt_inv; [lia|].
          rewrite (pow2_add 53 (ey + scale)) by lia.
          apply Z.le_lt_trans with X; [assumption|].
          apply Z.le_lt_trans with Y; [assumption|].
          unfold Y. apply Z.mul_lt_mono_pos_r; lia. }
        lia. }
      pose proof (pow2_pos (ey - e2) ltac:(lia)) as HT.
      assert (HYA : Y = Zpos my * 2 ^ (ey - e2) * 2 ^ (e2 + scale)).
      { unfold Y. rewrite <- Z.mul_assoc.
        rewrite <- (pow2_add (ey - e2) (e2 + scale)) by lia.
        do 2 f_equal. lia. }
      assert (HA : m2 <= Zpos my * 2 ^ (ey - e2)).
      { apply G1. rewrite HYA, He2K in HXY. unfold X in HXY.
        rewrite Z.mul_assoc in HXY.
        apply Z.mul_le_mono_pos_r in HXY; assumption. }
      destruct (sval_rounded m2 e2 Hm2 ltac:(lia)) as [[E _]|[E [P O]]];
        rewrite E.
      * rewrite HYA. apply Z.mul_le_mono_nonneg_r; lia.
      * exfalso.
        destruct (Z.eqb_spec m2 (2 ^ 53)) as [E1|E1]; [|lia].
        assert (ey = e2) as Eey by lia. rewrite Eey, Z.sub_diag in HA.
        change (2 ^ 0) with 1 in HA. lia.
    + intros HYX.
      assert (Hee : ey <= e2).
      { assert (dy - 1 + (ey + scale) < d + e + scale).
        { apply pow2_lt_inv; [lia|].
          rewrite (pow2_add (dy - 1) (ey + scale)) by (unfold dy; lia).
          apply Z.le_lt_trans with Y.
          - unfold Y. apply Z.mul_le_mono_nonneg_r; lia.
          - lia. }
        lia. }
      assert (HV : Y <= m2 * 2 ^ (e2 + scale)).
      { destruct (Z.eq_dec ey e2) as [Eey|Nee].
        - unfold Y. rewrite Eey. apply Z.mul_le_mono_nonneg_r; [lia|].
          apply G2. unfold Y, X in HYX. rewrite Eey, He2K in HYX.
          rewrite Z.mul_assoc in HYX.
          apply Z.mul_le_mono_pos_r in HYX; assumption.
        - pose proof (Hnormal ltac:(lia)) as H52.
          apply Z.le_trans with (2 ^ 52 * 2 ^ (e2 + scale));
            [|apply Z.mul_le_mono_nonneg_r; lia].
          replace (e2 + scale) with (1 + (e2 - ey - 1) + (ey + scale)) by lia.
          rewrite (pow2_add (1 + (e2 - ey - 1)) (ey + scale)) by lia.
          rewrite (pow2_add 1 (e2 - ey - 1)) by lia.
          pose proof (pow2_pos (e2 - ey - 1) ltac:(lia)).
          unfold Y. rewrite Z.mul_assoc.
          apply Z.mul_le_mono_nonneg_r; [lia|].
          change (2 ^ 1) with 2. lia. }
      destruct (sval_rounded m2 e2 Hm2 ltac:(lia)) as [[E _]|[E _]];
        rewrite E; lia.
Qed.

Lemma rounded_opp m2 e2 : rounded true m2 e2 = SFopp (rounded false m2 e2).
Proof.
  unfold rounded.
  destruct (m2 =? 0); [reflexivity|].
  destruct (m2 =? 2 ^ 53).
  - destruct (e2 + 1 <=? 971); reflexivity.
  - destruct (e2 <=? 971); reflexivity.
Qed.

Lemma sval_opp x : sval (SFopp x) = - sval x.
Proof. destruct x as [s|s| |s m e]; try destruct s; cbn; lia. Qed.

Lemma valid_opp x : valid_binary (SFopp x) = valid_binary x.
Proof. destruct x; reflexivity. Qed.

Lemma is_num_opp x : is_num (SFopp x) = is_num x.
Proof. destruct x; reflexivity. Qed.

Lemma is_num_rounded s m2 e2 : is_num (rounded s m2 e2) = true.
Proof.
  unfold rounded.
  destruct (m2 =? 0); [reflexivity|].
  destruct (m2 =? 2 ^ 53).
  - destruct (e2 + 1 <=? 971); reflexivity.
  - destruct (e2 <=? 971); reflexivity.
Qed.

(** Rounding never crosses a binary64 number: the result of rounding [X]
    is at most every binary64 number that [X] is at most, and at least
    every binary64 number that [X] is at least. *)
Theorem round_sandwich s (m : positive) e y :
  -scale <= e -> e <= fexp prec emax (Zpos (digits2_pos m) + e) ->
  valid_binary y = true -> is_num y = true ->
  let F := binary_round_aux prec emax s (Zpos m) e loc_Exact in
  let X := cond_Zopp s (Zpos m * 2 ^ (e + scale)) in
  is_num F = true
  /\ (X <= sval y -> sval F <= sval y)
  /\ (sval y <= X -> sval y <= sval F).
Proof.
  intros HeK He Vy Ny F X. subst F X.
  destruct (binary_round_aux_exact s m e He) as (m2 & G1 & G2 & _ & Hm2 & ->).
  rewrite fexp_eq in *.
  split; [apply is_num_rounded|].
  destruct s; cbn [cond_Zopp].
  - rewrite rounded_opp, sval_opp.
    destruct (rounded_sandwich m e m2 (SFopp y) HeK He G1 G2 Hm2) as [U L].
    + now rewrite valid_opp.
    + now rewrite is_num_opp.
    + rewrite sval_opp in U, L. split; intros H.
      * assert (- sval y <= Zpos m * 2 ^ (e + scale)) as H' by lia.
        apply L in H'. lia.
      * assert (Zpos m * 2 ^ (e + scale) <= - sval y) as H' by lia.
        apply U in H'. lia.
  - exact (rounded_sandwich m e m2 y HeK He G1 G2 Hm2 Vy Ny).
Qed.

(** *** Multiplication *)

Lemma digits2_pos_mul mx my :
  Zpos (digits2_pos mx) + Zpos (digits2_pos my) - 1
  <= Zpos (digits2_pos (mx * my)).
Proof.
  pose proof (digits2_pos_bounds mx) as Hx.
  pose proof (digits2_pos_bounds my) as Hy.
  pose proof (digits2_pos_bounds (mx * my)) as Hp.
  set (dx := Zpos (digits2_pos mx)) in *.
  set (dy := Zpos (digits2_pos my)) in *.
  set (dp := Zpos (digits2_pos (mx * my))) in *.
  assert (dx - 1 + (dy - 1) < dp); [|lia].
  apply pow2_lt_inv; [unfold dp; lia|].
  rewrite (pow2_add (dx - 1) (dy - 1)) by (unfold dx, dy; lia).
  rewrite Pos2Z.inj_mul in Hp.
  apply Z.le_lt_trans with (Zpos mx * Zpos my); [|lia].
  apply Z.mul_le_mono_nonneg; try lia.
Qed.


Lemma cond_Zopp_mul sx sy a b :
  cond_Zopp sx a * cond_Zopp sy b = cond_Zopp (xorb sx sy) (a * b).
Proof. destruct sx, sy; cbn; lia. Qed.

Theorem SFmul_sandwich x y z :
  valid_binary x = true -> valid_binary y = true -> valid_binary z = true ->
  SFfinite x = true -> SFfinite y = true -> is_num z = true ->
  let F := SFmul prec emax x y in
  is_num F = true
  /\ (sval x * sval y <= sval z * 2 ^ scale -> sval F <= sval z)
  /\ (sval z * 2 ^ scale <= sval x * sval y -> sval z <= sval F).
Proof.
  intros Vx Vy Vz Fx Fy Nz F. subst F.
  pose proof scale_ge as HK.
  pose proof (pow2_pos scale ltac:(lia)) as HPK.
  destruct x as [sx|sx| |sx mx ex]; try discriminate Fx;
  destruct y as [sy|sy| |sy my ey]; try discriminate Fy;
  cbn [SFmul sval]; rewrite ?Z.mul_0_l, ?Z.mul_0_r;
  try (split; [reflexivity|split; intros H; nia]).
  pose proof (digits2_pos_mul mx my) as Hdm.
  pose proof (digits2_pos_bounds mx) as Hdx.
  pose proof (digits2_pos_bounds my) as Hdy.
  apply valid_finite_bounds in Vx as (Bx & Mx & Nx & Cx).
  apply valid_finite_bounds in Vy as (By & My & Ny & Cy).
  destruct (round_sandwich (xorb sx sy) (mx * my) (ex + ey) z)
    as (N & U & L); try assumption.
  - lia.
  - rewrite fexp_eq. lia.
  - split; [exact N|].
    rewrite cond_Zopp_mul.
    assert (E : Zpos mx * 2 ^ (ex + scale) * (Zpos my * 2 ^ (ey + scale))
                = Zpos (mx * my) * 2 ^ (ex + ey + scale) * 2 ^ scale).
    { assert (Hpow : 2 ^ (ex + scale) * 2 ^ (ey + scale)
                     = 2 ^ (ex + ey + scale) * 2 ^ scale).
      { rewrite <- (pow2_add (ex + scale) (ey + scale)) by lia.
        rewrite <- (pow2_add (ex + ey + scale) scale) by lia.
        f_equal. lia. }
      rewrite Pos2Z.inj_mul.
      transitivity (Zpos mx * Zpos my * (2 ^ (ex + scale) * 2 ^ (ey + scale)));
        [ring|].
      rewrite Hpow. ring. }
    rewrite E.
    assert (E' : forall b a, cond_Zopp b (a * 2 ^ scale) = cond_Zopp b a * 2 ^ scale)
      by (intros [] a; cbn; lia).
    rewrite E'.
    split; intros H.
    + apply U. apply Z.mul_le_mono_pos_r in H; assumption.
    + apply L. apply Z.mul_le_mono_pos_r in H; assumption.
Qed.

(** *** Addition and subtraction *)

Lemma iter_xO_value m d : Zpos (Pos.iter xO m d) = Zpos m * 2 ^ Zpos d.
Proof.
  induction d as [|d IH] using Pos.peano_ind.
  - cbn. lia.
  - rewrite Pos.iter_succ, Pos2Z.inj_xO, IH, Pos2Z.inj_succ.
    rewrite Z.pow_succ_r by lia. ring.
Qed.

Lemma iter_xO_digits m d :
  Zpos (digits2_pos (Pos.iter xO m d)) = Zpos (digits2_pos m) + Zpos d.
Proof.
  induction d as [|d IH] using Pos.peano_ind.
  - cbn [Pos.iter digits2_pos]. lia.
  - rewrite Pos.iter_succ. cbn [digits2_pos]. lia.
Qed.

Lemma shl_align_value m e e' :
  let '(m', e'') := shl_align m e e' in
  e'' = Z.min e e'
  /\ Zpos m' = Zpos m * 2 ^ (e - e'')
  /\ Zpos (digits2_pos m') = Zpos (digits2_pos m) + (e - e'').
Proof.
  unfold shl_align. destruct (e' - e) as [|d|d] eqn:E.
  - replace (e - e) with 0 by lia. cbn. repeat split; lia.
  - replace (e - e) with 0 by lia. cbn. repeat split; lia.
  - rewrite iter_xO_value, iter_xO_digits.
    replace (e - e') with (Zpos d) by lia. repeat split; lia.
Qed.

Theorem binary_normalize_sandwich M e y :
  -1074 <= e ->
  valid_binary y = true -> is_num y = true ->
  let F := binary_normalize prec emax M e false in
  let X := M * 2 ^ (e + scale) in
  is_num F = true
  /\ (X <= sval y -> sval F <= sval y)
  /\ (sval y <= X -> sval y <= sval F).
Proof.
  intros He Vy Ny F X. subst F X.
  pose proof scale_ge as HK.
  assert (Hround : forall s m,
    let F := binary_round prec emax s m e in
    let X := cond_Zopp s (Zpos m * 2 ^ (e + scale)) in
    is_num F = true
    /\ (X <= sval y -> sval F <= sval y)
    /\ (sval y <= X -> sval y <= sval F)).
  { intros s m. cbv zeta. unfold binary_round.
    pose proof (shl_align_value m e
                  (fexp prec emax (Zpos (digits2_pos m) + e))) as Hal.
    destruct (shl_align m e (fexp prec emax (Zpos (digits2_pos m) + e)))
      as [mz ez].
    destruct Hal as (Hez & Hmz & Hdz).
    rewrite fexp_eq in Hez.
    assert (Hval : Zpos mz * 2 ^ (ez + scale) = Zpos m * 2 ^ (e + scale)).
    { rewrite Hmz, <- Z.mul_assoc.
      rewrite <- (pow2_add (e - ez) (ez + scale)) by lia.
      do 2 f_equal. lia. }
    rewrite <- Hval.
    apply round_sandwich; try assumption.
    - lia.
    - rewrite fexp_eq, Hdz. lia. }
  destruct M as [|m|m]; cbn [binary_normalize].
  - cbn [sval]. rewrite Z.mul_0_l. split; [reflexivity|]. split; lia.
  - apply (Hround false m).
  - specialize (Hround true m). cbn [cond_Zopp] in Hround.
    replace (Z.neg m * 2 ^ (e + scale)) with (- (Zpos m * 2 ^ (e + scale))) by lia.
    exact Hround.
Qed.

Lemma sval_align s m e ez :
  -1074 <= ez -> ez <= e ->
  cond_Zopp s (Zpos (fst (shl_align m e ez))) * 2 ^ (ez + scale)
  = cond_Zopp s (Zpos m * 2 ^ (e + scale)).
Proof.
  intros Hz Hle. pose proof scale_ge as HK.
  pose proof (shl_align_value m e ez) as Hal.
  destruct (shl_align m e ez) as [m' e'']. cbn [fst].
  destruct Hal as (He'' & Hm' & _).
  replace e'' with ez in Hm' by lia.
  assert (Zpos m' * 2 ^ (ez + scale) = Zpos m * 2 ^ (e + scale)).
  { rewrite Hm', <- Z.mul_assoc.
    rewrite <- (pow2_add (e - ez) (ez + scale)) by lia.
    do 2 f_equal. lia. }
  destruct s; cbn [cond_Zopp]; lia.
Qed.

Theorem SFadd_sandwich x y z :
  valid_binary x = true -> valid_binary y = true -> valid_binary z = true ->
  SFfinite x = true -> SFfinite y = true -> is_num z = true ->
  let F := SFadd prec emax x y in
  is_num F = true
  /\ (sval x + sval y <= sval z -> sval F <= sval z)
  /\ (sval z <= sval x + sval y -> sval z <= sval F).
Proof.
  intros Vx Vy Vz Fx Fy Nz F. subst F.
  destruct x as [sx|sx| |sx mx ex]; try discriminate Fx;
  destruct y as [sy|sy| |sy my ey]; try discriminate Fy.
  - destruct sx, sy; cbn; (split; [reflexivity|split; lia]).
  - cbn [SFadd sval]. split; [reflexivity|split; lia].
  - cbn [SFadd sval]. split; [reflexivity|split; lia].
  - cbn [SFadd].
    apply valid_finite_bounds in Vx as (Bx & _).
    apply valid_finite_bounds in Vy as (By & _).
    set (ez := Z.min ex ey).
    destruct (binary_normalize_sandwich
      (cond_Zopp sx (Zpos (fst (shl_align mx ex ez)))
       + cond_Zopp sy (Zpos (fst (shl_align my ey ez)))) ez z)
      as (N & U & L); try assumption; [unfold ez; lia|].
    rewrite Z.mul_add_distr_r in U, L.
    rewrite !sval_align in U, L by (unfold ez; lia).
    cbn [sval]. split; [exact N|]. split; assumption.
Qed.

Theorem SFsub_sandwich x y z :
  valid_binary x = true -> valid_binary y = true -> valid_binary z = true ->
  SFfinite x = true -> SFfinite y = true -> is_num z = true ->
  let F := SFsub prec emax x y in
  is_num F = true
  /\ (sval x - sval y <= sval z -> sval F <= sval z)
  /\ (sval z <= sval x - sval y -> sval z <= sval F).
Proof.
  intros Vx Vy Vz Fx Fy Nz F. subst F.
  destruct x as [sx|sx| |sx mx ex]; try discriminate Fx;
  destruct y as [sy|sy| |sy my ey]; try discriminate Fy.
  - destruct sx, sy; cbn; (split; [reflexivity|split; lia]).
  - cbn [SFsub sval]. split; [reflexivity|].
    destruct sy; cbn [negb cond_Zopp]; split; lia.
  - cbn [SFsub sval]. split; [reflexivity|split; lia].
  - cbn [SFsub].
    apply valid_finite_bounds in Vx as (Bx & _).
    apply valid_finite_bounds in Vy as (By & _).
    set (ez := Z.min ex ey).
    destruct (binary_normalize_sandwich
      (cond_Zopp sx (Zpos (fst (shl_align mx ex ez)))
       - cond_Zopp sy (Zpos (fst (shl_align my ey ez)))) ez z)
      as (N & U & L); try assumption; [unfold ez; lia|].
    rewrite Z.mul_sub_distr_r in U, L.
    rewrite !sval_align in U, L by (unfold ez; lia).
    cbn [sval]. split; [exact N|]. split; assumption.
Qed.

(** *** The rounding error *)

Lemma rounded_cases m2 e2 :
  0 <= m2 <= 2 ^ 53 -> -scale <= e2 ->
  rounded false m2 e2 = S754_infinity false
  \/ sval (rounded false m2 e2) = m2 * 2 ^ (e2 + scale).
Proof.
  intros Hm He. unfold rounded.
  destruct (Z.eqb_spec m2 0) as [E0|E0].
  - right. subst m2. reflexivity.
  - destruct (Z.eqb_spec m2 (2 ^ 53)) as [E1|E1].
    + destruct (Z.leb_spec (e2 + 1) 971); [right|now left].
      cbn [sval cond_Zopp].
      rewrite E1. replace (e2 + 1 + scale) with (1 + (e2 + scale)) by lia.
      rewrite (pow2_add 1 (e2 + scale)) by lia.
      change (Z.pos (Z.to_pos (2 ^ 52))) with (2 ^ 52).
      change (2 ^ 53) with (2 ^ 52 * 2 ^ 1). ring.
    + destruct (Z.leb_spec e2 971); [right|now left].
      cbn [sval cond_Zopp]. rewrite Z2Pos.id by lia. reflexivity.
Qed.

Lemma SFfinite_rounded s m2 e2 :
  SFfinite (rounded s m2 e2) = SFfinite (rounded false m2 e2).
Proof.
  unfold rounded.
  destruct (m2 =? 0); [reflexivity|].
  destruct (m2 =? 2 ^ 53).
  - destruct (e2 + 1 <=? 971); reflexivity.
  - destruct (e2 <=? 971); reflexivity.
Qed.

(** A result that has not overflowed is within half a unit in the last
    place of the exact value: at most [2 ^ -53] of it, or [2 ^ -1075]. *)
Theorem round_error s (m : positive) e :
  -scale <= e -> e <= fexp prec emax (Zpos (digits2_pos m) + e) ->
  let F := binary_round_aux prec emax s (Zpos m) e loc_Exact in
  let X := cond_Zopp s (Zpos m * 2 ^ (e + scale)) in
  SFfinite F = true ->
  2 ^ 53 * Z.abs (sval F - X) <= Z.max (Z.abs X) (2 ^ (scale - 1022)).
Proof.
  intros HeK He F X. subst F X.
  destruct (binary_round_aux_exact s m e He) as (m2 & _ & _ & G3 & Hm2 & ->).
  rewrite fexp_eq in *.
  pose proof scale_ge as HK.
  pose proof (digits2_pos_bounds m) as Hd.
  set (d := Zpos (digits2_pos m)) in *.
  assert (Hd0 : 0 < d) by (unfold d; lia).
  set (e2 := Z.max (d + e - 53) (-1074)) in *.
  intros Hfin.
  assert (Hmag :
    2 ^ 53 * Z.abs (sval (rounded false m2 e2) - Zpos m * 2 ^ (e + scale))
    <= Z.max (Zpos m * 2 ^ (e + scale)) (2 ^ (scale - 1022))).
  { destruct (rounded_cases m2 e2 Hm2 ltac:(lia)) as [E|E].
    - rewrite SFfinite_rounded, E in Hfin. discriminate Hfin.
    - rewrite E.
      pose proof (pow2_pos (e + scale) ltac:(lia)) as HE.
      pose proof (pow2_pos (e2 - e) ltac:(lia)) as Hn.
      assert (He2K : 2 ^ (e2 + scale) = 2 ^ (e2 - e) * 2 ^ (e + scale)).
      { rewrite <- (pow2_add (e2 - e) (e + scale)) by lia. f_equal. lia. }
      assert (Herr : 2 * Z.abs (m2 * 2 ^ (e2 + scale) - Zpos m * 2 ^ (e + scale))
                     <= 2 ^ (e2 + scale)).
      { rewrite He2K, Z.mul_assoc, <- Z.mul_sub_distr_r, Z.abs_mul.
        rewrite (Z.abs_eq (2 ^ (e + scale))) by lia.
        rewrite Z.mul_assoc. apply Z.mul_le_mono_nonneg_r; lia. }
      assert (Hulp : 2 ^ 52 * 2 ^ (e2 + scale)
                     <= Z.max (Zpos m * 2 ^ (e + scale)) (2 ^ (scale - 1022))).
      { rewrite <- (pow2_add 52 (e2 + scale)) by lia.
        destruct (Z.max_spec (d + e - 53) (-1074)) as [[_ E2]|[_ E2]];
          fold e2 in E2; rewrite E2.
        - replace (52 + (-1074 + scale)) with (scale - 1022) by lia. lia.
        - replace (52 + (d + e - 53 + scale)) with (d - 1 + (e + scale)) by lia.
          rewrite (pow2_add (d - 1) (e + scale)) by lia.
          apply Z.le_trans with (Zpos m * 2 ^ (e + scale)); [|lia].
          apply Z.mul_le_mono_nonneg_r; lia. }
      change (2 ^ 53) with (2 ^ 52 * 2). lia. }
  destruct s; cbn [cond_Zopp].
  - rewrite rounded_opp, sval_opp.
    replace (- sval (rounded false m2 e2) - - (Zpos m * 2 ^ (e + scale)))
      with (- (sval (rounded false m2 e2) - Zpos m * 2 ^ (e + scale))) by lia.
    rewrite !Z.abs_opp. rewrite (Z.abs_eq (Zpos m * _)); [exact Hmag|].
    pose proof (pow2_pos (e + scale) ltac:(lia)). lia.
  - rewrite (Z.abs_eq (Zpos m * _)); [exact Hmag|].
    pose proof (pow2_pos (e + scale) ltac:(lia)). lia.
Qed.

Theorem SFmul_error x y :
  valid_binary x = true -> valid_binary y = true ->
  SFfinite x = true -> SFfinite y = true ->
  let F := SFmul prec emax x y in
  SFfinite F = true ->
  2 ^ 53 * Z.abs (sval F * 2 ^ scale - sval x * sval y)
  <= Z.max (Z.abs (sval x * sval y)) (2 ^ (scale - 1022) * 2 ^ scale).
Proof.
  intros Vx Vy Fx Fy F. subst F.
  pose proof scale_ge as HK.
  pose proof (pow2_pos scale ltac:(lia)) as HPK.
  pose proof (pow2_pos (scale - 1022) ltac:(lia)) as HPt.
  destruct x as [sx|sx| |sx mx ex]; try discriminate Fx;
  destruct y as [sy|sy| |sy my ey]; try discriminate Fy;
  cbn [SFmul sval]; rewrite ?Z.mul_0_l, ?Z.mul_0_r;
  try (intros _; cbn; nia).
  pose proof (digits2_pos_mul mx my) as Hdm.
  pose proof (digits2_pos_bounds mx) as Hdx.
  pose proof (digits2_pos_bounds my) as Hdy.
  apply valid_finite_bounds in Vx as (Bx & Mx & Nx & Cx).
  apply valid_finite_bounds in Vy as (By & My & Ny & Cy).
  intros Hfin.
  pose proof (round_error (xorb sx sy) (mx * my) (ex + ey) ltac:(lia)
                ltac:(rewrite fexp_eq; lia) Hfin) as Herr.
  cbv zeta in Herr.
  rewrite cond_Zopp_mul.
  assert (E : Zpos mx * 2 ^ (ex + scale) * (Zpos my * 2 ^ (ey + scale))
              = Zpos (mx * my) * 2 ^ (ex + ey + scale) * 2 ^ scale).
  { assert (Hpow : 2 ^ (ex + scale) * 2 ^ (ey + scale)
                   = 2 ^ (ex + ey + scale) * 2 ^ scale).
    { rewrite <- (pow2_add (ex + scale) (ey + scale)) by lia.
      rewrite <- (pow2_add (ex + ey + scale) scale) by lia.
      f_equal. lia. }
    rewrite Pos2Z.inj_mul.
    transitivity (Zpos mx * Zpos my * (2 ^ (ex + scale) * 2 ^ (ey + scale)));
      [ring|].
    rewrite Hpow. ring. }
  rewrite E.
  assert (E' : forall b a, cond_Zopp b (a * 2 ^ scale) = cond_Zopp b a * 2 ^ scale)
    by (intros [] a; cbn; lia).
  rewrite E', <- Z.mul_sub_distr_r, !Z.abs_mul, (Z.abs_eq (2 ^ scale)) by lia.
  rewrite Z.mul_max_distr_nonneg_r by lia.
  rewrite Z.mul_assoc. apply Z.mul_le_mono_nonneg_r; [lia|exact Herr].
Qed.

Theorem binary_normalize_error M e :
  -1074 <= e ->
  let F := binary_normalize prec emax M e false in
  let X := M * 2 ^ (e + scale) in
  SFfinite F = true ->
  2 ^ 53 * Z.abs (sval F - X) <= Z.max (Z.abs X) (2 ^ (scale - 1022)).
Proof.
  intros He F X. subst F X.
  pose proof scale_ge as HK.
  pose proof (pow2_pos (scale - 1022) ltac:(lia)) as HPt.
  assert (Hround : forall s m,
    let F := binary_round prec emax s m e in
    let X := cond_Zopp s (Zpos m * 2 ^ (e + scale)) in
    SFfinite F = true ->
    2 ^ 53 * Z.abs (sval F - X) <= Z.max (Z.abs X) (2 ^ (scale - 1022))).
  { intros s m. cbv zeta. unfold binary_round.
    pose proof (shl_align_value m e
                  (fexp prec emax (Zpos (digits2_pos m) + e))) as Hal.
    destruct (shl_align m e (fexp prec emax (Zpos (digits2_pos m) + e)))
      as [mz ez].
    destruct Hal as (Hez & Hmz & Hdz).
    rewrite fexp_eq in Hez.
    assert (Hval : Zpos mz * 2 ^ (ez + scale) = Zpos m * 2 ^ (e + scale)).
    { rewrite Hmz, <- Z.mul_assoc.
      rewrite <- (pow2_add (e - ez) (ez + scale)) by lia.
      do 2 f_equal. lia. }
    rewrite <- Hval.
    apply round_error.
    - lia.
    - rewrite fexp_eq, Hdz. lia. }
  destruct M as [|m|m]; cbn [binary_normalize].
  - intros _. cbn [sval]. rewrite Z.mul_0_l. cbn. lia.
  - apply (Hround false m).
  - specialize (Hround true m). cbn [cond_Zopp] in Hround.
    replace (Z.neg m * 2 ^ (e + scale)) with (- (Zpos m * 2 ^ (e + scale))) by lia.
    exact Hround.
Qed.

Theorem SFadd_error x y :
  valid_binary x = true -> valid_binary y = true ->
  SFfinite x = true -> SFfinite y = true ->
  let F := SFadd prec emax x y in
  SFfinite F = true ->
  2 ^ 53 * Z.abs (sval F - (sval x + sval y))
  <= Z.max (Z.abs (sval x + sval y)) (2 ^ (scale - 1022)).
Proof.
  intros Vx Vy Fx Fy F. subst F.
  pose proof scale_ge as HK.
  pose proof (pow2_pos (scale - 1022) ltac:(lia)) as HPt.
  destruct x as [sx|sx| |sx mx ex]; try discriminate Fx;
  destruct y as [sy|sy| |sy my ey]; try discriminate Fy.
  - intros _. destruct sx, sy; cbn; lia.
  - intros _. cbn [SFadd sval]. rewrite Z.add_0_l, Z.sub_diag. cbn. lia.
  - intros _. cbn [SFadd sval]. rewrite Z.add_0_r, Z.sub_diag. cbn. lia.
  - cbn [SFadd].
    apply valid_finite_bounds in Vx as (Bx & _).
    apply valid_finite_bounds in Vy as (By & _).
    set (ez := Z.min ex ey). intros Hfin.
    pose proof (binary_normalize_error _ ez ltac:(unfold ez; lia) Hfin)
      as Herr.
    cbv zeta in Herr.
    rewrite Z.mul_add_distr_r in Herr.
    rewrite !sval_align in Herr by (unfold ez; lia).
    exact Herr.
Qed.

Theorem SFsub_error x y :
  valid_binary x = true -> valid_binary y = true ->
  SFfinite x = true -> SFfinite y = true ->
  let F := SFsub prec emax x y in
  SFfinite F = true ->
  2 ^ 53 * Z.abs (sval F - (sval x - sval y))
  <= Z.max (Z.abs (sval x - sval y)) (2 ^ (scale - 1022)).
Proof.
  intros Vx Vy Fx Fy F. subst F.
  pose proof scale_ge as HK.
  pose proof (pow2_pos (scale - 1022) ltac:(lia)) as HPt.
  destruct x as [sx|sx| |sx mx ex]; try discriminate Fx;
  destruct y as [sy|sy| |sy my ey]; try discriminate Fy.
  - intros _. destruct sx, sy; cbn; lia.
  - intros _. cbn [SFsub sval].
    replace (cond_Zopp (negb sy) (Zpos my * 2 ^ (ey + scale))
             - (0 - cond_Zopp sy (Zpos my * 2 ^ (ey + scale)))) with 0
      by (destruct sy; cbn; lia).
    cbn. lia.
  - intros _. cbn [SFsub sval]. rewrite Z.sub_0_r, Z.sub_diag. cbn. lia.
  - cbn [SFsub].
    apply valid_finite_bounds in Vx as (Bx & _).
    apply valid_finite_bounds in Vy as (By & _).
    set (ez := Z.min ex ey). intros Hfin.
    pose proof (binary_normalize_error _ ez ltac:(unfold ez; lia) Hfin)
      as Herr.
    cbv zeta in Herr.
    rewrite Z.mul_sub_distr_r in Herr.
    rewrite !sval_align in Herr by (unfold ez; lia).
    exact Herr.
Qed.

(** ** Binary64 numbers as values *)

Lemma is_nan_num (x : float) :
  PrimFloat.is_nan x = false <-> is_num (Prim2SF x) = true.
Proof.
  pose proof (is_nan_spec x) as H.
  destruct (PrimFloat.is_nan x), (Prim2SF x); cbn; split; intros E;
    try reflexivity; try discriminate E;
    first [ now (assert (A : true = true) by reflexivity; apply H in A)
          | now (assert (A : S754_nan = S754_nan) by reflexivity;
                 apply H in A) ].
Qed.

Lemma compare_B2Z (x y : float) :
  PrimFloat.is_nan x = false -> PrimFloat.is_nan y = false ->
  SFcompare (Prim2SF x) (Prim2SF y) = Some (B2Z x ?= B2Z y).
Proof.
  rewrite !is_nan_num. intros Hx Hy.
  apply SFcompare_sval; auto using FloatAxioms.Prim2SF_valid.
Qed.

Lemma SFcompare_num x y c :
  SFcompare x y = Some c -> is_num x = true /\ is_num y = true.
Proof. destruct x, y; cbn; try discriminate; auto. Qed.

Lemma leb_B2Z (x y : float) :
  (x <=? y)%float = true
  <-> PrimFloat.is_nan x = false /\ PrimFloat.is_nan y = false
      /\ B2Z x <= B2Z y.
Proof.
  rewrite FloatAxioms.leb_spec. unfold SFleb. split.
  - destruct (SFcompare _ _) as [c|] eqn:E; [|discriminate].
    destruct (SFcompare_num _ _ _ E) as [Nx Ny].
    apply is_nan_num in Nx, Ny.
    rewrite (compare_B2Z x y Nx Ny) in E. injection E as <-.
    intros H. split; [exact Nx|]. split; [exact Ny|].
    destruct (Z.compare_spec (B2Z x) (B2Z y)); try lia; discriminate.
  - intros (Nx & Ny & H). rewrite (compare_B2Z x y Nx Ny).
    destruct (Z.compare_spec (B2Z x) (B2Z y)); try reflexivity; lia.
Qed.

Lemma ltb_B2Z (x y : float) :
  (x <? y)%float = true
  <-> PrimFloat.is_nan x = false /\ PrimFloat.is_nan y = false
      /\ B2Z x < B2Z y.
Proof.
  rewrite FloatAxioms.ltb_spec. unfold SFltb. split.
  - destruct (SFcompare _ _) as [c|] eqn:E; [|discriminate].
    destruct (SFcompare_num _ _ _ E) as [Nx Ny].
    apply is_nan_num in Nx, Ny.
    rewrite (compare_B2Z x y Nx Ny) in E. injection E as <-.
    intros H. split; [exact Nx|]. split; [exact Ny|].
    destruct (Z.compare_spec (B2Z x) (B2Z y)); try lia; discriminate.
  - intros (Nx & Ny & H). rewrite (compare_B2Z x y Nx Ny).
    destruct (Z.compare_spec (B2Z x) (B2Z y)); try reflexivity; lia.
Qed.

Lemma finite_B2Z (x : float) :
  is_finite x = true
  <-> PrimFloat.is_nan x = false
      /\ - 2 ^ (1024 + scale) < B2Z x < 2 ^ (1024 + scale).
Proof.
  rewrite is_nan_num. unfold is_finite, B2Z.
  pose proof (FloatAxioms.Prim2SF_valid x) as V.
  pose proof (pow2_pos (1024 + scale) ltac:(unfold scale; lia)) as Hinf.
  destruct (Prim2SF x) as [s|s| |s m e]; cbn [SFfinite is_num sval].
  - split; [intros _; split; [reflexivity|lia] | reflexivity].
  - split; [discriminate|]. intros [_ H]. destruct s; cbn in H; lia.
  - split; [discriminate|]. intros [H _]. discriminate H.
  - pose proof (valid_finite_lt_inf _ _ _ V).
    split; [|reflexivity]. intros _. split; [reflexivity|].
    destruct s; cbn [cond_Zopp]; lia.
Qed.

Theorem mul_sandwich (x y z : float) :
  is_finite x = true -> is_finite y = true -> PrimFloat.is_nan z = false ->
  PrimFloat.is_nan (x * y) = false
  /\ (B2Z x * B2Z y <= B2Z z * 2 ^ scale -> B2Z (x * y) <= B2Z z)
  /\ (B2Z z * 2 ^ scale <= B2Z x * B2Z y -> B2Z z <= B2Z (x * y)).
Proof.
  intros Fx Fy Nz. rewrite is_nan_num in *. unfold B2Z.
  rewrite FloatAxioms.mul_spec.
  apply SFmul_sandwich; auto using FloatAxioms.Prim2SF_valid.
Qed.

Theorem add_sandwich (x y z : float) :
  is_finite x = true -> is_finite y = true -> PrimFloat.is_nan z = false ->
  PrimFloat.is_nan (x + y) = false
  /\ (B2Z x + B2Z y <= B2Z z -> B2Z (x + y) <= B2Z z)
  /\ (B2Z z <= B2Z x + B2Z y -> B2Z z <= B2Z (x + y)).
Proof.
  intros Fx Fy Nz. rewrite is_nan_num in *. unfold B2Z.
  rewrite FloatAxioms.add_spec.
  apply SFadd_sandwich; auto using FloatAxioms.Prim2SF_valid.
Qed.

Theorem sub_sandwich (x y z : float) :
  is_finite x = true -> is_finite y = true -> PrimFloat.is_nan z = false ->
  PrimFloat.is_nan (x - y) = false
  /\ (B2Z x - B2Z y <= B2Z z -> B2Z (x - y) <= B2Z z)
  /\ (B2Z z <= B2Z x - B2Z y -> B2Z z <= B2Z (x - y)).
Proof.
  intros Fx Fy Nz. rewrite is_nan_num in *. unfold B2Z.
  rewrite FloatAxioms.sub_spec.
  apply SFsub_sandwich; auto using FloatAxioms.Prim2SF_valid.
Qed.

Theorem mul_error (x y : float) :
  is_finite x = true -> is_finite y = true -> is_finite (x * y) = true ->
  2 ^ 53 * Z.abs (B2Z (x * y) * 2 ^ scale - B2Z x * B2Z y)
  <= Z.max (Z.abs (B2Z x * B2Z y)) (2 ^ (scale - 1022) * 2 ^ scale).
Proof.
  unfold is_finite, B2Z. rewrite FloatAxioms.mul_spec. intros Fx Fy Fxy.
  apply SFmul_error; auto using FloatAxioms.Prim2SF_valid.
Qed.

Theorem sub_error (x y : float) :
  is_finite x = true -> is_finite y = true -> is_finite (x - y) = true ->
  2 ^ 53 * Z.abs (B2Z (x - y) - (B2Z x - B2Z y))
  <= Z.max (Z.abs (B2Z x - B2Z y)) (2 ^ (scale - 1022)).
Proof.
  unfold is_finite, B2Z. rewrite FloatAxioms.sub_spec. intros Fx Fy Fxy.
  apply SFsub_error; auto using FloatAxioms.Prim2SF_valid.
Qed.

Theorem add_error (x y : float) :
  is_finite x = true -> is_finite y = true -> is_finite (x + y) = true ->
  2 ^ 53 * Z.abs (B2Z (x + y) - (B2Z x + B2Z y))
  <= Z.max (Z.abs (B2Z x + B2Z y)) (2 ^ (scale - 1022)).
Proof.
  unfold is_finite, B2Z. rewrite FloatAxioms.add_spec. intros Fx Fy Fxy.
  apply SFadd_error; auto using FloatAxioms.Prim2SF_valid.
Qed.

(** A number between two finite numbers is finite. *)
Lemma finite_between (lo hi x : float) :
  is_finite lo = true -> is_finite hi = true ->
  (lo <=? x)%float = true -> (x <=? hi)%float = true -> is_finite x = true.
Proof.
  rewrite !finite_B2Z, !leb_B2Z.
  intros (_ & Hlo) (_ & Hhi) (_ & Nx & H1) (_ & _ & H2).
  split; [exact Nx|lia].
Qed.

Lemma B2Z_zero : B2Z 0 = 0.
Proof. reflexivity. Qed.

Lemma B2Z_one : B2Z 1 = 2 ^ scale.
Proof. vm_compute. reflexivity. Qed.

Lemma B2Z_infinity : B2Z infinity = 2 ^ (1024 + scale).
Proof. vm_compute. reflexivity. Qed.


(** Subtracting a non-negative number never raises a number. *)
Theorem sub_le (x c : float) :
  PrimFloat.is_nan x = false ->
  (0 <=? c)%float = true -> (c <? infinity)%float = true ->
  (x - c <=? x)%float = true.
Proof.
  rewrite leb_B2Z, ltb_B2Z, B2Z_zero, B2Z_infinity.
  intros Nx (_ & Nc & Hc0) (_ & _ & Hc1).
  pose proof scale_ge as HK.
  pose proof (pow2_pos (1024 + scale) ltac:(lia)) as Hinf.
  assert (Fc : is_finite c = true) by (apply finite_B2Z; split; [exact Nc|lia]).
  destruct (is_finite x) eqn:Fx.
  - destruct (sub_sandwich x c x Fx Fc Nx) as (N & U & _).
    apply leb_B2Z. split; [exact N|]. split; [exact Nx|]. apply U. lia.
  - (* an infinity stays where it is *)
    assert (E : Prim2SF (x - c) = Prim2SF x).
    { rewrite FloatAxioms.sub_spec. unfold is_finite in Fx, Fc.
      apply is_nan_num in Nx.
      destruct (Prim2SF x) as [s|s| |s m e]; try discriminate;
      destruct (Prim2SF c) as [s'|s'| |s' m' e']; try discriminate;
      reflexivity. }
    apply FloatAxioms.Prim2SF_inj in E. rewrite E.
    apply leb_B2Z. split; [exact Nx|]. split; [exact Nx|]. lia.
Qed.


Lemma B2Z_tick : 2 ^ scale <= 128 * B2Z (lit 15 1000) /\ 64 * B2Z (lit 15 1000) <= 2 ^ scale.
Proof. split; apply Z.leb_le; vm_compute; reflexivity. Qed.

Lemma B2Z_lo40 : B2Z (-1099511627776)%float = - (2 ^ 40 * 2 ^ scale).
Proof. vm_compute. reflexivity. Qed.

(** Between -2^40 and 1 a tick lowers the life strictly: there the rounding
    error of the subtraction is below 0.015. *)
Theorem tick_lt (x : float) :
  ((-1099511627776)%float <=? x)%float = true -> (x <=? 1)%float = true ->
  (x - (lit 15 1000) <? x)%float = true.
Proof.
  rewrite !leb_B2Z, B2Z_lo40, B2Z_one.
  intros (_ & Nx & Hlo) (_ & _ & Hhi).
  destruct B2Z_tick as [Hc1 Hc2].
  pose proof scale_ge as HK.
  pose proof (pow2_pos scale ltac:(lia)) as HP.
  assert (HPinf : 2 ^ 42 * 2 ^ scale <= 2 ^ (1024 + scale)).
  { rewrite <- (pow2_add 42 scale) by lia. apply pow2_le. lia. }
  assert (HPt : 2 ^ (scale - 1022) <= 2 ^ scale) by (apply pow2_le; lia).
  set (P := 2 ^ scale) in *.
  assert (Fx : is_finite x = true) by (apply finite_B2Z; split; [exact Nx|lia]).
  assert (Fc : is_finite (lit 15 1000) = true) by reflexivity.
  destruct (sub_sandwich x (lit 15 1000) x Fx Fc Nx) as (N & U & _).
  assert (Hup : B2Z (x - (lit 15 1000)) <= B2Z x) by (apply U; lia).
  assert (Z41 : B2Z (-2199023255552)%float = - (2 ^ 41 * P))
    by (vm_compute; reflexivity).
  destruct (sub_sandwich x (lit 15 1000) (-2199023255552)%float Fx Fc eq_refl)
    as (_ & _ & L).
  assert (Hdn : - (2 ^ 41 * P) <= B2Z (x - (lit 15 1000))).
  { rewrite <- Z41. apply L. rewrite Z41. lia. }
  assert (Ff : is_finite (x - (lit 15 1000)) = true).
  { apply finite_B2Z. split; [exact N|lia]. }
  pose proof (sub_error x (lit 15 1000) Fx Fc Ff) as Herr.
  apply ltb_B2Z. split; [exact N|]. split; [exact Nx|].
  lia.
Qed.

(** ** The life of a particle *)


Lemma leb_trans (a b c : float) :
  (a <=? b)%float = true -> (b <=? c)%float = true -> (a <=? c)%float = true.
Proof. rewrite !leb_B2Z. intros (? & ? & ?) (? & ? & ?). repeat split; auto; lia. Qed.

Lemma leb_ltb_trans (a b c : float) :
  (a <=? b)%float = true -> (b <? c)%float = true -> (a <? c)%float = true.
Proof.
  rewrite !leb_B2Z, !ltb_B2Z. intros (? & ? & ?) (? & ? & ?).
  repeat split; auto; lia.
Qed.

Lemma ltb_leb_trans (a b c : float) :
  (a <? b)%float = true -> (b <=? c)%float = true -> (a <? c)%float = true.
Proof.
  rewrite !leb_B2Z, !ltb_B2Z. intros (? & ? & ?) (? & ? & ?).
  repeat split; auto; lia.
Qed.

Lemma leb_not_nan (a b : float) :
  (a <=? b)%float = true ->
  PrimFloat.is_nan a = false /\ PrimFloat.is_nan b = false.
Proof. rewrite leb_B2Z. tauto. Qed.

Lemma lifeAfter_step k :
  (lifeAfter (S k) <=? lifeAfter k)%float = true
  /\ (lifeAfter k <=? 1)%float = true.
Proof.
  induction k as [|k [IH1 IH2]].
  - split; reflexivity.
  - assert (H : (lifeAfter (S (S k)) <=? lifeAfter (S k))%float = true).
    { apply sub_le; [|reflexivity|reflexivity].
      now destruct (leb_not_nan _ _ IH1). }
    split; [exact H|]. exact (leb_trans _ _ _ IH1 IH2).
Qed.

Lemma lifeAfter_antitone j k :
  (j <= k)%nat -> (lifeAfter k <=? lifeAfter j)%float = true.
Proof.
  induction 1 as [|k Hjk IH].
  - destruct (lifeAfter_step j) as [_ H].
    apply leb_B2Z in H as (N & _ & _).
    apply leb_B2Z. repeat split; auto; lia.
  - exact (leb_trans _ _ _ (proj1 (lifeAfter_step k)) IH).
Qed.

Lemma lifeAfter_66 : (0 <? lifeAfter 66)%float = true.
Proof. vm_compute. reflexivity. Qed.

Lemma lifeAfter_67 : (lifeAfter 67 <? 0)%float = true.
Proof. vm_compute. reflexivity. Qed.

Lemma lifeAfter_sign k :
  ((k <= 66)%nat -> (0 <? lifeAfter k)%float = true)
  /\ ((67 <= k)%nat -> (lifeAfter k <? 0)%float = true).
Proof.
  split; intros Hk.
  - apply (ltb_leb_trans 0 (lifeAfter 66) (lifeAfter k)).
    + exact lifeAfter_66.
    + exact (lifeAfter_antitone k 66 Hk).
  - apply (leb_ltb_trans (lifeAfter k) (lifeAfter 67) 0).
    + exact (lifeAfter_antitone 67 k Hk).
    + exact lifeAfter_67.
Qed.

(** ** Random numbers below 1 *)

Lemma below_one (r : float) :
  (0 <=? r)%float = true -> (r <? 1)%float = true ->
  is_finite r = true /\ 0 <= B2Z r <= 2 ^ scale - 2 ^ (scale - 53).
Proof.
  rewrite leb_B2Z, ltb_B2Z, B2Z_zero, B2Z_one.
  intros (_ & Nr & H0) (_ & _ & H1).
  pose proof scale_ge as HK.
  pose proof (pow2_pos scale ltac:(lia)) as HP.
  pose proof (pow2_pos (scale - 53) ltac:(lia)) as Hu.
  assert (HPu : 2 ^ scale = 2 ^ 53 * 2 ^ (scale - 53)).
  { rewrite <- (pow2_add 53 (scale - 53)) by lia. f_equal; lia. }
  assert (2 ^ scale < 2 ^ (1024 + scale)) by (apply Z.pow_lt_mono_r; lia).
  split; [apply finite_B2Z; split; [exact Nr|lia]|].
  split; [exact H0|].
  unfold B2Z in *. pose proof (FloatAxioms.Prim2SF_valid r) as V.
  destruct (Prim2SF r) as [s|s| |s m e]; cbn [sval] in *; try lia.
  - destruct s; cbn [cond_Zopp] in *; lia.
  - apply valid_finite_bounds in V as (Be & Mm & Nm & _).
    pose proof (pow2_pos (e + scale) ltac:(lia)) as HE.
    destruct s; cbn [cond_Zopp] in *; [lia|].
    destruct (Z_lt_le_dec e (-53)) as [Hlt|Hge].
    + assert (2 ^ 53 * 2 ^ (e + scale) <= 2 ^ (scale - 1)).
      { rewrite <- (pow2_add 53 (e + scale)) by lia. apply pow2_le. lia. }
      assert (2 * 2 ^ (scale - 1) = 2 ^ scale).
      { change 2 with (2 ^ 1) at 1. rewrite <- (pow2_add 1 (scale - 1)) by lia.
        f_equal; lia. }
      assert (Zpos m * 2 ^ (e + scale) <= 2 ^ 53 * 2 ^ (e + scale))
        by (apply Z.mul_le_mono_nonneg_r; lia).
      assert (2 * 2 ^ (scale - 53) <= 2 ^ (scale - 1)).
      { change 2 with (2 ^ 1) at 1. rewrite <- (pow2_add 1 (scale - 53)) by lia.
        apply pow2_le. lia. }
      lia.
    + destruct (Z.eq_dec e (-53)) as [->|Hne].
      * replace (-53 + scale) with (scale - 53) in * by lia. nia.
      * exfalso. specialize (Nm ltac:(lia)).
        assert (2 ^ scale <= 2 ^ 52 * 2 ^ (e + scale)).
        { rewrite <- (pow2_add 52 (e + scale)) by lia. apply pow2_le. lia. }
        assert (2 ^ 52 * 2 ^ (e + scale) <= Zpos m * 2 ^ (e + scale))
          by (apply Z.mul_le_mono_nonneg_r; lia).
        lia.
Qed.

(** [(r - 0.5) * 8] for [r] in [0, 1) lies in [-4, 4). *)
Theorem velocity_range (r : float) :
  (0 <=? r)%float = true -> (r <? 1)%float = true ->
  (-4 <=? (r - 0.5) * 8)%float = true /\ ((r - 0.5) * 8 <? 4)%float = true.
Proof.
  intros H0 H1. destruct (below_one r H0 H1) as (Fr & Hr0 & Hr1).
  pose proof scale_ge as HK.
  pose proof (pow2_pos (scale - 53) ltac:(lia)) as Hu.
  assert (HPu : 2 ^ scale = 2 ^ 53 * 2 ^ (scale - 53)).
  { rewrite <- (pow2_add 53 (scale - 53)) by lia. f_equal; lia. }
  set (u := 2 ^ (scale - 53)) in *. set (P := 2 ^ scale) in *.
  assert (Bh : B2Z 0.5 = 2 ^ 52 * u) by (vm_compute; reflexivity).
  assert (Bmh : B2Z (-0.5) = - (2 ^ 52 * u)) by (vm_compute; reflexivity).
  assert (Bz1 : B2Z 0x1.ffffffffffffep-2 = 2 ^ 52 * u - u)
    by (vm_compute; reflexivity).
  assert (B8 : B2Z 8 = 8 * P) by (vm_compute; reflexivity).
  assert (B4 : B2Z 4 = 4 * P) by (vm_compute; reflexivity).
  assert (Bm4 : B2Z (-4) = - (4 * P)) by (vm_compute; reflexivity).
  assert (Bz4 : B2Z 0x1.ffffffffffffep1 = 4 * P - 8 * u)
    by (vm_compute; reflexivity).
  destruct (sub_sandwich r 0.5 (-0.5) Fr eq_refl eq_refl) as (Nt & _ & L1).
  destruct (sub_sandwich r 0.5 0x1.ffffffffffffep-2 Fr eq_refl eq_refl)
    as (_ & U1 & _).
  assert (Ht1 : - (2 ^ 52 * u) <= B2Z (r - 0.5)).
  { rewrite <- Bmh. apply L1. lia. }
  assert (Ht2 : B2Z (r - 0.5) <= 2 ^ 52 * u - u).
  { rewrite <- Bz1. apply U1. lia. }
  assert (Ft : is_finite (r - 0.5) = true).
  { apply (finite_between (-0.5) 0.5); try reflexivity;
      apply leb_B2Z; repeat split; auto; lia. }
  destruct (mul_sandwich (r - 0.5) 8 (-4) Ft eq_refl eq_refl)
    as (Nv & _ & L2).
  destruct (mul_sandwich (r - 0.5) 8 0x1.ffffffffffffep1 Ft eq_refl eq_refl)
    as (_ & U2 & _).
  fold P in L2, U2.
  split.
  - apply leb_B2Z. repeat split; auto. rewrite Bm4. rewrite <- Bm4.
    apply L2. rewrite Bm4, B8. nia.
  - apply ltb_B2Z. repeat split; auto.
    assert (B2Z ((r - 0.5) * 8) <= 4 * P - 8 * u).
    { rewrite <- Bz4. apply U2. rewrite Bz4, B8. nia. }
    lia.
Qed.

(** [1.5 + r * 3] for [r] in [0, 1) lies in [1.5, 4.5]. *)
Theorem size_range (r : float) :
  (0 <=? r)%float = true -> (r <? 1)%float = true ->
  (1.5 <=? 1.5 + r * 3)%float = true /\ (1.5 + r * 3 <=? 4.5)%float = true.
Proof.
  intros H0 H1. destruct (below_one r H0 H1) as (Fr & Hr0 & Hr1).
  pose proof scale_ge as HK.
  pose proof (pow2_pos (scale - 53) ltac:(lia)) as Hu.
  pose proof (pow2_pos scale ltac:(lia)) as HP.
  assert (HP1 : 2 ^ scale = 2 * 2 ^ (scale - 1)).
  { change 2 with (2 ^ 1) at 2. rewrite <- (pow2_add 1 (scale - 1)) by lia.
    f_equal; lia. }
  set (u := 2 ^ (scale - 53)) in *. set (P := 2 ^ scale) in *.
  set (H := 2 ^ (scale - 1)) in *.
  assert (B3 : B2Z 3 = 3 * P) by (vm_compute; reflexivity).
  assert (B15 : B2Z 1.5 = 3 * H) by (vm_compute; reflexivity).
  assert (B45 : B2Z 4.5 = 9 * H) by (vm_compute; reflexivity).
  destruct (mul_sandwich r 3 0 Fr eq_refl eq_refl) as (Nw & _ & L1).
  destruct (mul_sandwich r 3 3 Fr eq_refl eq_refl) as (_ & U1 & _).
  fold P in L1, U1. rewrite B2Z_zero in L1.
  assert (Hw1 : 0 <= B2Z (r * 3)) by (apply L1; rewrite B3; nia).
  assert (Hw2 : B2Z (r * 3) <= 3 * P).
  { rewrite <- B3. apply U1. rewrite B3. nia. }
  assert (Fw : is_finite (r * 3) = true).
  { apply (finite_between 0 3); try reflexivity;
      apply leb_B2Z; repeat split; auto; rewrite ?B2Z_zero, ?B3; lia. }
  destruct (add_sandwich 1.5 (r * 3) 1.5 eq_refl Fw eq_refl) as (Ns & _ & L2).
  destruct (add_sandwich 1.5 (r * 3) 4.5 eq_refl Fw eq_refl) as (_ & U2 & _).
  split; apply leb_B2Z; repeat split; auto.
  - apply L2. lia.
  - apply U2. lia.
Qed.

(** ** [Math.floor] *)

Lemma js_floor_spec (x : float) :
  is_finite x = true ->
  exists k, js_floor x = Some k
            /\ k * 2 ^ scale <= B2Z x < (k + 1) * 2 ^ scale.
Proof.
  unfold is_finite, js_floor, B2Z. pose proof (FloatAxioms.Prim2SF_valid x) as V.
  pose proof scale_ge as HK.
  pose proof (pow2_pos scale ltac:(lia)) as HP.
  destruct (Prim2SF x) as [s|s| |s m e]; try discriminate; intros _.
  - exists 0. split; [reflexivity|]. cbn [sval]. lia.
  - apply valid_finite_bounds in V as (Be & _).
    eexists. split; [reflexivity|]. cbn [sval].
    destruct (Z.leb_spec 0 e) as [He|He].
    + rewrite (pow2_add e scale) by lia.
      pose proof (pow2_pos e He).
      destruct s; cbn [cond_Zopp]; nia.
    + pose proof (pow2_pos (- e) ltac:(lia)) as HD.
      pose proof (pow2_pos (e + scale) ltac:(lia)) as HE.
      assert (E : 2 ^ scale = 2 ^ (- e) * 2 ^ (e + scale)).
      { rewrite <- (pow2_add (- e) (e + scale)) by lia. f_equal; lia. }
      set (M := cond_Zopp s (Zpos m)).
      assert (EM : cond_Zopp s (Zpos m * 2 ^ (e + scale)) = M * 2 ^ (e + scale))
        by (unfold M; destruct s; cbn [cond_Zopp]; lia).
      rewrite EM, E.
      pose proof (Z.div_mod M (2 ^ (- e)) ltac:(lia)) as Hdm.
      pose proof (Z.mod_pos_bound M (2 ^ (- e)) HD) as Hrem.
      set (D := 2 ^ (- e)) in *. set (T := 2 ^ (e + scale)) in *.
      set (q := M / D) in *. set (rm := M mod D) in *.
      split.
      * rewrite Z.mul_assoc. apply Z.mul_le_mono_nonneg_r; lia.
      * rewrite Z.mul_assoc. apply Z.mul_lt_mono_pos_r; lia.
Qed.

(** [Math.floor(r * 5)] for [r] in [0, 1) is one of 0, 1, 2, 3, 4. *)
Theorem floor_index (r : float) :
  (0 <=? r)%float = true -> (r <? 1)%float = true ->
  exists k, js_floor (r * 5) = Some k /\ 0 <= k <= 4.
Proof.
  intros H0 H1. destruct (below_one r H0 H1) as (Fr & Hr0 & Hr1).
  pose proof scale_ge as HK.
  pose proof (pow2_pos (scale - 53) ltac:(lia)) as Hu.
  pose proof (pow2_pos scale ltac:(lia)) as HP.
  pose proof (pow2_pos (scale - 1022) ltac:(lia)) as Ht.
  assert (HPu : 2 ^ scale = 2 ^ 53 * 2 ^ (scale - 53)).
  { rewrite <- (pow2_add 53 (scale - 53)) by lia. f_equal; lia. }
  assert (Htu : 2 ^ (scale - 1022) <= 2 ^ (scale - 53)) by (apply pow2_le; lia).
  assert (B5 : B2Z 5 = 5 * 2 ^ scale) by (vm_compute; reflexivity).
  destruct (mul_sandwich r 5 0 Fr eq_refl eq_refl) as (Ny & _ & L).
  destruct (mul_sandwich r 5 5 Fr eq_refl eq_refl) as (_ & U & _).
  rewrite B2Z_zero in L.
  set (u := 2 ^ (scale - 53)) in *. set (P := 2 ^ scale) in *.
  set (t := 2 ^ (scale - 1022)) in *.
  assert (Hy0 : 0 <= B2Z (r * 5)) by (apply L; rewrite B5; nia).
  assert (Hy5 : B2Z (r * 5) <= 5 * P).
  { rewrite <- B5. apply U. rewrite B5. nia. }
  assert (HPinf : 5 * P < 2 ^ (1024 + scale)).
  { replace (1024 + scale) with (3 + (1021 + scale)) by lia.
    rewrite (pow2_add 3 (1021 + scale)) by lia.
    assert (P <= 2 ^ (1021 + scale)) by (apply pow2_le; lia).
    change (2 ^ 3) with 8. lia. }
  assert (Fy : is_finite (r * 5) = true).
  { apply finite_B2Z. split; [exact Ny|lia]. }
  pose proof (mul_error r 5 Fr eq_refl Fy) as Herr.
  fold P t in Herr. rewrite B5 in Herr.
  assert (Hlt : B2Z (r * 5) < 5 * P).
  { revert Herr Hr0 Hr1 Htu HPu Hu HP Ht.
    generalize (B2Z (r * 5)) as y. generalize (B2Z r) as br.
    clear. intros br y Herr Hr0 Hr1 Htu HPu Hu HP Ht.
    replace (y * P - br * (5 * P)) with ((y - 5 * br) * P) in Herr by ring.
    replace (br * (5 * P)) with (5 * br * P) in Herr by ring.
    rewrite (Z.abs_eq (5 * br * P)) in Herr
      by (apply Z.mul_nonneg_nonneg; lia).
    rewrite Z.abs_mul, (Z.abs_eq P) in Herr by lia.
    rewrite Z.mul_max_distr_nonneg_r, Z.mul_assoc in Herr by lia.
    apply Z.mul_le_mono_pos_r in Herr; [|exact HP].
    lia. }
  destruct (js_floor_spec (r * 5) Fy) as (k & Ek & Hk1 & Hk2).
  exists k. split; [exact Ek|]. fold P in Hk1, Hk2. split.
  - destruct (Z_lt_le_dec k 0) as [Hneg|]; [exfalso|assumption].
    assert ((k + 1) * P <= 0) by (apply Z.mul_nonpos_nonneg; lia). lia.
  - destruct (Z_lt_le_dec 4 k) as [Hbig|]; [exfalso|assumption].
    assert (5 * P <= k * P) by (apply Z.mul_le_mono_nonneg_r; lia). lia.
Qed.


End Rounding.

(** ** Initialisation in binary64: the scatter and the layout *)

Section Scatter.
Implicit Types (img : Image float) (cont : Container float).
Implicit Types (s : Board float) (p : Piece float).



End Scatter.





(** ** The life of a particle *)

Section Life.
Implicit Types (a : Particle float).

Lemma life_iter (k : nat) a :
  life (Nat.iter k ageParticle a)
  = Nat.iter k (fun l => (l - lit 15 1000)%float) (life a).
Proof. induction k as [|k IH]; [reflexivity|]. simpl. now rewrite IH. Qed.

Lemma newEffect_life (ps : Size float) (p : Piece float) (now : Z)
    (rnd : nat -> float) a :
  In a (particles (newEffect ps p now rnd)) -> life a = 1%float.
Proof.
  unfold newEffect. cbn [particles]. rewrite in_map_iff.
  now intros (j & <- & _).
Qed.

End Life.

(** C8, as the code has it.  A particle is born with life 1.  Every render
    tick of its effect replaces the life by the binary64 difference
    [life - 0.015], which is never above the life it replaces and is
    strictly below it as long as the life is at least -2^40.  So the life
    stays at most 1, but nothing keeps it at or above 0: after [k] ticks it
    is positive, and the particle painted, for every [k <= 66], and it is
    negative, and the particle not painted, for every [k >= 67].  A repaint
    at time [t0] keeps only the effects younger than 1200 ms, and once it
    has run no effect that was 1200 ms old at [t0] is in the list again,
    whatever events follow (releases being dated [t0] or later). *)
Theorem effects_age_and_expire :
  (forall (ps : Size float) (p : Piece float) (now : Z) (rnd : nat -> float)
          (a : Particle float),
      In a (particles (newEffect ps p now rnd)) -> life a = 1%float)
  /\ (forall a : Particle float,
        life (ageParticle a) = (life a - lit 15 1000)%float
        /\ (PrimFloat.is_nan (life a) = false ->
            (life (ageParticle a) <=? life a)%float = true)
        /\ ((-1099511627776 <=? life a)%float = true ->
            (life a <=? 1)%float = true ->
            (life (ageParticle a) <? life a)%float = true))
  /\ (forall (k : nat) (a : Particle float),
        life a = 1%float ->
        let a' := Nat.iter k ageParticle a in
        (life a' <=? 1)%float = true
        /\ (k <= 66 -> (0 <? life a')%float = true /\ painted a' = true)
        /\ (67 <= k -> (life a' <? 0)%float = true /\ painted a' = false))
  /\ (forall (num : Type) (HN : Number num) (HS : Sqrt num)
        (d : Difficulty) (cv : Canvas num) (img : Image num) (t0 : Z)
        (es : list Event) (s s' : Board num),
        imgObj s = Some img ->
        forallb (notBefore t0) es = true ->
        run d (Frame cv t0 :: es) s = Some s' ->
        effects (draw (Some cv) t0 s)
        = List.map ageEffect (List.filter (alive t0) (effects s))
        /\ (forall f, In f (effects (draw (Some cv) t0 s)) ->
              (t0 - startTime f < 1200)%Z)
        /\ (forall f, In f (effects s') -> (t0 - startTime f < 1200)%Z)).
Proof.
  split; [|split; [|split]].
  - exact newEffect_life.
  - intros a. split; [reflexivity|]. split.
    + intros Hn. cbn [ageParticle life].
      apply (sub_le (life a) (lit 15 1000) Hn); reflexivity.
    + intros Hlo Hhi. cbn [ageParticle life]. now apply tick_lt.
  - intros k a Ha. cbv zeta. rewrite life_iter, Ha.
    change (Nat.iter k _ 1%float) with (lifeAfter k).
    destruct (lifeAfter_sign k) as [Hpos Hneg].
    split; [apply lifeAfter_step|]. split; intros Hk.
    + split; [now apply Hpos|]. unfold painted. rewrite life_iter, Ha.
      now apply Hpos.
    + split; [now apply Hneg|]. unfold painted. rewrite life_iter, Ha.
      change (num_lt (num_of_Z 0) (Nat.iter k _ 1%float))
        with (0 <? lifeAfter k)%float.
      specialize (Hneg Hk).
      apply ltb_B2Z in Hneg as (N1 & N2 & Hlt).
      destruct (0 <? lifeAfter k)%float eqn:E; [|reflexivity].
      apply ltb_B2Z in E as (_ & _ & Hgt). lia.
  - intros num HN HS d cv img t0 es s s' Himg Hes Hrun. simpl in Hrun.
    split; [exact (draw_effects cv img t0 s Himg)|].
    split; [intros f; exact (draw_young cv img t0 s f Himg)|].
    eapply run_young; [exact Hes | | exact Hrun].
    intros f; exact (draw_young cv img t0 s f Himg).
Qed.

(** On the demo board: a repaint at t = 2200 drops the effect started at
    t = 1000; piece 7 is then locked at t = 2300 and its effect is the
    only one in the list. *)
Lemma effects_age_and_expire_witness :
  List.map startTime (effects Demo.placed7) = [2300%Z]
  /\ Forall (fun f => (2200 - startTime f < 1200)%Z) (effects Demo.placed7).
Proof.
  split; [reflexivity|]. apply List.Forall_forall.
  apply (proj2 (proj2 (proj2 effects_age_and_expire)) float _ _ EASY Demo.cv
           Demo.img 2200%Z Demo.lock7 Demo.placed8 Demo.placed7);
    vm_compute; reflexivity.
Defined.

(** C8 as stated fails on the lower bound.  Piece 8 is locked at t = 1000;
    after 67 frames, at t = 2072, its effect is still in the list (it is
    1072 ms old) and each of its 25 particles has a negative life, and is
    not painted. *)
Lemma particle_life_goes_negative :
  (fun s => List.map (fun f => (startTime f, length (particles f),
                                forallb (fun p => life p <? 0)%float
                                  (particles f),
                                existsb painted (particles f)))
              (effects s))
    <$> run EASY (Demo.lock8 ++ Demo.frames67) Demo.start
  = Some [(1000%Z, 25%nat, true, false)].
Proof. vm_compute. reflexivity. Qed.

(** ** The burst of a lock *)

(** X13.  The burst of a lock, for random numbers in [0, 1): 25 particles,
    each starting at the centre of the target cell with life 1, a velocity
    in [-4, 4) on each axis and a radius in [1.5, 4.5] (binary64; the
    radius 4.5 is reached by rounding). *)
Theorem newEffect_burst (ps : Size float) (p : Piece float) (now : Z)
    (rnd : nat -> float) :
  (forall k, (0 <=? rnd k)%float = true /\ (rnd k <? 1)%float = true) ->
  length (particles (newEffect ps p now rnd)) = 25
  /\ forall a, In a (particles (newEffect ps p now rnd)) ->
       p_x a = (targetX p + w ps / 2)%float
       /\ p_y a = (targetY p + h ps / 2)%float
       /\ life a = 1%float
       /\ (-4 <=? p_vx a)%float = true /\ (p_vx a <? 4)%float = true
       /\ (-4 <=? p_vy a)%float = true /\ (p_vy a <? 4)%float = true
       /\ (1.5 <=? size a)%float = true /\ (size a <=? 4.5)%float = true.
Proof.
  intros Hrnd. split; [reflexivity|]. intros a.
  unfold newEffect. cbn [particles]. rewrite in_map_iff.
  intros (j & <- & _). cbn [newParticle p_x p_y life p_vx p_vy size].
  destruct (Hrnd (3 * j)) as [Hx0 Hx1].
  destruct (Hrnd (3 * j + 1)) as [Hy0 Hy1].
  destruct (Hrnd (3 * j + 2)) as [Hs0 Hs1].
  destruct (velocity_range _ Hx0 Hx1) as [Vx0 Vx1].
  destruct (velocity_range _ Hy0 Hy1) as [Vy0 Vy1].
  destruct (size_range _ Hs0 Hs1) as [S0 S1].
  repeat split; assumption.
Qed.

(** With every random number at the greatest binary64 number below 1 the
    radius is 4.5 and the velocity 3.999999999999999. *)
Lemma newEffect_burst_witness :
  let rnd := fun _ : nat => 0x1.fffffffffffffp-1%float in
  let f := newEffect (mkSize 100 50)%float
             (mkPiece 5 1 1 0 0 300 200 false 5)%float 1000 rnd in
  length (particles f) = 25
  /\ Forall (fun a => p_x a = 350%float /\ p_y a = 225%float
                      /\ (p_vx a <? 4)%float = true
                      /\ size a = 4.5%float
                      /\ (size a <=? 4.5)%float = true) (particles f).
Proof.
  intros rnd f.
  destruct (newEffect_burst (mkSize 100 50)%float
              (mkPiece 5 1 1 0 0 300 200 false 5)%float 1000 rnd
              (fun _ => conj eq_refl eq_refl)) as [Hlen Hall].
  split; [exact Hlen|]. apply List.Forall_forall. intros a Ha.
  destruct (Hall a Ha) as (Hx & Hy & _ & _ & Hvx & _ & _ & _ & Hsz).
  split; [exact Hx|]. split; [exact Hy|]. split; [exact Hvx|].
  split; [|exact Hsz].
  unfold f, newEffect in Ha. cbn [particles] in Ha.
  apply in_map_iff in Ha as (j & <- & _). reflexivity.
Defined.

(** ** The ambient melody *)

(** X22.  The note of the ambient melody is always one of the five
    frequencies: for a random number in [0, 1) the binary64 product
    [Math.random() * 5] stays below 5, its floor is one of 0 .. 4, and the
    lookup never yields [undefined]. *)
Theorem melodyFreq_defined (r : float) :
  (0 <=? r)%float = true -> (r <? 1)%float = true ->
  exists fq : float, melodyFreq r = Some fq /\ In fq MELODY_FREQS.
Proof.
  intros H0 H1. destruct (floor_index r H0 H1) as (k & Hk & Hk0 & Hk4).
  unfold melodyFreq.
  change (num_floor (r * num_of_nat (length MELODY_FREQS))%num)
    with (js_floor (r * 5)%float).
  rewrite Hk. cbn [mbind option_bind].
  destruct (Z.ltb_spec k 0) as [|_]; [lia|].
  assert (Hn : Z.to_nat k < 5) by lia.
  destruct (Z.to_nat k) as [|[|[|[|[|n]]]]]; try lia;
    (eexists; split; [reflexivity|]); simpl; auto 6.
Qed.

(** The binary64 number 0.6 is 0x1.3333333333333p-1; its product with 5
    is rounded to 3: the note is A4, the fourth of the five. *)
Lemma melodyFreq_defined_witness :
  exists fq : float,
    melodyFreq 0x1.3333333333333p-1%float = Some fq /\ In fq MELODY_FREQS
    /\ fq = 440%float.
Proof.
  destruct (melodyFreq_defined 0x1.3333333333333p-1%float eq_refl eq_refl)
    as (fq & E & Hin).
  exists fq. split; [exact E|]. split; [exact Hin|].
  assert (E' : melodyFreq 0x1.3333333333333p-1%float = Some 440%float)
    by reflexivity.
  rewrite E' in E. now injection E.
Defined.

(** * Further properties of the engine *)

(** ** What one event does to the pieces *)

Section Shape.
Context {num : Type} `{!Number num} `{!Sqrt num}.
Implicit Types (s : Board num) (p q : Piece num).

(** An event keeps the list of pieces, or rewrites one unlocked piece, or
    (a rebuild) replaces the list by a new grid. *)
Lemma step_pieces d (ev : Event) s s' :
  wf s -> step d ev s = Some s' ->
  pieces s' = pieces s
  \/ (exists i p q, pieces s !! i = Some p /\ isLocked p = false
                    /\ rewritten (pieces s) p q
                    /\ pieces s' = <[i := q]> (pieces s))
  \/ (exists cont b ps rnd,
         ev = Init cont rnd
         /\ pieces s' = newPieces (grid d) cont b ps rnd).
Proof.
  intros Hwf.
  destruct ev as [img|cv cx cy|cv cx cy|now rnd|cv now|cont rnd|now];
    cbn [step].
  - intros [= <-]. now left.
  - destruct (handleStart_cases s cv cx cy (proj1 Hwf))
      as [[_ ->]|(i & p & m & Hp & Hhit & _ & _ & Hub & _ & ->)];
      intros [= <-]; [now left|].
    right; left. exists i, p, (withZIndex p (m + 1)).
    split; [exact Hp|]. split; [eapply hit_unlocked, Hhit|].
    split; [now constructor | reflexivity].
  - destruct (activePieceIndex s) as [i|] eqn:Hact.
    + destruct (wf_active s i Hwf Hact) as (p & Hp & Hfree).
      rewrite (handleMove_active s cv cx cy i p Hact Hp). intros [= <-].
      right; left. eexists i, p, _.
      split; [exact Hp|]. split; [exact Hfree|].
      split; [apply moved | reflexivity].
    + rewrite handleMove_idle by exact Hact. intros [= <-]. now left.
  - destruct (activePieceIndex s) as [i|] eqn:Hact.
    + destruct (wf_active s i Hwf Hact) as (p & Hp & Hfree).
      rewrite (handleEnd_active s i p now rnd Hact Hp).
      destruct (withinTolerance _ _); intros [= <-]; [|now left].
      right; left. exists i, p, (lockedAt p p).
      split; [exact Hp|]. split; [exact Hfree|].
      split; [apply locked | reflexivity].
    + rewrite handleEnd_idle by exact Hact. intros [= <-]. now left.
  - intros [= <-]. left. unfold draw. now destruct (imgObj s).
  - intros [= <-]. unfold initGame. destruct (imgObj s); [|now left].
    right; right. simpl. do 4 eexists. split; reflexivity.
  - intros [= <-]. now left.
Qed.

End Shape.

(** ** Stacking order and locked pieces on reachable boards *)

Section Tidy.
Context {num : Type} `{!Number num} `{!Sqrt num}.
Implicit Types (s : Board num) (p q : Piece num) (l : list (Piece num)).

Lemma tidy_nil : tidy ([] : list (Piece num)).
Proof. split; [intros i p|intros i j p q _]; now rewrite lookup_nil. Qed.

Lemma tidy_newPieces n cont b ps rnd : tidy (newPieces n cont b ps rnd).
Proof.
  split.
  - intros i p Hp. apply lookup_in, newPieces_in in Hp as (r & c & _ & _ & ->).
    repeat split; simpl; try lia; discriminate.
  - intros i j p q Hij Hp Hq _ _.
    pose proof (lookup_lt_Some _ _ _ Hp) as Hi.
    pose proof (lookup_lt_Some _ _ _ Hq) as Hj.
    rewrite newPieces_length in Hi, Hj.
    rewrite newPieces_lookup in Hp, Hq by assumption.
    injection Hp as <-. injection Hq as <-. simpl.
    assert (n <> 0) by nia.
    pose proof (Nat.div_mod_eq i n). pose proof (Nat.div_mod_eq j n). nia.
Qed.

(** Rewriting one unlocked piece keeps the board tidy. *)
Lemma tidy_insert l i p q :
  tidy l -> l !! i = Some p -> isLocked p = false -> rewritten l p q ->
  tidy (<[i := q]> l).
Proof.
  intros [Hset Hst] Hp Hfree Hq.
  pose proof (lookup_lt_Some _ _ _ Hp) as Hi.
  destruct (Hset i p Hp) as (Hz & _ & Hzero).
  assert (Hq' : settled q
                /\ forall j r, i <> j -> l !! j = Some r ->
                     isLocked q = false -> isLocked r = false ->
                     zIndex q <> zIndex r).
  { unfold settled. destruct Hq as [m Hm| |]; simpl.
    - assert (zIndex p <= m)%Z by (apply Hm; eapply lookup_in, Hp).
      split.
      + split; [lia|]. split; [congruence | intros _ E; lia].
      + intros j r _ Hr _ _.
        assert (zIndex r <= m)%Z by (apply Hm; eapply lookup_in, Hr). lia.
    - split.
      + split; [exact Hz|]. split; [congruence | exact Hzero].
      + intros j r Hij Hr _ Hrf. now apply (Hst i j p r).
    - split.
      + split; [lia|]. split; [auto | discriminate].
      + intros j r _ _ Hl. discriminate. }
  destruct Hq' as [Hsq Hdq]. split.
  - intros j r Hr. destruct (decide (i = j)) as [<-|Hij].
    + rewrite list_lookup_insert_eq in Hr by exact Hi. now injection Hr as <-.
    + rewrite list_lookup_insert_ne in Hr by exact Hij. eauto.
  - intros j k r1 r2 Hjk Hr1 Hr2 Hf1 Hf2.
    destruct (decide (i = j)) as [<-|Hij], (decide (i = k)) as [<-|Hik];
      try congruence.
    + rewrite list_lookup_insert_eq in Hr1 by exact Hi. injection Hr1 as <-.
      rewrite list_lookup_insert_ne in Hr2 by exact Hik. eauto.
    + rewrite list_lookup_insert_eq in Hr2 by exact Hi. injection Hr2 as <-.
      rewrite list_lookup_insert_ne in Hr1 by exact Hij.
      apply not_eq_sym. eauto.
    + rewrite list_lookup_insert_ne in Hr1 by exact Hij.
      rewrite list_lookup_insert_ne in Hr2 by exact Hik. eauto.
Qed.

Lemma step_tidy d (ev : Event) s s' :
  wf s -> tidy (pieces s) -> step d ev s = Some s' -> tidy (pieces s').
Proof.
  intros Hwf Ht Hs.
  destruct (step_pieces d ev s s' Hwf Hs)
    as [->|[(i & p & q & Hp & Hfree & Hq & ->)
            |(cont & b & ps & rnd & _ & ->)]].
  - exact Ht.
  - eapply tidy_insert; eauto.
  - apply tidy_newPieces.
Qed.

(** Every board reached from the mounted state is well formed and tidy. *)
Lemma run_tidy d (es : list Event) s s' :
  inv d s -> tidy (pieces s) -> run d es s = Some s' ->
  inv d s' /\ tidy (pieces s').
Proof.
  revert s. induction es as [|ev es IH]; intros s Hinv Ht; simpl.
  - now intros [= <-].
  - destruct (step_inv d ev s Hinv) as (s1 & Hs & Hinv1). rewrite Hs. simpl.
    apply IH; [exact Hinv1|]. eapply step_tidy; eauto. apply Hinv.
Qed.

Lemma reach_tidy d (es : list Event) s :
  run d es mount = Some s -> inv d s /\ tidy (pieces s).
Proof. apply run_tidy; [apply mount_inv | apply tidy_nil]. Qed.

(** X2.  On every board a mounted component can reach, each locked piece
    sits exactly on its target and has [zIndex] 0. *)
Theorem locked_pieces_on_target d (es : list Event) s i p :
  run d es mount = Some s ->
  pieces s !! i = Some p -> isLocked p = true ->
  currentX p = targetX p /\ currentY p = targetY p /\ zIndex p = 0%Z.
Proof.
  intros Hrun Hp Hl. destruct (reach_tidy d es s Hrun) as [_ [Hset _]].
  now apply (Hset i p Hp).
Qed.

(** X3.  On every reachable board no two unlocked pieces share a [zIndex]
    and no [zIndex] is negative: the piece found by a pointer-down never
    depends on how the sort orders equal keys. *)
Theorem unlocked_zIndex_distinct d (es : list Event) s i j p q :
  run d es mount = Some s ->
  i <> j -> pieces s !! i = Some p -> pieces s !! j = Some q ->
  isLocked p = false -> isLocked q = false ->
  zIndex p <> zIndex q /\ (0 <= zIndex p)%Z /\ (0 <= zIndex q)%Z.
Proof.
  intros Hrun Hij Hp Hq Hfp Hfq.
  destruct (reach_tidy d es s Hrun) as [_ [Hset Hst]].
  split; [now apply (Hst i j p q)|].
  split; [apply (Hset i p Hp) | apply (Hset j q Hq)].
Qed.

(** X4.  From the mounted state no sequence of events makes a handler read
    a piece that does not exist: every run completes, the board holds
    either no piece or the full grid, and a drag in progress points at an
    unlocked piece of the board. *)
Theorem handlers_never_throw d (es : list Event) :
  exists s,
    run d es (mount : Board num) = Some s
    /\ (pieces s = [] \/ length (pieces s) = grid d * grid d)
    /\ (forall i, activePieceIndex s = Some i ->
          exists p, pieces s !! i = Some p /\ isLocked p = false).
Proof.
  destruct (run_inv d es mount (mount_inv d)) as (s & Hrun & Hwf & _ & Hlen).
  exists s. split; [exact Hrun|]. split; [exact Hlen|].
  intros i Hi. now apply wf_active.
Qed.

End Tidy.

(** Piece 8 of the demo board, locked at t = 1000. *)
Lemma locked_pieces_on_target_witness :
  exists p,
    pieces Demo.placed8 !! 8 = Some p /\ isLocked p = true
    /\ currentX p = targetX p /\ currentY p = targetY p /\ zIndex p = 0%Z.
Proof.
  eexists. split; [reflexivity|]. split; [reflexivity|].
  apply (locked_pieces_on_target EASY
           (Loaded Demo.img :: Init Demo.cont Demo.rnd0 :: Demo.lock8)
           Demo.placed8 8);
    [vm_compute; reflexivity | reflexivity | reflexivity].
Defined.

(** Pieces 0 and 7 of the demo board after piece 8 has been locked. *)
Lemma unlocked_zIndex_distinct_witness :
  exists p q,
    pieces Demo.placed8 !! 0 = Some p /\ pieces Demo.placed8 !! 7 = Some q
    /\ zIndex p <> zIndex q /\ (0 <= zIndex p)%Z /\ (0 <= zIndex q)%Z.
Proof.
  eexists; eexists. split; [reflexivity|]. split; [reflexivity|].
  apply (unlocked_zIndex_distinct EASY
           (Loaded Demo.img :: Init Demo.cont Demo.rnd0 :: Demo.lock8)
           Demo.placed8 0 7);
    [vm_compute; reflexivity | discriminate | reflexivity | reflexivity
    | reflexivity | reflexivity].
Defined.

(** ** Releases, solved boards and the identity of pieces *)

Section Inputs.
Context {num : Type} `{!Number num} `{!Sqrt num}.
Implicit Types (s : Board num) (p q : Piece num) (l : list (Piece num)).

(** X5.  A release during a drag ends the drag and calls [onMove] exactly
    once, whether or not the piece locks; a release with no drag in
    progress - the pointer-leave that follows a pointer-up - changes
    nothing, so it is not counted as a second move. *)
Theorem release_counts_one_move s (now : Z) (rnd : nat -> num) :
  wf s ->
  exists s',
    handleEnd now rnd s = Some s'
    /\ activePieceIndex s' = None
    /\ moveCalls s'
       = moveCalls s
         + match activePieceIndex s with Some _ => 1 | None => 0 end
    /\ forall now' rnd', handleEnd now' rnd' s' = Some s'.
Proof.
  intros Hwf. destruct (activePieceIndex s) as [i|] eqn:Hact.
  - destruct (wf_active s i Hwf Hact) as (p & Hp & _).
    rewrite (handleEnd_active s i p now rnd Hact Hp).
    eexists. split; [reflexivity|]. split; [reflexivity|]. split.
    + destruct (withinTolerance _ _); simpl; lia.
    + intros now' rnd'. now apply handleEnd_idle.
  - rewrite handleEnd_idle by exact Hact. exists s.
    split; [reflexivity|]. split; [exact Hact|]. split; [lia|].
    intros now' rnd'. now apply handleEnd_idle.
Qed.

Lemma allLocked_idle s : wf s -> allLocked s = true -> activePieceIndex s = None.
Proof.
  intros Hwf Hall. destruct (activePieceIndex s) as [i|] eqn:Hact; [|reflexivity].
  destruct (wf_active s i Hwf Hact) as (p & Hp & Hfree).
  rewrite (unlocked_not_all s i p Hp Hfree) in Hall. discriminate.
Qed.

(** X6.  A board on which every piece is locked ignores the pointer: any
    sequence of pointer-downs, moves and releases leaves it exactly as it
    is (no piece is picked, no move is counted, no timer is started). *)
Theorem solved_board_is_inert d (es : list Event) s :
  wf s -> allLocked s = true -> forallb isInput es = true ->
  run d es s = Some s.
Proof.
  intros Hwf Hall. pose proof (allLocked_idle s Hwf Hall) as Hidle.
  induction es as [|ev es IH]; simpl; [reflexivity|].
  intros Hes. apply andb_true_iff in Hes as [Hev Hes].
  assert (Hstep : step d ev s = Some s).
  { destruct ev as [img|cv cx cy|cv cx cy|now rnd|cv now|cont rnd|now];
      try discriminate; cbn [step].
    - destruct (handleStart_cases s cv cx cy (proj1 Hwf))
        as [[_ E]|(i & p & m & Hp & Hhit & _)]; [exact E|].
      apply hit_unlocked in Hhit.
      rewrite (unlocked_not_all s i p Hp Hhit) in Hall. discriminate.
    - now apply handleMove_idle.
    - now apply handleEnd_idle. }
  rewrite Hstep. simpl. now apply IH.
Qed.

Lemma sameIdentity_refl p : sameIdentity p p.
Proof. now repeat split. Qed.

Lemma sameIdentity_trans p q r :
  sameIdentity p q -> sameIdentity q r -> sameIdentity p r.
Proof. unfold sameIdentity. intros (?&?&?&?&?) (?&?&?&?&?). repeat split; congruence. Qed.

Lemma rewritten_identity l p q : rewritten l p q -> sameIdentity p q.
Proof. destruct 1; now repeat split. Qed.

(** X7.  During one puzzle instance (pointer inputs, repaints, timers: no
    rebuild) no event touches the identity of a piece: the piece stored at
    each index keeps its [id], [row], [col], [targetX] and [targetY], and
    the number of pieces stays the same. *)
Theorem piece_identity_is_immutable d (es : list Event) s :
  inv d s -> forallb inInstance es = true ->
  exists s',
    run d es s = Some s'
    /\ length (pieces s') = length (pieces s)
    /\ forall i p, pieces s !! i = Some p ->
         exists p', pieces s' !! i = Some p' /\ sameIdentity p p'.
Proof.
  revert s. induction es as [|ev es IH]; intros s Hinv Hes; simpl.
  - exists s. split; [reflexivity|]. split; [reflexivity|].
    intros i p Hp. exists p. split; [exact Hp | apply sameIdentity_refl].
  - simpl in Hes. apply andb_true_iff in Hes as [Hev Hes].
    destruct (step_inv d ev s Hinv) as (s1 & Hs & Hinv1). rewrite Hs. simpl.
    destruct (IH s1 Hinv1 Hes) as (s' & Hrun & Hlen & Hid).
    exists s'. split; [exact Hrun|].
    assert (Hone : length (pieces s1) = length (pieces s)
                   /\ forall i p, pieces s !! i = Some p ->
                        exists p1, pieces s1 !! i = Some p1
                                   /\ sameIdentity p p1).
    { destruct (step_pieces d ev s s1 (proj1 Hinv) Hs)
        as [E|[(i & p & q & Hp & _ & Hq & E)|(cont & b & ps & rnd & E & _)]].
      - rewrite E. split; [reflexivity|]. intros i p Hp. exists p.
        split; [exact Hp | apply sameIdentity_refl].
      - rewrite E, length_insert. split; [reflexivity|]. intros j r Hr.
        destruct (decide (i = j)) as [<-|Hij].
        + exists q. rewrite list_lookup_insert_eq
            by (eapply lookup_lt_Some, Hp).
          split; [reflexivity|]. assert (r = p) by congruence. subst r.
          eapply rewritten_identity, Hq.
        + exists r. rewrite list_lookup_insert_ne by exact Hij.
          split; [exact Hr | apply sameIdentity_refl].
      - subst ev. discriminate. }
    destruct Hone as [Hl1 Hid1]. split; [congruence|].
    intros i p Hp. destruct (Hid1 i p Hp) as (p1 & Hp1 & H1).
    destruct (Hid i p1 Hp1) as (p' & Hp' & H').
    exists p'. split; [exact Hp' | eapply sameIdentity_trans; eauto].
Qed.

End Inputs.

(** Piece 8 of the demo board is released on its target: one move. *)
Lemma release_counts_one_move_witness :
  exists s',
    handleEnd 1000 Demo.rndHalf Demo.dragging8 = Some s'
    /\ activePieceIndex s' = None
    /\ moveCalls s' = moveCalls Demo.dragging8 + 1
    /\ forall now' rnd', handleEnd now' rnd' s' = Some s'.
Proof.
  apply (release_counts_one_move Demo.dragging8 1000 Demo.rndHalf).
  split; reflexivity.
Defined.

(** The solved demo board, poked and dragged at. *)
Lemma solved_board_is_inert_witness :
  run EASY Demo.pokeLocked Demo.solved = Some Demo.solved.
Proof.
  apply (solved_board_is_inert EASY Demo.pokeLocked Demo.solved);
    [split; [reflexivity | exact I] | reflexivity | reflexivity].
Defined.

(** The nine pieces of the demo board, from the scatter to the solved
    board. *)
Lemma piece_identity_is_immutable_witness :
  exists s',
    run EASY Demo.solveAll Demo.start = Some s'
    /\ length (pieces s') = length (pieces Demo.start)
    /\ forall i p, pieces Demo.start !! i = Some p ->
         exists p', pieces s' !! i = Some p' /\ sameIdentity p p'.
Proof.
  apply (piece_identity_is_immutable EASY Demo.solveAll Demo.start);
    [|reflexivity].
  split; [split; [reflexivity | exact I]|].
  split; [discriminate | right; reflexivity].
Defined.

(** ** The paint order of [draw] *)

Section Paint.
Context {num : Type} `{!Number num}.
Implicit Types (s : Board num) (p q : Piece num) (l : list (Piece num)).

Lemma insertAsc_perm p l : Permutation (insertAsc p l) (p :: l).
Proof.
  induction l as [|q l IH]; simpl; [reflexivity|].
  destruct (zIndex q <? zIndex p)%Z; [|reflexivity].
  rewrite IH. apply perm_swap.
Qed.

Lemma sortAsc_perm l : Permutation (sortAsc l) l.
Proof.
  induction l as [|p l IH]; simpl; [reflexivity|].
  rewrite insertAsc_perm. now constructor.
Qed.

Lemma insertAsc_sorted p l :
  StronglySorted (fun a b => above b a) l ->
  StronglySorted (fun a b => above b a) (insertAsc p l).
Proof.
  induction 1 as [|q l Hs IH Hq]; simpl.
  - repeat constructor.
  - destruct (zIndex q <? zIndex p)%Z eqn:E.
    + constructor; [exact IH|].
      apply Z.ltb_lt in E.
      eapply Permutation_Forall; [symmetry; apply insertAsc_perm|].
      constructor; [unfold above; lia | exact Hq].
    + apply Z.ltb_ge in E.
      constructor; [now constructor|].
      constructor; [exact E|].
      eapply List.Forall_impl; [|exact Hq].
      unfold above; intros; simpl in *; lia.
Qed.

(** The paint order is a rearrangement of the pieces by ascending
    [zIndex]. *)
Lemma sortAsc_sorted l : StronglySorted (fun a b => above b a) (sortAsc l).
Proof.
  induction l as [|p l IH]; simpl; [constructor|].
  now apply insertAsc_sorted.
Qed.

(** A piece above all the others goes to the end. *)
Lemma insertAsc_top p l :
  Forall (fun r => (zIndex r < zIndex p)%Z) l -> insertAsc p l = l ++ [p].
Proof.
  induction 1 as [|q l Hq _ IH]; simpl; [reflexivity|].
  apply Z.ltb_lt in Hq. now rewrite Hq, IH.
Qed.

Lemma insertAsc_below q l p :
  (zIndex q < zIndex p)%Z ->
  insertAsc q (l ++ [p]) = insertAsc q l ++ [p].
Proof.
  intros Hq. induction l as [|r l IH]; simpl.
  - replace (zIndex p <? zIndex q)%Z with false
      by (symmetry; apply Z.ltb_ge; lia). reflexivity.
  - destruct (zIndex r <? zIndex q)%Z; [now rewrite IH | reflexivity].
Qed.

Lemma sortAsc_top l1 p l2 :
  Forall (fun r => (zIndex r < zIndex p)%Z) l1 ->
  Forall (fun r => (zIndex r < zIndex p)%Z) l2 ->
  exists l', sortAsc (l1 ++ p :: l2) = l' ++ [p].
Proof.
  intros H1 H2. induction H1 as [|q l1 Hq _ IH]; simpl.
  - exists (sortAsc l2). apply insertAsc_top.
    eapply Permutation_Forall; [symmetry; apply sortAsc_perm | exact H2].
  - destruct IH as [l' ->]. exists (insertAsc q l').
    now apply insertAsc_below.
Qed.

(** X8.  The piece picked by a pointer-down is on top of the next frame:
    its [zIndex] is strictly above that of every other piece, it is the
    last piece of the paint order of [draw], and it is the one piece
    painted as dragged (scaled, with the accent border). *)
Theorem picked_piece_is_painted_last s (cv : Canvas num) (cx cy : num) s' :
  wf s ->
  handleStart (Some cv) cx cy s = Some s' ->
  s' = s
  \/ exists i p below,
       activePieceIndex s' = Some i
       /\ pieces s' !! i = Some p
       /\ sortedPieces s' = below ++ [p]
       /\ isDragging s' p = Some true
       /\ border s' p = Some Accent
       /\ forall j q, j <> i -> pieces s' !! j = Some q ->
            (zIndex q < zIndex p)%Z /\ isDragging s' q = Some false.
Proof.
  intros Hwf.
  destruct (handleStart_cases s cv cx cy (proj1 Hwf))
    as [[_ ->]|(i & p & m & Hp & Hhit & _ & _ & Hub & _ & ->)];
    intros [= <-]; [now left|].
  right. pose proof (lookup_lt_Some _ _ _ Hp) as Hi.
  apply hit_unlocked in Hhit.
  set (p1 := withZIndex p (m + 1)).
  assert (Hothers : forall j q, j <> i ->
            <[i := p1]> (pieces s) !! j = Some q ->
            pieces s !! j = Some q /\ (zIndex q < zIndex p1)%Z).
  { intros j q Hj Hq. rewrite list_lookup_insert_ne in Hq by congruence.
    split; [exact Hq|]. simpl.
    assert (zIndex q <= m)%Z by (apply Hub; eapply lookup_in, Hq). lia. }
  assert (Hlow : forall l', (forall q, In q l' -> In q (pieces s)) ->
            Forall (fun r => (zIndex r < zIndex p1)%Z) l').
  { intros l' Hl'. apply List.Forall_forall. intros q Hq. simpl.
    assert (zIndex q <= m)%Z by (apply Hub, Hl', Hq). lia. }
  destruct (sortAsc_top (take i (pieces s)) p1 (drop (S i) (pieces s)))
    as [below Hbelow].
  { apply Hlow. intros q Hq. rewrite <- (take_drop i (pieces s)).
    apply in_or_app. now left. }
  { apply Hlow. intros q Hq. rewrite <- (take_drop (S i) (pieces s)).
    apply in_or_app. now right. }
  exists i, p1, below. simpl.
  assert (Hat : <[i := p1]> (pieces s) !! i = Some p1)
    by now apply list_lookup_insert_eq.
  split; [reflexivity|]. split; [exact Hat|]. split.
  - unfold sortedPieces. simpl. rewrite insert_take_drop by exact Hi.
    exact Hbelow.
  - assert (Hdrag : isDragging
              {| pieces := <[i := p1]> (pieces s); imgObj := imgObj s;
                 activePieceIndex := Some i;
                 dragOffset := mkOffset (toCanvasX cv cx - currentX p)%num
                                        (toCanvasY cv cy - currentY p)%num;
                 boardSize := boardSize s; pieceSize := pieceSize s;
                 effects := effects s; solvedTimers := solvedTimers s;
                 solvedCalls := solvedCalls s; moveCalls := moveCalls s |}
              p1 = Some true).
    { unfold isDragging. simpl. rewrite Hat. simpl. now rewrite Nat.eqb_refl. }
    split; [exact Hdrag|]. split.
    + unfold border. rewrite Hdrag. simpl. now rewrite Hhit.
    + intros j q Hj Hq. destruct (Hothers j q Hj Hq) as [Hq0 Hlt].
      split; [exact Hlt|]. unfold isDragging. simpl. rewrite Hat. simpl.
      f_equal. apply Nat.eqb_neq.
      rewrite (ids_lookup _ _ _ (proj1 Hwf) Hp).
      rewrite (ids_lookup _ _ _ (proj1 Hwf) Hq0). congruence.
Qed.

End Paint.

(** On the demo board the pointer-down at (1, 1) picks piece 8, which is
    then the last piece of the paint order. *)
Lemma picked_piece_is_painted_last_witness :
  List.map id (sortedPieces Demo.dragging8) = [0; 1; 2; 3; 4; 5; 6; 7; 8]
  /\ (exists s', handleStart (Some Demo.cv) 1%float 1%float Demo.start = Some s'
       /\ (s' = Demo.start
           \/ exists i p below,
                activePieceIndex s' = Some i
                /\ pieces s' !! i = Some p
                /\ sortedPieces s' = below ++ [p]
                /\ isDragging s' p = Some true
                /\ border s' p = Some Accent
                /\ forall j q, j <> i -> pieces s' !! j = Some q ->
                     (zIndex q < zIndex p)%Z
                     /\ isDragging s' q = Some false)).
Proof.
  split; [reflexivity|].
  eexists. split; [reflexivity|].
  apply (picked_piece_is_painted_last Demo.start Demo.cv 1%float 1%float);
    [split; [reflexivity | exact I] | reflexivity].
Defined.

(** ** Locked pieces in the paint order *)

Section PaintLocked.
Context {num : Type} `{!Number num} `{!Sqrt num}.
Implicit Types (s : Board num) (p q : Piece num) (l : list (Piece num)).

(** In a list sorted by ascending [zIndex] a piece of smaller [zIndex]
    stands before a piece of greater [zIndex]. *)
Lemma sorted_before l p q :
  StronglySorted (fun a b => above b a) l ->
  In p l -> In q l -> (zIndex q < zIndex p)%Z ->
  exists l1 l2 l3, l = l1 ++ q :: l2 ++ p :: l3.
Proof.
  intros Hs Hp Hq Hlt. apply in_split in Hq as (l1 & r & ->).
  exists l1. apply in_app_or in Hp as [Hp|[E|Hp]].
  - exfalso. induction l1 as [|a l1 IH]; [destruct Hp|].
    simpl in Hs. inversion Hs as [|? ? Hs' Hall]; subst.
    destruct Hp as [->|Hp]; [|now apply IH].
    rewrite List.Forall_forall in Hall.
    assert (above q p) by (apply Hall, in_or_app; right; now left).
    unfold above in *. lia.
  - subst. lia.
  - apply in_split in Hp as (l2 & l3 & ->). now exists l2, l3.
Qed.

(** X9.  On every reachable board each locked piece is painted before -
    so beneath - every unlocked piece other than piece 0. *)
Theorem locked_pieces_painted_beneath d (es : list Event) s p q :
  run d es mount = Some s ->
  In p (pieces s) -> In q (pieces s) ->
  isLocked q = true -> isLocked p = false -> id p <> 0 ->
  exists l1 l2 l3, sortedPieces s = l1 ++ q :: l2 ++ p :: l3.
Proof.
  intros Hrun Hp Hq Hql Hpf Hid.
  destruct (reach_tidy d es s Hrun) as [_ [Hset _]].
  destruct (in_lookup _ _ Hp) as [i Hi]. destruct (in_lookup _ _ Hq) as [j Hj].
  destruct (Hset i p Hi) as (Hp0 & _ & Hpz).
  destruct (Hset j q Hj) as (_ & Hqz & _). destruct (Hqz Hql) as (_ & _ & Hq0).
  apply sorted_before.
  - apply sortAsc_sorted.
  - eapply Permutation_in; [symmetry; apply sortAsc_perm | exact Hp].
  - eapply Permutation_in; [symmetry; apply sortAsc_perm | exact Hq].
  - rewrite Hq0. destruct (Z.eq_dec (zIndex p) 0%Z) as [E|E]; [|lia].
    now specialize (Hpz Hpf E).
Qed.

(** X10.  The exception: as long as piece 0 has [zIndex] 0 - it has never
    been picked, or it is locked - it is the first piece painted, so every
    other piece, the locked ones too, is painted over it. *)
Theorem piece_zero_is_painted_first d (es : list Event) s p :
  run d es mount = Some s ->
  pieces s !! 0 = Some p -> zIndex p = 0%Z ->
  exists rest, sortedPieces s = p :: rest.
Proof.
  intros Hrun Hp Hz. destruct (reach_tidy d es s Hrun) as [_ [Hset _]].
  unfold sortedPieces. destruct (pieces s) as [|p0 l] eqn:E; [discriminate|].
  injection Hp as ->. simpl. exists (sortAsc l).
  assert (Hall : Forall (fun r => (0 <= zIndex r)%Z) (sortAsc l)).
  { eapply Permutation_Forall; [symmetry; apply sortAsc_perm|].
    apply List.Forall_forall. intros r Hr.
    destruct (in_lookup _ _ Hr) as [k Hk].
    apply (Hset (S k) r). exact Hk. }
  destruct (sortAsc l) as [|r t]; [reflexivity|]. simpl.
  inversion Hall; subst.
  replace (zIndex r <? zIndex p)%Z with false; [reflexivity|].
  symmetry. apply Z.ltb_ge. lia.
Qed.

End PaintLocked.

(** On the demo board with piece 8 locked: piece 7 is painted after it. *)
Lemma locked_pieces_painted_beneath_witness :
  exists p q l1 l2 l3,
    pieces Demo.placed8 !! 7 = Some p /\ pieces Demo.placed8 !! 8 = Some q
    /\ sortedPieces Demo.placed8 = l1 ++ q :: l2 ++ p :: l3.
Proof.
  destruct (locked_pieces_painted_beneath EASY
              (Loaded Demo.img :: Init Demo.cont Demo.rnd0 :: Demo.lock8)
              Demo.placed8
              (mkPiece 7 2 1 0%float 0%float 372.5%float 385%float false 7)
              (mkPiece 8 2 2 627.5%float 385%float 627.5%float 385%float
                 true 0))
    as (l1 & l2 & l3 & E);
    [vm_compute; reflexivity
    | do 7 right; left; reflexivity
    | do 8 right; left; reflexivity
    | reflexivity | reflexivity | discriminate | ].
  eexists; eexists; exists l1, l2, l3.
  split; [reflexivity|]. split; [reflexivity | exact E].
Defined.

(** On the same board piece 0, still unlocked at the origin, is painted
    first: the locked piece 8 comes after it. *)
Lemma piece_zero_is_painted_first_witness :
  exists p rest,
    pieces Demo.placed8 !! 0 = Some p /\ isLocked p = false
    /\ sortedPieces Demo.placed8 = p :: rest.
Proof.
  destruct (piece_zero_is_painted_first EASY
              (Loaded Demo.img :: Init Demo.cont Demo.rnd0 :: Demo.lock8)
              Demo.placed8
              (mkPiece 0 0 0 0%float 0%float 117.5%float 45%float false 0))
    as (rest & E); [vm_compute; reflexivity | reflexivity | reflexivity |].
  eexists; exists rest. split; [reflexivity|]. split; [reflexivity | exact E].
Defined.

(** ** A drag follows the pointer *)

Section Drag.
Context {num : Type} `{!Number num} `{!Sqrt num}.
Implicit Types (s : Board num) (cv : Canvas num) (p q : Piece num).

(** A run ends with its last event. *)
Lemma run_snoc d (es : list Event) (e : Event) s :
  run d (es ++ [e]) s = s' ← run d es s; step d e s'.
Proof.
  revert s. induction es as [|e0 es IH]; simpl; intros s.
  - now destruct (step d e s).
  - destruct (step d e0 s); simpl; [apply IH | reflexivity].
Qed.

(** During a drag of piece [i] a sequence of pointer-moves changes only
    the position of that piece. *)
Lemma moves_keep_the_drag d (path : list Event) s i p :
  activePieceIndex s = Some i -> pieces s !! i = Some p ->
  forallb isMove path = true ->
  exists a b,
    run d path s
    = Some (withPieces s (<[i := withCurrent p a b]> (pieces s))).
Proof.
  intros Hact Hp.
  induction path as [|ev path IH] using rev_ind; intros Hpath.
  - exists (currentX p), (currentY p). simpl. f_equal.
    replace (withCurrent p (currentX p) (currentY p)) with p
      by now destruct p.
    rewrite list_insert_id by exact Hp. now destruct s.
  - rewrite forallb_app in Hpath. apply andb_true_iff in Hpath as [Hpath Hev].
    destruct (IH Hpath) as (a & b & Hrun).
    simpl in Hev. rewrite andb_true_r in Hev.
    destruct ev as [| |cv cx cy| | | |]; try discriminate Hev.
    rewrite run_snoc, Hrun. cbn [mbind option_bind step].
    set (s1 := withPieces s (<[i := withCurrent p a b]> (pieces s))).
    assert (Hp1 : pieces s1 !! i = Some (withCurrent p a b)).
    { apply list_lookup_insert_eq. eapply lookup_lt_Some, Hp. }
    rewrite (handleMove_active s1 cv cx cy i _ Hact Hp1).
    eexists; eexists. f_equal. unfold s1. cbn [pieces withPieces].
    rewrite list_insert_insert_eq. reflexivity.
Qed.

End Drag.

(** X11.  A dragged piece follows the pointer, along any path.  After a
    pointer-down has picked piece [p], any sequence of pointer-moves ends
    with the board that its last move alone would give: the piece at
    [clamp (pointer - (pointer at the pick - position at the pick))] on
    each axis, in canvas coordinates, and nothing else changed.  Each move
    recomputes the position from the stored offset, so the arithmetic of
    the moves before it leaves no trace. *)
Theorem drag_follows_pointer {num : Type} `{!Number num} `{!Sqrt num}
    (d : Difficulty) (s : Board num) (cv0 : Canvas num) (cx0 cy0 : num)
    (s1 : Board num) :
  wf s ->
  handleStart (Some cv0) cx0 cy0 s = Some s1 ->
  s1 = s
  \/ exists i p,
       pieces s !! i = Some p /\ activePieceIndex s1 = Some i
       /\ forall (path : list Event) (cv : Canvas num) (cx cy : num),
            forallb isMove path = true ->
            exists s2 p2,
              run d (path ++ [PointerMove cv cx cy]) s1 = Some s2
              /\ handleMove (Some cv) cx cy s1 = Some s2
              /\ pieces s2 !! i = Some p2
              /\ currentX p2
                 = (clamp (canvas_width cv - w (pieceSize s))
                      (toCanvasX cv cx
                       - (toCanvasX cv0 cx0 - currentX p)))%num
              /\ currentY p2
                 = (clamp (canvas_height cv - h (pieceSize s))
                      (toCanvasY cv cy
                       - (toCanvasY cv0 cy0 - currentY p)))%num
              /\ (forall j, j <> i -> pieces s2 !! j = pieces s !! j).
Proof.
  intros [Hids _] Hstart.
  destruct (handleStart_cases s cv0 cx0 cy0 Hids)
    as [[_ E]|(i & p & m & Hp & _ & _ & _ & _ & _ & E)];
    rewrite E in Hstart; injection Hstart as <-; [now left|right].
  exists i, p. split; [exact Hp|]. split; [reflexivity|].
  intros path cv cx cy Hpath.
  set (s1 := mkBoard _ _ _ _ _ _ _ _ _ _).
  assert (Hlt : i < length (pieces s)) by (eapply lookup_lt_Some, Hp).
  assert (Hp1 : pieces s1 !! i = Some (withZIndex p (m + 1))).
  { unfold s1. cbn [pieces]. now apply list_lookup_insert_eq. }
  assert (Hact : activePieceIndex s1 = Some i) by reflexivity.
  destruct (moves_keep_the_drag d path s1 i _ Hact Hp1 Hpath)
    as (a0 & b0 & Hrun0).
  rewrite run_snoc, Hrun0. cbn [mbind option_bind step].
  set (s0 := withPieces s1 _) in *.
  assert (Hp0 : pieces s0 !! i
                = Some (withCurrent (withZIndex p (m + 1)) a0 b0)).
  { unfold s0. cbn [pieces withPieces]. apply list_lookup_insert_eq.
    unfold s1. cbn [pieces]. now rewrite length_insert. }
  rewrite (handleMove_active s0 cv cx cy i _ Hact Hp0).
  rewrite (handleMove_active s1 cv cx cy i _ Hact Hp1).
  eexists; eexists. split; [reflexivity|].
  split.
  { f_equal. unfold s0. cbn [pieces withPieces pieceSize dragOffset].
    rewrite list_insert_insert_eq. reflexivity. }
  split.
  { cbn [pieces withPieces]. apply list_lookup_insert_eq.
    unfold s0, s1. cbn [pieces withPieces]. now rewrite !length_insert. }
  split; [reflexivity|]. split; [reflexivity|].
  intros j Hj. cbn [pieces withPieces]. unfold s0, s1.
  cbn [pieces withPieces].
  now rewrite !list_lookup_insert_ne by congruence.
Qed.

(** On the demo board the pointer-down at (1, 1) picks piece 8; after three
    moves it lies where the pointer is, at (500, 300) less the offset
    (1, 1), as after the last move alone. *)
Lemma drag_follows_pointer_witness :
  exists s1 s2 p2,
    handleStart (Some Demo.cv) 1%float 1%float Demo.start = Some s1
    /\ run EASY [PointerMove Demo.cv 700 20; PointerMove Demo.cv 3 599;
                 PointerMove Demo.cv 500 300]%float s1 = Some s2
    /\ handleMove (Some Demo.cv) 500%float 300%float s1 = Some s2
    /\ pieces s2 !! 8 = Some p2
    /\ currentX p2 = 499%float /\ currentY p2 = 299%float.
Proof.
  destruct (drag_follows_pointer EASY Demo.start Demo.cv 1%float 1%float
              (Demo.orElse Demo.start
                 (handleStart (Some Demo.cv) 1%float 1%float Demo.start)))
    as [E|(i & p & Hp & Hact & Hall)];
    [split; [reflexivity | exact I] | vm_compute; reflexivity
    | discriminate E |].
  destruct (Hall [PointerMove Demo.cv 700 20; PointerMove Demo.cv 3 599]%float
              Demo.cv 500%float 300%float eq_refl)
    as (s2 & p2 & Hrun & Hone & _).
  eexists; exists s2; eexists.
  split; [vm_compute; reflexivity|]. split; [exact Hrun|].
  split; [exact Hone|].
  assert (E2 : Some s2 = handleMove (Some Demo.cv) 500%float 300%float
                 (Demo.orElse Demo.start
                    (handleStart (Some Demo.cv) 1%float 1%float Demo.start)))
    by (symmetry; exact Hone).
  vm_compute in E2. injection E2 as ->.
  repeat split; reflexivity.
Defined.

(** ** The clock of the header *)

Section Clock.
Local Open Scope string_scope.

Lemma string_of_uint_colonFree (u : Decimal.uint) :
  colonFree (NilEmpty.string_of_uint u).
Proof. induction u; simpl; auto; split; auto; discriminate. Qed.

Lemma toString_inj (a b : nat) : toString a = toString b -> a = b.
Proof.
  unfold toString. intros E.
  apply (f_equal NilEmpty.uint_of_string) in E.
  rewrite !NilEmpty.usu in E. injection E as E.
  now apply DecimalNat.Unsigned.to_uint_inj.
Qed.

(** Two strings cut at their first colon agree part by part. *)
Lemma split_at_colon (a a' b b' : string) :
  colonFree a -> colonFree a' ->
  a ++ ":" ++ b = a' ++ ":" ++ b' -> a = a' /\ b = b'.
Proof.
  revert a'. induction a as [|c a IH]; intros [|c' a'] Ha Ha'; simpl.
  - intros [= ->]. auto.
  - intros [= <- _]. now destruct Ha'.
  - intros [= -> _]. now destruct Ha.
  - intros [= -> E]. destruct Ha as [_ Ha], Ha' as [_ Ha'].
    destruct (IH a' Ha Ha' E) as [-> ->]. auto.
Qed.

Lemma string_length_app (t u : string) :
  String.length (t ++ u) = String.length t + String.length u.
Proof. induction t as [|c t IH]; simpl; [reflexivity | now rewrite IH]. Qed.

(** The seconds field, for each of the sixty values it can take. *)
Lemma seconds_field (k : nat) :
  k < 60 ->
  padStart 2 "0"%char (toString k)
  = String (digit (k / 10)) (String (digit (k mod 10)) "").
Proof.
  intros Hk.
  assert (Hall : forallb
            (fun k => String.eqb (padStart 2 "0"%char (toString k))
                        (String (digit (k / 10))
                           (String (digit (k mod 10)) "")))
            (seq 0 60) = true) by (vm_compute; reflexivity).
  rewrite forallb_forall in Hall. apply String.eqb_eq, Hall, in_seq. lia.
Qed.

Lemma digit_inj (a b : nat) : a < 10 -> b < 10 -> digit a = digit b -> a = b.
Proof.
  unfold digit. intros Ha Hb E.
  apply (f_equal Ascii.nat_of_ascii) in E.
  rewrite !Ascii.nat_ascii_embedding in E by lia. lia.
Qed.

(** X17.  The clock shows minutes, a colon and the seconds on exactly two
    digits: [formatTime n] is the decimal of [n / 60], ":", the tens digit
    and the units digit of [n mod 60]. *)
Theorem formatTime_two_digit_seconds (n : nat) :
  formatTime n
  = toString (n / 60) ++ ":"
    ++ String (digit (n mod 60 / 10)) (String (digit (n mod 60 mod 10)) "")
  /\ String.length (formatTime n) = String.length (toString (n / 60)) + 3.
Proof.
  assert (E : formatTime n
              = toString (n / 60) ++ ":"
                ++ String (digit (n mod 60 / 10))
                     (String (digit (n mod 60 mod 10)) "")).
  { unfold formatTime. cbv zeta. rewrite seconds_field; [reflexivity|].
    apply Nat.mod_upper_bound. discriminate. }
  split; [exact E|]. rewrite E, string_length_app. reflexivity.
Qed.

(** X18.  Two different times are never shown alike: [formatTime] is
    injective. *)
Theorem formatTime_injective (a b : nat) :
  formatTime a = formatTime b -> a = b.
Proof.
  intros E.
  rewrite (proj1 (formatTime_two_digit_seconds a)) in E.
  rewrite (proj1 (formatTime_two_digit_seconds b)) in E.
  apply split_at_colon in E as [Em Es];
    try apply string_of_uint_colonFree.
  apply toString_inj in Em.
  assert (Et : digit (a mod 60 / 10) = digit (b mod 60 / 10)) by congruence.
  assert (Eu : digit (a mod 60 mod 10) = digit (b mod 60 mod 10))
    by congruence.
  clear Es.
  assert (Ha : a mod 60 < 60) by (apply Nat.mod_upper_bound; discriminate).
  assert (Hb : b mod 60 < 60) by (apply Nat.mod_upper_bound; discriminate).
  apply digit_inj in Et;
    [|apply Nat.Div0.div_lt_upper_bound; lia
     |apply Nat.Div0.div_lt_upper_bound; lia].
  apply digit_inj in Eu; [|apply Nat.mod_upper_bound; discriminate
                          |apply Nat.mod_upper_bound; discriminate].
  assert (Es : a mod 60 = b mod 60).
  { rewrite (Nat.div_mod_eq (a mod 60) 10), (Nat.div_mod_eq (b mod 60) 10).
    congruence. }
  rewrite (Nat.div_mod_eq a 60), (Nat.div_mod_eq b 60). congruence.
Qed.

End Clock.

Lemma formatTime_injective_witness : 605 = 605.
Proof. apply formatTime_injective. reflexivity. Defined.

Example formatTime_samples :
  formatTime 0 = "0:00"%string /\ formatTime 59 = "0:59"%string
  /\ formatTime 60 = "1:00"%string /\ formatTime 605 = "10:05"%string
  /\ formatTime 3725 = "62:05"%string.
Proof. repeat split; reflexivity. Qed.

(** ** Repaints, effects and the count of moves *)

Section Account.
Context {num : Type} `{!Number num} `{!Sqrt num}.
Implicit Types (s : Board num) (p q : Piece num) (f : VisualEffect num).

(** A repaint touches nothing but the effect list, never adds an
    effect, and changes nothing at all on a board without effects. *)
Theorem repaint_touches_only_effects (cv : option (Canvas num)) (now : Z) s :
  let s' := draw cv now s in
  pieces s' = pieces s /\ activePieceIndex s' = activePieceIndex s
  /\ dragOffset s' = dragOffset s /\ boardSize s' = boardSize s
  /\ pieceSize s' = pieceSize s /\ imgObj s' = imgObj s
  /\ solvedTimers s' = solvedTimers s /\ solvedCalls s' = solvedCalls s
  /\ moveCalls s' = moveCalls s
  /\ length (effects s') <= length (effects s)
  /\ (effects s = [] -> s' = s).
Proof.
  unfold draw. destruct cv as [c|], (imgObj s) as [img|] eqn:Himg;
    try (repeat split; auto; fail).
  simpl. repeat split; auto.
  - rewrite length_map. apply filter_length_le.
  - intros E. destruct s. simpl in *. subst. reflexivity.
Qed.

Lemma marks_frozen s s' f : frozen s s' -> marks s f -> marks s' f.
Proof.
  intros Hfr (Hlen & i & p & Hp & Hl & Hx & Hy).
  split; [exact Hlen|]. exists i, p. split; [now apply Hfr | auto].
Qed.

Lemma marks_same s s' f : pieces s' = pieces s -> marks s f -> marks s' f.
Proof. intros E. unfold marks. now rewrite E. Qed.

Lemma step_marks d (ev : Event) s s' :
  wf s -> (forall f, In f (effects s) -> marks s f) ->
  step d ev s = Some s' ->
  forall f, In f (effects s') -> marks s' f.
Proof.
  intros Hwf Hm.
  destruct ev as [img|cv cx cy|cv cx cy|now rnd|cv now|cont rnd|now];
    cbn [step].
  - intros [= <-] f Hf. apply (marks_same s); [reflexivity | now apply Hm].
  - intros Hs f Hf. destruct (handleStart_ok s cv cx cy Hwf) as (s1 & E & _ & Hfr).
    assert (s1 = s') by congruence. subst s1.
    rewrite (handleStart_effects _ _ _ _ _ Hs) in Hf. eauto using marks_frozen.
  - intros Hs f Hf. destruct (handleMove_ok s cv cx cy Hwf) as (s1 & E & _ & Hfr).
    assert (s1 = s') by congruence. subst s1.
    rewrite (handleMove_effects _ _ _ _ _ Hs) in Hf. eauto using marks_frozen.
  - intros Hs f Hf. destruct (handleEnd_ok s now rnd Hwf) as (s1 & E & _ & Hfr).
    assert (s1 = s') by congruence. subst s1. clear E.
    destruct (activePieceIndex s) as [i|] eqn:Hact.
    + destruct (wf_active s i Hwf Hact) as (p & Hp & _).
      rewrite (handleEnd_active s i p now rnd Hact Hp) in Hs.
      destruct (withinTolerance _ _); injection Hs as <-.
      * simpl in Hf. apply in_app_or in Hf as [Hf|[<-|[]]];
          [eauto using marks_frozen|].
        split; [reflexivity|]. exists i, (lockedAt p p). simpl.
        split; [|auto]. apply list_lookup_insert_eq. eapply lookup_lt_Some, Hp.
      * apply (marks_same s); [reflexivity | now apply Hm].
    + rewrite handleEnd_idle in Hs by exact Hact. injection Hs as <-. auto.
  - intros [= <-] f. unfold draw. destruct (imgObj s); [|now apply Hm].
    simpl. rewrite in_map_iff. intros (f0 & <- & Hin).
    apply filter_In in Hin as [Hin _].
    destruct (Hm f0 Hin) as (Hlen & Hp). split; [|exact Hp].
    simpl. now rewrite length_map.
  - intros [= <-] f. unfold initGame. destruct (imgObj s); [|now apply Hm].
    simpl. tauto.
  - intros [= <-] f Hf. apply (marks_same s); [reflexivity | now apply Hm].
Qed.

(** X19.  On every reachable board each effect of the list marks a locked
    piece: it holds its 25 particles and sits at the target of a piece
    that is locked. *)
Theorem effects_mark_locked_pieces d (es : list Event) s f :
  run d es mount = Some s -> In f (effects s) ->
  length (particles f) = 25
  /\ exists i p, pieces s !! i = Some p /\ isLocked p = true
                 /\ e_x f = targetX p /\ e_y f = targetY p.
Proof.
  intros Hrun. revert f.
  assert (Hgen : forall s0, inv d s0 ->
            (forall f, In f (effects s0) -> marks s0 f) ->
            run d es s0 = Some s ->
            forall f, In f (effects s) -> marks s f).
  { clear Hrun. induction es as [|ev es IH]; intros s0 Hinv Hm; simpl.
    - now intros [= <-].
    - destruct (step_inv d ev s0 Hinv) as (s1 & Hs & Hinv1). rewrite Hs. simpl.
      apply IH; [exact Hinv1|]. eapply step_marks; eauto. apply Hinv. }
  apply (Hgen mount (mount_inv d)); [intros f []|exact Hrun].
Qed.

Lemma lockedCount_insert (l : list (Piece num)) i p q :
  l !! i = Some p -> isLocked p = false ->
  length (List.filter isLocked (<[i := q]> l))
  = length (List.filter isLocked l) + (if isLocked q then 1 else 0).
Proof.
  intros Hp Hfree. pose proof (lookup_lt_Some _ _ _ Hp) as Hi.
  rewrite insert_take_drop by exact Hi.
  rewrite <- (take_drop_middle l i p Hp) at 3.
  rewrite !List.filter_app, !length_app. simpl. rewrite Hfree.
  destruct (isLocked q); simpl; lia.
Qed.

Lemma step_account d (ev : Event) s s' :
  wf s -> inInstance ev = true -> step d ev s = Some s' ->
  lockedCount s <= lockedCount s'
  /\ lockedCount s' + moveCalls s <= lockedCount s + moveCalls s'.
Proof.
  intros Hwf Hev. unfold lockedCount.
  destruct ev as [img|cv cx cy|cv cx cy|now rnd|cv now|cont rnd|now];
    try discriminate; cbn [step].
  - destruct (handleStart_cases s cv cx cy (proj1 Hwf))
      as [[_ ->]|(i & p & m & Hp & Hhit & _ & _ & _ & _ & ->)];
      intros [= <-]; [lia|].
    apply hit_unlocked in Hhit. simpl.
    rewrite (lockedCount_insert _ i p _ Hp Hhit). simpl. rewrite Hhit. lia.
  - destruct (activePieceIndex s) as [i|] eqn:Hact.
    + destruct (wf_active s i Hwf Hact) as (p & Hp & Hfree).
      rewrite (handleMove_active s cv cx cy i p Hact Hp). intros [= <-].
      simpl. rewrite (lockedCount_insert _ i p _ Hp Hfree). simpl.
      rewrite Hfree. lia.
    + rewrite handleMove_idle by exact Hact. intros [= <-]. lia.
  - destruct (activePieceIndex s) as [i|] eqn:Hact.
    + destruct (wf_active s i Hwf Hact) as (p & Hp & Hfree).
      rewrite (handleEnd_active s i p now rnd Hact Hp).
      destruct (withinTolerance _ _); intros [= <-]; simpl; [|lia].
      rewrite (lockedCount_insert _ i p _ Hp Hfree). simpl. lia.
    + rewrite handleEnd_idle by exact Hact. intros [= <-]. lia.
  - intros [= <-]. unfold draw. destruct (imgObj s); simpl; lia.
  - intros [= <-]. simpl. lia.
Qed.

(** X20.  During one puzzle instance the number of locked pieces never goes
    down, and it grows by at most the number of moves counted: every lock
    is paid by one call of [onMove], so a board of n * n pieces is not
    solved in fewer than n * n moves. *)
Theorem each_lock_costs_a_move d (es : list Event) s :
  inv d s -> forallb inInstance es = true ->
  exists s',
    run d es s = Some s'
    /\ lockedCount s <= lockedCount s'
    /\ lockedCount s' + moveCalls s <= lockedCount s + moveCalls s'.
Proof.
  revert s. induction es as [|ev es IH]; intros s Hinv Hes; simpl.
  - exists s. repeat split; lia.
  - simpl in Hes. apply andb_true_iff in Hes as [Hev Hes].
    destruct (step_inv d ev s Hinv) as (s1 & Hs & Hinv1). rewrite Hs. simpl.
    destruct (step_account d ev s s1 (proj1 Hinv) Hev Hs) as [H1 H2].
    destruct (IH s1 Hinv1 Hes) as (s' & Hrun & H3 & H4).
    exists s'. split; [exact Hrun|]. lia.
Qed.

(** X21.  A rebuild of the board does not end a drag: [initGame] keeps
    [activePieceIndex] and [dragOffset], so the drag goes on with the new,
    unlocked piece of the same index - the next pointer-move moves it and
    the next release counts a move. *)
Theorem rebuild_keeps_the_drag d (img : Image num) (cont : Container num)
    (rnd : nat -> num) s i :
  inv d s -> imgObj s = Some img -> activePieceIndex s = Some i ->
  let s' := initGame d (Some cont) rnd s in
  activePieceIndex s' = Some i /\ dragOffset s' = dragOffset s
  /\ (exists p, pieces s' !! i = Some p /\ id p = i /\ isLocked p = false)
  /\ (forall cv cx cy, exists s2 p2,
         handleMove (Some cv) cx cy s' = Some s2
         /\ pieces s2 !! i = Some p2 /\ id p2 = i)
  /\ (forall now rnd', exists s3,
         handleEnd now rnd' s' = Some s3
         /\ moveCalls s3 = S (moveCalls s)
         /\ activePieceIndex s3 = None).
Proof.
  intros Hinv Himg Hact s'.
  pose proof (initGame_wf d cont rnd s Hinv) as Hwf'. fold s' in Hwf'.
  assert (Hact' : activePieceIndex s' = Some i)
    by (unfold s', initGame; now rewrite Himg).
  assert (Hmv : moveCalls s' = moveCalls s)
    by (unfold s', initGame; now rewrite Himg).
  destruct (wf_active s' i Hwf' Hact') as (p & Hp & Hfree).
  split; [exact Hact'|].
  split; [unfold s', initGame; now rewrite Himg|].
  split; [exists p; split; [exact Hp|];
          split; [exact (ids_lookup _ _ _ (proj1 Hwf') Hp) | exact Hfree]|].
  split.
  - intros cv cx cy. rewrite (handleMove_active s' cv cx cy i p Hact' Hp).
    eexists; eexists. split; [reflexivity|]. simpl. split.
    + apply list_lookup_insert_eq. eapply lookup_lt_Some, Hp.
    + simpl. exact (ids_lookup _ _ _ (proj1 Hwf') Hp).
  - intros now rnd'. rewrite (handleEnd_active s' i p now rnd' Hact' Hp).
    eexists. split; [reflexivity|].
    destruct (withinTolerance _ _); simpl; rewrite Hmv; auto.
Qed.

End Account.

(** On the demo board the effect of piece 8 marks it. *)
Lemma effects_mark_locked_pieces_witness :
  exists f, effects Demo.placed8 = [f]
    /\ length (particles f) = 25
    /\ exists i p, pieces Demo.placed8 !! i = Some p /\ isLocked p = true
                   /\ e_x f = targetX p /\ e_y f = targetY p.
Proof.
  eexists. split; [reflexivity|].
  apply (effects_mark_locked_pieces EASY
           (Loaded Demo.img :: Init Demo.cont Demo.rnd0 :: Demo.lock8)
           Demo.placed8); [vm_compute; reflexivity | now left].
Defined.

(** Solving the 3 x 3 demo board locks nine pieces in nine moves. *)
Lemma each_lock_costs_a_move_witness :
  lockedCount Demo.solved = 9 /\ moveCalls Demo.solved = 9
  /\ exists s',
       run EASY Demo.solveAll Demo.start = Some s'
       /\ lockedCount Demo.start <= lockedCount s'
       /\ lockedCount s' + moveCalls Demo.start
          <= lockedCount Demo.start + moveCalls s'.
Proof.
  split; [reflexivity|]. split; [reflexivity|].
  apply (each_lock_costs_a_move EASY Demo.solveAll Demo.start);
    [|reflexivity].
  split; [split; [reflexivity | exact I]|].
  split; [discriminate | right; reflexivity].
Defined.

(** The demo board is rebuilt while piece 8 is being dragged. *)
Lemma rebuild_keeps_the_drag_witness :
  let s' := initGame EASY (Some Demo.cont) Demo.rndHalf Demo.dragging8 in
  activePieceIndex s' = Some 8 /\ dragOffset s' = dragOffset Demo.dragging8
  /\ (exists p, pieces s' !! 8 = Some p /\ id p = 8 /\ isLocked p = false)
  /\ (forall cv cx cy, exists s2 p2,
         handleMove (Some cv) cx cy s' = Some s2
         /\ pieces s2 !! 8 = Some p2 /\ id p2 = 8)
  /\ (forall now rnd', exists s3,
         handleEnd now rnd' s' = Some s3
         /\ moveCalls s3 = S (moveCalls Demo.dragging8)
         /\ activePieceIndex s3 = None).
Proof.
  apply (rebuild_keeps_the_drag EASY Demo.img Demo.cont Demo.rndHalf
           Demo.dragging8 8); [|reflexivity|reflexivity].
  split; [split; reflexivity|].
  split; [discriminate | right; reflexivity].
Defined.

